(** * Power transforms and class balancers: a shallow embedding

    The development follows three source files:
    - [pynorm/preprocessing/transform.py]: the Box-Cox and Yeo-Johnson
      transformers (modules [Transform] and [Float64]);
    - [skutil/preprocessing/balance.py]: the oversampling, undersampling and
      SMOTE class balancers (module [Balance]);
    - [skutil/utils/util.py]: the frame validation helper (module [Util]).

    The numeric kernels of the Yeo-Johnson code are embedded twice.  Module
    [Float64] has them on IEEE binary64 numbers, the primitive floats of
    Rocq, with NumPy's own functions ([np.power], [np.log], the
    reductions) as parameters: this is where the statements about the
    branches of the transform and about the value of the likelihood live.
    Module [Transform] has them over the reals of the Standard Library,
    together with the frames and arrays as objects; it serves the
    statements about which object a statement writes to, which do not
    depend on rounding.  The balancing code reads the ratio as an exact
    rational; the statements about it fix the ratio 0.5 on counts where
    float64 arithmetic is exact, or do not depend on how the comparisons
    with the ratio and the truncation to an integer are rounded.

    Python exceptions are values of a sum type, NumPy's global random
    generator is a tape of raw draws that is threaded through every
    stochastic call, and every mutable object whose identity matters (a
    pandas frame, a NumPy array) lives in an explicit store. *)

From Stdlib Require Import Floats.
From Stdlib Require Import String.
From Stdlib Require Import Reals Lra Lia Arith ZArith QArith Bool List.
From Stdlib Require Import Permutation Sorted.
Import ListNotations.

(* ===================================================================== *)
(** * Definitions: [pynorm/preprocessing/transform.py]                     *)
(* ===================================================================== *)

Module Transform.

Local Open Scope R_scope.

(** ** NumPy scalars and reductions

    [np.power] and [np.log] are only ever relied upon at strictly positive
    arguments in the Yeo-Johnson code, where they agree with [Rpower] and
    [ln]. *)

Definition np_power (x p : R) : R := Rpower x p.
Definition np_log (x : R) : R := ln x.

Definition np_sum (l : list R) : R := fold_right Rplus 0 l.

Definition np_min (l : list R) : R :=
  match l with
  | [] => 0
  | x :: t => fold_left Rmin t x
  end.

Definition np_mean (l : list R) : R := np_sum l / INR (length l).

(** [ZERO = 1e-16] *)
Definition ZERO : R := / 10 ^ 16.

(** [def _eqls(lam, v): return np.abs(lam) <= v] *)
Definition _eqls (lam v : R) : bool :=
  if Rle_dec (Rabs lam) v then true else false.

(** ** Yeo-Johnson *)

(** [_yj_trans_single_x(x, lam)] over the reals: the comparison of [lam]
    with zero goes through [_eqls]; the comparison with two is the
    source's [lam == 2.0].  [Float64._yj_trans_single_x] is the same
    function on float64 numbers. *)
Definition _yj_trans_single_x (x lam : R) : R :=
  if Rge_dec x 0 then
    if negb (_eqls lam ZERO) then (np_power (x + 1) lam - 1) / lam
    else np_log (x + 1)
  else
    if negb (if Req_dec_T lam 2 then true else false) then
      let denom := 2 - lam in
      let numer := np_power (- x + 1) (2 - lam) - 1 in
      - numer / denom
    else - np_log (- x + 1).

(** [_yj_transform_y(y, lam)] *)
Definition _yj_transform_y (y : list R) (lam : R) : list R :=
  map (fun x => _yj_trans_single_x x lam) y.

Inductive exn : Type :=
| ValueError (msg : string)
| KeyError (key : string)
| AttributeError (attr : string)
| NotFittedError.

(** The value returned by the likelihood: a real, or [np.nan]. *)
Inductive npfloat : Type :=
| nan
| fin (r : R).

(** [_yj_llf(data, lmb)], over the reals ([Float64._yj_llf] is the same
    function on float64 numbers).

    [data = np.asarray(data)] does not copy an argument that already is an
    array, and [_yj_normmax] passes the array [x] it was given.  The
    statement [data += shift] therefore writes into the caller's array: the
    model returns, next to the result, the contents of that array when the
    call ends.  [y] is a fresh array built by [_yj_transform_y]; its own
    shift stays local. *)
Definition _yj_llf (data : list R) (lmb : R) : (exn + npfloat) * list R :=
  let N := length data in
  if Nat.eqb 0 N then (inl (ValueError "data is empty"), data)
  else
    let y := _yj_transform_y data lmb in
    let min_d := np_min data in
    let min_y := np_min y in
    let data :=
      if Rlt_dec min_d ZERO
      then let shift := Rabs min_d + 1 in map (fun v => v + shift) data
      else data in
    let y :=
      if Rlt_dec min_y ZERO
      then let shift := Rabs min_y + 1 in map (fun v => v + shift) y
      else y in
    let y_mean := np_mean y in
    let var := np_sum (map (fun v => Rsqr (v - y_mean) / INR N) y) in
    if Req_dec_T 0 var then (inr nan, data)
    else
      let llf := (lmb - 1) * np_sum (map np_log data) in
      let llf := llf - INR N / 2 * np_log var in
      (inr (fin llf), data).

(** [_eval_mle(lmb, data)] of [_yj_normmax]: the function handed to the
    optimiser, [-_yj_llf(data, lmb)]. *)
Definition neg_npfloat (v : npfloat) : npfloat :=
  match v with
  | nan => nan
  | fin r => fin (- r)
  end.

Definition _eval_mle (lmb : R) (data : list R) : (exn + npfloat) * list R :=
  match _yj_llf data lmb with
  | (inl e, data') => (inl e, data')
  | (inr v, data') => (inr (neg_npfloat v), data')
  end.

(** [optimize.brent(_eval_mle, brack=brack, args=(x,))] is an external
    optimiser.  What matters here is how it uses its objective: it calls
    [_eval_mle(lmb, x)] at one candidate after the other, every time with
    the same array [x].  [brent_calls] runs such a succession of candidates
    and returns the values the optimiser sees, with the final contents of
    [x]; an exception ends the search. *)
Fixpoint brent_calls (x : list R) (candidates : list R)
  : (exn + list npfloat) * list R :=
  match candidates with
  | [] => (inr [], x)
  | lmb :: rest =>
      match _eval_mle lmb x with
      | (inl e, x') => (inl e, x')
      | (inr v, x') =>
          match brent_calls x' rest with
          | (inl e, x'') => (inl e, x'')
          | (inr vs, x'') => (inr (v :: vs), x'')
          end
      end
  end.

(** ** pandas frames

    A float cell is a real or [NaN] ([None]).  A frame is the list of its
    named columns.  Frames are objects: [X[mask]] and [X.copy()] build a new
    object, [X[nm] = ...] writes into an existing one.  The store keeps the
    objects, a reference is a position in it. *)

Definition cell : Type := option R.
Definition Series : Type := list cell.
Definition DataFrame : Type := list (string * Series).
Definition BoolFrame : Type := list (string * list bool).

Definition ref : Type := nat.
Definition store : Type := list DataFrame.

Definition St (A : Type) : Type := store -> (exn + A) * store.

Definition ret {A} (a : A) : St A := fun st => (inr a, st).
Definition raise {A} (e : exn) : St A := fun st => (inl e, st).
Definition bind {A B} (m : St A) (f : A -> St B) : St B :=
  fun st =>
    match m st with
    | (inl e, st') => (inl e, st')
    | (inr a, st') => f a st'
    end.

Local Notation "x <- m ;; k" := (bind m (fun x => k))
  (at level 61, m at next level, right associativity).
Local Notation "m ;;; k" := (bind m (fun _ => k))
  (at level 61, right associativity).

Definition alloc (f : DataFrame) : St ref :=
  fun st => (inr (List.length st), st ++ [f]).

Definition deref (r : ref) : St DataFrame :=
  fun st => (inr (nth r st []), st).

Fixpoint update_nth {A} (n : nat) (a : A) (l : list A) : list A :=
  match l, n with
  | [], _ => []
  | _ :: t, O => a :: t
  | x :: t, S n' => x :: update_nth n' a t
  end.

Definition assign (r : ref) (f : DataFrame) : St unit :=
  fun st => (inr tt, update_nth r f st).

(** [for nm in names: body(nm)] *)
Fixpoint for_each {A} (l : list A) (body : A -> St unit) : St unit :=
  match l with
  | [] => ret tt
  | a :: t => body a ;;; for_each t body
  end.

(** Column lookup and update inside one frame value. *)
Fixpoint lookup {V} (nm : string) (d : list (string * V)) : option V :=
  match d with
  | [] => None
  | (k, v) :: t => if String.eqb k nm then Some v else lookup nm t
  end.

Fixpoint set_col (nm : string) (s : Series) (f : DataFrame) : DataFrame :=
  match f with
  | [] => [(nm, s)]
  | (k, v) :: t => if String.eqb k nm then (k, s) :: t else (k, v) :: set_col nm s t
  end.

Definition n_rows (f : DataFrame) : nat :=
  match f with
  | [] => O
  | (_, s) :: _ => length s
  end.

(** [d[nm]] on a dict *)
Definition dict_get (d : list (string * R)) (nm : string) : St R :=
  match lookup nm d with
  | Some v => ret v
  | None => raise (KeyError nm)
  end.

(** [X[nm]] *)
Definition getitem_col (X : ref) (nm : string) : St Series :=
  f <- deref X ;;
  match lookup nm f with
  | Some s => ret s
  | None => raise (KeyError nm)
  end.

(** [X[nm] = s] *)
Definition setitem_col (X : ref) (nm : string) (s : Series) : St unit :=
  f <- deref X ;; assign X (set_col nm s f).

(** [X[cols]]: a new frame with the listed columns, only read below. *)
Fixpoint select_cols (f : DataFrame) (cols : list string) : exn + DataFrame :=
  match cols with
  | [] => inr []
  | nm :: t =>
      match lookup nm f with
      | None => inl (KeyError nm)
      | Some s =>
          match select_cols f t with
          | inl e => inl e
          | inr g => inr ((nm, s) :: g)
          end
      end
  end.

Definition getitem_cols (X : ref) (cols : list string) : St DataFrame :=
  f <- deref X ;;
  match select_cols f cols with
  | inl e => raise e
  | inr g => ret g
  end.

(** [frame <= v], element by element; a comparison with NaN is false. *)
Definition cell_le (c : cell) (v : R) : bool :=
  match c with
  | None => false
  | Some x => if Rle_dec x v then true else false
  end.

Definition frame_le (f : DataFrame) (v : R) : BoolFrame :=
  map (fun '(nm, s) => (nm, map (fun c => cell_le c v) s)) f.

(** [X.where(mask)]: the cells where the mask holds, NaN elsewhere, also
    for the columns the mask does not have. *)
Fixpoint where_col (s : Series) (bs : list bool) : Series :=
  match s with
  | [] => []
  | c :: t =>
      match bs with
      | [] => None :: where_col t []
      | b :: bt => (if b then c else None) :: where_col t bt
      end
  end.

Definition frame_where (f : DataFrame) (mask : BoolFrame) : DataFrame :=
  map (fun '(nm, s) =>
         (nm, where_col s (match lookup nm mask with
                           | Some bs => bs
                           | None => []
                           end))) f.

(** [X[mask]] with a boolean frame is [X.where(mask)]: a NEW frame. *)
Definition getitem_mask (X : ref) (mask : BoolFrame) : St ref :=
  f <- deref X ;; alloc (frame_where f mask).

(** [T[cols] = v] with a scalar: every listed column of the object [T] is
    overwritten with [v]. *)
Definition setitem_cols_scalar (T : ref) (cols : list string) (v : R) : St unit :=
  for_each cols (fun nm =>
    f <- deref T ;;
    assign T (set_col nm (repeat (Some v) (n_rows f)) f)).

(** [X.copy()] *)
Definition copy (X : ref) : St ref :=
  f <- deref X ;; alloc f.

(** ** Box-Cox *)

Definition cell_add (c : cell) (r : R) : cell := option_map (fun x => x + r) c.
Definition cell_sub (c : cell) (r : R) : cell := option_map (fun x => x - r) c.
Definition cell_div (c : cell) (r : R) : cell := option_map (fun x => x / r) c.

Record BoxCoxTransformer : Type := {
  cols_ : list string;
  shift_ : option (list (string * R));
  lambda_ : option (list (string * R))
}.

Section BoxCox.

(** Box-Cox hands to [np.power] and [np.log] whatever the frame holds,
    positive or not, so here the two NumPy functions stay the external
    functions they are; [boxcox_mle] is [scipy.stats.boxcox(y, lmbda=None)[1]]. *)
Variable ufunc_power : cell -> R -> cell.
Variable ufunc_log : cell -> cell.
Variable boxcox_mle : Series -> R.

(** [_transform_y(y, lam)] *)
Definition _transform_y (y : Series) (lam : R) : Series :=
  map (fun x =>
         if negb (_eqls lam ZERO)
         then cell_div (cell_sub (ufunc_power x lam) 1) lam
         else ufunc_log x) y.

(** [_estimate_lambda_single_y(y)] *)
Definition _estimate_lambda_single_y (y : Series) : R := boxcox_mle y.

(** [X[self.cols_] <= 0.0][self.cols_] = 1e-6], as Python evaluates it:
    [X[self.cols_]], the comparison, [X.__getitem__(mask)], and then
    [__setitem__] on the object that [__getitem__] returned. *)
Definition truncate_statement (X : ref) (cols : list string) : St unit :=
  sub <- getitem_cols X cols ;;
  let mask := frame_le sub 0 in
  T <- getitem_mask X mask ;;
  setitem_cols_scalar T cols (/ 10 ^ 6).

(** [BoxCoxTransformer.transform(X)]; the result is the reference of the
    returned frame.  ([as_df] only chooses the container of the same
    values and is left out.) *)
Definition transform (self : BoxCoxTransformer) (X : ref) : St ref :=
  match shift_ self with
  | None => raise NotFittedError
  | Some shifts_ =>
      X <- copy X ;;
      match lambda_ self with
      | None => raise (AttributeError "lambda_")
      | Some lambdas_ =>
          for_each (cols_ self) (fun nm =>
            col <- getitem_col X nm ;;
            sh <- dict_get shifts_ nm ;;
            setitem_col X nm (map (fun c => cell_add c sh) col)) ;;;
          truncate_statement X (cols_ self) ;;;
          for_each (cols_ self) (fun nm =>
            col <- getitem_col X nm ;;
            lam <- dict_get lambdas_ nm ;;
            setitem_col X nm (_transform_y col lam)) ;;;
          ret X
      end
  end.

(** A call from outside: the caller's frame is the only object of the
    store, the returned frame is read back when the call ends. *)
Definition run_transform (self : BoxCoxTransformer) (X : DataFrame)
  : exn + DataFrame :=
  match transform self 0%nat [X] with
  | (inl e, _) => inl e
  | (inr r, st) => inr (nth r st [])
  end.

(** [min] of a column, NaN skipped; NaN for a column without values. *)
Fixpoint series_min (s : Series) : cell :=
  match s with
  | [] => None
  | None :: t => series_min t
  | Some x :: t =>
      match series_min t with
      | None => Some x
      | Some m => Some (Rmin x m)
      end
  end.

(** [np.abs(x) + 1e-6 if x <= 0.0 else 0.0] *)
Definition shift_of_min (m : cell) : R :=
  if cell_le m 0
  then match m with Some x => Rabs x + / 10 ^ 6 | None => 0 end
  else 0.

(** [BoxCoxTransformer.fit(X)], for a transformer built with the columns
    [cols]; the fitted transformer is returned.  The estimation by
    [scipy.stats.boxcox] is taken to succeed on every shifted column. *)
Definition fit (cols : list string) (X : DataFrame) : exn + BoxCoxTransformer :=
  let cols := match cols with [] => map fst X | _ => cols end in
  if (n_rows X <? 2)%nat
  then inl (ValueError "n_samples should be at least two")
  else
    match select_cols X cols with
    | inl e => inl e
    | inr sub =>
        let shift := map (fun '(_, s) => shift_of_min (series_min s)) sub in
        let shifted :=
          map (fun '((nm, s), sh) => (nm, map (fun c => cell_add c sh) s))
              (combine sub shift) in
        inr {| cols_ := cols;
               shift_ := Some (combine cols shift);
               lambda_ := Some (combine cols
                            (map (fun '(_, s) => _estimate_lambda_single_y s)
                                 shifted)) |}
    end.

End BoxCox.

(** ** The array of the caller after the positivity shift *)

(** "if the minimum is below the zero threshold, shift that entire vector
    upward by [|min| + 1]" *)
Definition shift_positive (v : list R) : list R :=
  if Rlt_dec (np_min v) ZERO
  then map (fun a => a + (Rabs (np_min v) + 1)) v
  else v.

(** ** The Yeo-Johnson transformer *)

Record YeoJohnsonTransformer : Type := {
  yj_cols_ : list string;
  yj_lambda_ : option (list (string * R))
}.

(** [_yj_transform_y] on a column of a frame.  For NaN the test [x >= 0]
    is false, and the arithmetic of the other branch gives NaN again. *)
Definition _yj_transform_y_series (y : Series) (lam : R) : Series :=
  map (option_map (fun x => _yj_trans_single_x x lam)) y.

(** [YeoJohnsonTransformer.transform(X)]; the result is the reference of
    the returned frame. *)
Definition yj_transform (self : YeoJohnsonTransformer) (X : ref) : St ref :=
  match yj_lambda_ self with
  | None => raise NotFittedError
  | Some lambdas_ =>
      X <- copy X ;;
      for_each (yj_cols_ self) (fun nm =>
        col <- getitem_col X nm ;;
        lam <- dict_get lambdas_ nm ;;
        setitem_col X nm (_yj_transform_y_series col lam)) ;;;
      ret X
  end.

(** ** Further notions used in the statements *)

(** The frame that [for nm in cols: X[nm] = F(X[nm], d[nm])] leaves behind,
    with the error that stopped the loop, if any. *)
Fixpoint update_cols (F : Series -> R -> Series) (d : list (string * R))
         (cols : list string) (f : DataFrame) : option exn * DataFrame :=
  match cols with
  | [] => (None, f)
  | nm :: t =>
      match lookup nm f, lookup nm d with
      | Some s, Some v => update_cols F d t (set_col nm (F s v) f)
      | _, _ => (Some (KeyError nm), f)
      end
  end.

(** A training column after its shift was added. *)
Definition shifted_column (s : Series) : Series :=
  map (fun c => cell_add c (shift_of_min (series_min s))) s.

Definition positive_cell (c : cell) : Prop :=
  match c with
  | Some x => 0 < x
  | None => True
  end.

(** The two loops of [BoxCoxTransformer.transform] on one frame. *)
Definition transform_frame (ufunc_power : cell -> R -> cell) (ufunc_log : cell -> cell)
           (shifts_ lambdas_ : list (string * R))
           (cols : list string) (f : DataFrame) : option exn * DataFrame :=
  match update_cols (fun col sh => map (fun c => cell_add c sh) col) shifts_ cols f with
  | (Some e, f1) => (Some e, f1)
  | (None, f1) => update_cols (_transform_y ufunc_power ufunc_log) lambdas_ cols f1
  end.

(** ** Small concrete inputs *)

Definition power0 (c : cell) (p : R) : cell := option_map (fun x => Rpower x p) c.
Definition log0 (c : cell) : cell := option_map ln c.
Definition mle0 (y : Series) : R := 1.

Definition frame_ab : DataFrame :=
  [("a"%string, [Some 1; Some 2; Some 3]); ("b"%string, [Some 0; None; Some (-1)])].

End Transform.

(* ===================================================================== *)
(** * Definitions: the Yeo-Johnson kernels of [transform.py] on binary64   *)
(* ===================================================================== *)

Module Float64.

Local Open Scope float_scope.

(** The conversion of a Python integer to a float64, as in [N / 2.0] and
    in the division of an array by [N]: the nearest float64, ties to even. *)
Definition float_of_int (n : Z) : float :=
  SF2Prim (binary_normalize prec emax n 0 false).

(** [ZERO = 1e-16], the float64 that the literal denotes *)
Definition ZERO : float := 0x1.cd2b297d889bcp-54.

(** [2.0] and [1e-16] as sign, mantissa and exponent: [2^52 * 2^-51] and
    [8112963841460668 * 2^-106]. *)
Definition two_m : positive := 4503599627370496.
Definition two_sf : spec_float := S754_finite false two_m (-51).
Definition ZERO_sf : spec_float := S754_finite false 8112963841460668 (-106).

(** [def _eqls(lam, v): return np.abs(lam) <= v] *)
Definition _eqls (lam v : float) : bool := abs lam <=? v.

Section Numpy.

(** NumPy is not among the sources.  [+], [-], [*], [/], [abs] and the
    comparisons of float64 scalars and arrays are the operations of IEEE
    754, element by element; the functions below stay parameters:
    [np.power] and [np.log] (element by element on an array), the
    operator [**] of an array, and the reductions [np.sum], [np.mean] and
    [np.min] over the first axis of a vector. *)
Variable np_power : float -> float -> float.
Variable np_log : float -> float.
Variable ndarray_pow : float -> float -> float.
Variable np_sum : list float -> float.
Variable np_mean : list float -> float.
Variable np_min : list float -> float.

(** [_yj_trans_single_x(x, lam)]: the comparison of [lam] with zero goes
    through [_eqls]; the comparison with two is the source's [lam == 2.0].
    In [-numer / denom] the sign is applied to the numerator. *)
Definition _yj_trans_single_x (x lam : float) : float :=
  if 0 <=? x then
    if negb (_eqls lam ZERO) then (np_power (x + 1) lam - 1) / lam
    else np_log (x + 1)
  else
    if negb (lam =? 2) then
      let denom := 2 - lam in
      let numer := np_power (- x + 1) (2 - lam) - 1 in
      (- numer) / denom
    else - np_log (- x + 1).

(** [_yj_transform_y(y, lam)] *)
Definition _yj_transform_y (y : list float) (lam : float) : list float :=
  map (fun x => _yj_trans_single_x x lam) y.

(** [_yj_llf(data, lmb)], with the contents of the array [data] when the
    call ends ([data += shift] writes into the array that was passed in). *)
Definition _yj_llf (data : list float) (lmb : float)
  : (Transform.exn + float) * list float :=
  let N := length data in
  if Nat.eqb 0 N then (inl (Transform.ValueError "data is empty"), data)
  else
    let y := _yj_transform_y data lmb in
    let min_d := np_min data in
    let min_y := np_min y in
    let data :=
      if min_d <? ZERO
      then let shift := abs min_d + 1 in map (fun v => v + shift) data
      else data in
    let y :=
      if min_y <? ZERO
      then let shift := abs min_y + 1 in map (fun v => v + shift) y
      else y in
    let y_mean := np_mean y in
    let var :=
      np_sum (map (fun v => ndarray_pow (v - y_mean) 2
                            / float_of_int (Z.of_nat N)) y) in
    if 0 =? var then (inr nan, data)
    else
      let llf := (lmb - 1) * np_sum (map np_log data) in
      let llf := llf - float_of_int (Z.of_nat N) / 2 * np_log var in
      (inr llf, data).

(** ** The specification's wording, for comparison with the code *)

(** "comparisons use an absolute-value threshold of 1e-16":
    [|lambda - c| <= 1e-16] *)
Definition within_threshold (lam c : float) : bool := abs (lam - c) <=? ZERO.

(** The Yeo-Johnson transform as the specification words it: the four
    formulas, with "equals zero" and "equals two" both decided by the
    threshold.  A value that is not [>= 0] is taken with the negative
    values, which is where a NaN goes. *)
Definition yj_claimed (x lam : float) : float :=
  if 0 <=? x then
    if within_threshold lam 0 then np_log (x + 1)
    else (np_power (x + 1) lam - 1) / lam
  else
    if within_threshold lam 2 then - np_log (- x + 1)
    else - ((np_power (- x + 1) (2 - lam) - 1) / (2 - lam)).

(** "if the minimum is below the zero threshold, shift that entire vector
    upward by [|min| + 1]" *)
Definition shift_positive (v : list float) : list float :=
  if np_min v <? ZERO
  then map (fun a => a + (abs (np_min v) + 1)) v
  else v.

(** The variance of a vector: the mean of the squared distances to the
    mean. *)
Definition variance (y : list float) : float :=
  np_sum (map (fun v => ndarray_pow (v - np_mean y) 2
                        / float_of_int (Z.of_nat (length y))) y).

(** "apply the forward transform to get [y]; shift; compute
    [llf = (lambda - 1) * sum(log(data)) - (N/2) * log(variance(y))];
    not-a-number if the computed variance is exactly zero; an input-size
    error if the vector is empty" *)
Definition yj_llf_spec (data : list float) (lmb : float) : Transform.exn + float :=
  match data with
  | [] => inl (Transform.ValueError "data is empty")
  | _ :: _ =>
      let y := shift_positive (map (fun x => yj_claimed x lmb) data) in
      let d := shift_positive data in
      let N := float_of_int (Z.of_nat (length data)) in
      if variance y =? 0 then inr nan
      else inr ((lmb - 1) * np_sum (map np_log d) - N / 2 * np_log (variance y))
  end.

End Numpy.

End Float64.

(* ===================================================================== *)
(** * Definitions: [skutil/preprocessing/balance.py]                       *)
(* ===================================================================== *)

Module Balance.

Section Balancers.

(** The class labels (equality is all the code needs of them) and the
    feature part of a row, which only the external collaborators look
    into. *)
Variable label : Type.
Variable label_eq_dec : forall a b : label, {a = b} + {a <> b}.
Variable feat : Type.

(** A frame with its label column [y]: every row has an index label, its
    feature cells and its class. *)
Record row : Type := { index : nat; features : feat; target : label }.
Definition DataFrame : Type := list row.

Inductive warning : Type :=
| SamplingWarning (l : label).   (* 'class %s only has one observation' *)

Inductive exn : Type :=
| RatioError          (* ValueError: ratio should be a float between 0.0 and 1.0 *)
| TooManyClasses      (* ValueError: class balancing can only handle <= 20 classes *)
| TooFewClasses       (* ValueError: class balancing requires at least 2 classes *)
| OneObservation (l : label)
                      (* ValueError: cannot perform SMOTE on only one observation *)
| ChoiceError         (* ValueError of numpy.random.choice *)
| NeighborsError      (* whatever the neighbour search of scikit-learn raises *)
| TypeError           (* a call that does not fit the signature of the callee *)
| KeyError (l : label)
| IndexError.

(** [NearestNeighbors(n_neighbors=k).fit(pts).kneighbors()[1]] gives, for
    every fitted point, the positions of its neighbours, or fails;
    [pts.iloc[...].mean()] averages rows.  Both belong to external
    libraries that are not among the sources, and stay parameters. *)
Variable kneighbors : nat -> list feat -> option (list (list nat)).
Variable mean : list feat -> feat.

(** ** Effects: NumPy's global generator and the warnings that were issued *)

Record world : Type := { tape : list nat; warned : list warning }.

Definition M (A : Type) : Type := world -> (exn + A) * world.

Definition ret {A} (a : A) : M A := fun w => (inr a, w).
Definition raise {A} (e : exn) : M A := fun w => (inl e, w).
Definition bind {A B} (m : M A) (f : A -> M B) : M B :=
  fun w =>
    match m w with
    | (inl e, w') => (inl e, w')
    | (inr a, w') => f a w'
    end.

Local Notation "x <- m ;; k" := (bind m (fun x => k))
  (at level 61, m at next level, right associativity).
Local Notation "m ;;; k" := (bind m (fun _ => k))
  (at level 61, right associativity).

(** [warnings.warn(..., SamplingWarning)] *)
Definition warn (x : warning) : M unit :=
  fun w => (inr tt, {| tape := tape w; warned := warned w ++ [x] |}).

(** One raw draw of the generator, reduced below [n]; a tape that ran out
    keeps answering [0]. *)
Definition randint (n : nat) : M nat :=
  fun w =>
    match tape w with
    | [] => (inr O, w)
    | h :: t => (inr (h mod n), {| tape := t; warned := warned w |})
    end.

Fixpoint remove_at {A} (i : nat) (l : list A) : list A :=
  match l, i with
  | [], _ => []
  | _ :: t, O => t
  | x :: t, S i' => x :: remove_at i' t
  end.

(** [np.random.permutation(l)]: the elements are drawn one by one from
    what is left. *)
Fixpoint permutation_from {A} (n : nat) (l : list A) : M (list A) :=
  match n with
  | O => ret []
  | S n' =>
      match l with
      | [] => ret []
      | d :: _ =>
          i <- randint (List.length l) ;;
          rest <- permutation_from n' (remove_at i l) ;;
          ret (nth i l d :: rest)
      end
  end.

Definition permutation {A} (l : list A) : M (list A) :=
  permutation_from (List.length l) l.

Fixpoint draw_with_replacement {A} (d : A) (a : list A) (size : nat) : M (list A) :=
  match size with
  | O => ret []
  | S size' =>
      i <- randint (List.length a) ;;
      rest <- draw_with_replacement d a size' ;;
      ret (nth i a d :: rest)
  end.

(** [numpy.random.choice(a, size, replace=...)]: an empty population is an
    error, and so is a sample without replacement that is larger than the
    population; without replacement the sample is the head of a
    permutation. *)
Definition choice {A} (a : list A) (size : nat) (replace : bool) : M (list A) :=
  match a with
  | [] => raise ChoiceError
  | d :: _ =>
      if replace then draw_with_replacement d a size
      else if (List.length a <? size)%nat then raise ChoiceError
      else p <- permutation a ;; ret (firstn size p)
  end.

(** ** pandas and Python helpers *)

(** [sorted(l)] on row positions *)
Fixpoint insert_sorted (x : nat) (l : list nat) : list nat :=
  match l with
  | [] => [x]
  | y :: t => if (x <=? y)%nat then x :: l else y :: insert_sorted x t
  end.

Definition sorted (l : list nat) : list nat := fold_right insert_sorted [] l.

Definition count_table : Type := list (label * nat).

Definition label_eqb (a b : label) : bool :=
  if label_eq_dec a b then true else false.

(** The distinct labels of a column, in the order of their first row. *)
Fixpoint unique (col : list label) : list label :=
  match col with
  | [] => []
  | l :: t => l :: filter (fun l' => negb (label_eqb l' l)) (unique t)
  end.

Fixpoint insert_count (leb : nat -> nat -> bool) (x : label * nat)
         (t : count_table) : count_table :=
  match t with
  | [] => [x]
  | y :: t' => if leb (snd x) (snd y) then x :: t else y :: insert_count leb x t'
  end.

Definition sort_counts (leb : nat -> nat -> bool) (t : count_table) : count_table :=
  fold_right (insert_count leb) [] t.

(** [col.value_counts()]: one entry per distinct label, most frequent
    first.  (pandas leaves the order of equal counts unspecified; the
    model keeps the order of first appearance.) *)
Definition value_counts (col : list label) : count_table :=
  sort_counts (fun a b => (b <=? a)%nat)
              (map (fun l => (l, count_occ label_eq_dec col l)) (unique col)).

(** [.sort_values(ascending=True)] *)
Definition sort_values (t : count_table) : count_table := sort_counts Nat.leb t.

(** [cts[l]] on the dict [dict(zip(index.values, cts.values))] *)
Fixpoint dict_find (t : count_table) (l : label) : option nat :=
  match t with
  | [] => None
  | (k, c) :: t' => if label_eq_dec k l then Some c else dict_find t' l
  end.

Definition dict_get (t : count_table) (l : label) : M nat :=
  match dict_find t l with
  | Some c => ret c
  | None => raise (KeyError l)
  end.

(** [seq[-1]] and [seq[-2]] *)
Definition last_item {A} (l : list A) : M A :=
  match rev l with
  | a :: _ => ret a
  | [] => raise IndexError
  end.

Definition second_last_item {A} (l : list A) : M A :=
  match rev l with
  | _ :: a :: _ => ret a
  | _ => raise IndexError
  end.

(** [a[mask]] with a boolean mask, as in [all_indices[target_col == l]] *)
Definition boolean_index {A} (a : list A) (mask : list bool) : list A :=
  map fst (filter snd (combine a mask)).

(** [X.iloc[idcs]]: rows by position *)
Fixpoint iloc {A} (X : list A) (idcs : list nat) : M (list A) :=
  match idcs with
  | [] => ret []
  | i :: t =>
      match nth_error X i with
      | None => raise IndexError
      | Some r => rest <- iloc X t ;; ret (r :: rest)
      end
  end.

(** [X.index = np.arange(X.shape[0])] *)
Definition reset_index (X : DataFrame) : DataFrame :=
  map (fun '(i, r) => {| index := i; features := features r; target := target r |})
      (combine (seq 0 (List.length X)) X).

(** [validate_is_pd(X, None)[0]] for a frame [X]: the case "[X] is a
    DataFrame, [cols] is None" of the helper in [skutil/utils/util.py],
    which returns [X.copy()]; frames are values here. *)
Definition validate_is_pd (X : DataFrame) : DataFrame := X.

(** The signature of the helper, [def validate_is_pd(X, cols, warn=False)]:
    the names a keyword argument of a call can be bound to. *)
Definition validate_is_pd_parameters : list string :=
  ["X"; "cols"; "warn"]%string.

(** A call [validate_is_pd(X, None, k1=..., k2=...)]: Python binds the
    keyword arguments to the parameters before the body runs, and raises
    [TypeError] ("got an unexpected keyword argument") for a keyword that
    names no parameter. *)
Definition call_validate_is_pd (X : DataFrame) (keywords : list string) : M DataFrame :=
  if forallb (fun k => existsb (String.eqb k) validate_is_pd_parameters) keywords
  then ret (validate_is_pd X)
  else raise TypeError.

Definition Qcount (n : nat) : Q := inject_Z (Z.of_nat n).

(** [int(q)] truncates towards zero; the products that the code truncates
    are taken over exact rationals here. *)
Definition py_int (q : Q) : Z := Z.quot (Qnum q) (Zpos (Qden q)).

(** ** Validation *)

Definition _max_classes : nat := 20.

(** [_validate_ratio]; the argument is a float by its type. *)
Definition _validate_ratio (ratio : Q) : M Q :=
  if Qle_bool ratio 0 || negb (Qle_bool ratio 1)
  then raise RatioError
  else ret ratio.

Definition _validate_num_classes (cts : count_table) : M nat :=
  let mc := _max_classes in
  let n_classes := List.length cts in
  if (mc <? n_classes)%nat then raise TooManyClasses
  else if (n_classes <? 2)%nat then raise TooFewClasses
  else ret n_classes.

Record validated : Type := {
  v_cts : count_table;        (* the dict of counts *)
  v_index : list label;       (* labels, least frequent first *)
  v_target : list label;      (* the label column *)
  v_n_classes : nat;
  v_needs_balancing : bool
}.

(** [_validate_x_y_ratio(X, y, ratio)].  The rows carry their class, so
    [y] names an existing column and [_validate_target] has nothing to
    reject; for a column of strings the source compares the labels after
    [astype('str')], here labels are compared as they are.  The quotient
    of the two counts is the exact one. *)
Definition _validate_x_y_ratio (X : DataFrame) (ratio : Q) : M validated :=
  ratio <- _validate_ratio ratio ;;
  let cts := sort_values (value_counts (map target X)) in
  n_classes <- _validate_num_classes cts ;;
  let first_ct := hd O (map snd cts) in
  let last_ct := last (map snd cts) O in
  let needs_balancing :=
    negb (Qle_bool ratio (Qcount first_ct / Qcount last_ct)) in
  ret {| v_cts := cts;
         v_index := map fst cts;
         v_target := map target X;
         v_n_classes := n_classes;
         v_needs_balancing := needs_balancing |}.

(** [_default_indices(length, shuffle)] *)
Definition _default_indices (length : nat) (shuffle : bool) : M (list nat) :=
  let x := seq 0 length in
  if negb shuffle then ret x else permutation x.

(** ** Partitioners *)

Record partitioner : Type := {
  p_X : DataFrame;
  p_ratio : Q;
  p_cts : count_table;
  p_index : list label;
  p_target_col : list label;
  p_needs_balancing : bool
}.

(** [_BaseBalancePartitioner.__init__]: validation happens here. *)
Definition partitioner_init (X : DataFrame) (ratio : Q) : M partitioner :=
  v <- _validate_x_y_ratio X ratio ;;
  ret {| p_X := X;
         p_ratio := ratio;
         p_cts := v_cts v;
         p_index := v_index v;
         p_target_col := v_target v;
         p_needs_balancing := v_needs_balancing v |}.

(** The [for minority in self.index] loop of the oversampling
    partitioner; [sample_indices] is the list that the loop extends. *)
Fixpoint oversample_loop (cts : count_table) (ratio : Q) (target_col : list label)
         (all_indices : list nat) (majority : label) (n_required : Z)
         (labels : list label) (sample_indices : list nat) : M (list nat) :=
  match labels with
  | [] => ret sample_indices
  | minority :: rest =>
      if label_eq_dec minority majority then ret sample_indices   (* break *)
      else
        min_ct <- dict_get cts minority ;;
        (if (min_ct =? 1)%nat then warn (SamplingWarning minority) else ret tt) ;;;
        maj_ct <- dict_get cts majority ;;
        let current_ratio := (Qcount min_ct / Qcount maj_ct)%Q in
        if Qle_bool ratio current_ratio
        then oversample_loop cts ratio target_col all_indices majority n_required
                             rest sample_indices                  (* continue *)
        else
          let n_samples := (n_required - Z.of_nat min_ct)%Z in
          if (n_samples <=? 0)%Z
          then oversample_loop cts ratio target_col all_indices majority n_required
                               rest sample_indices                (* continue *)
          else
            let minority_recs :=
              boolean_index all_indices
                            (map (fun t => label_eqb t minority) target_col) in
            idcs <- choice minority_recs (Z.to_nat n_samples) true ;;
            oversample_loop cts ratio target_col all_indices majority n_required
                            rest (sample_indices ++ idcs)
  end.

(** [_OversamplingBalancePartitioner._get_sample_indices] *)
Definition Oversampling_get_sample_indices (self : partitioner) (shuffle : bool)
  : M (list nat) :=
  if negb (p_needs_balancing self)
  then _default_indices (List.length (p_X self)) shuffle
  else
    let cts := p_cts self in
    let ratio := p_ratio self in
    majority <- last_item (p_index self) ;;
    maj_ct <- dict_get cts majority ;;
    let n_required := Z.max 1 (py_int (ratio * Qcount maj_ct)%Q) in
    let target_col := p_target_col self in
    let all_indices := seq 0 (List.length (p_X self)) in
    sample_indices <-
      oversample_loop cts ratio target_col all_indices majority n_required
                      (p_index self) [] ;;
    let all_indices := all_indices ++ sample_indices in
    if negb shuffle then ret (sorted all_indices) else permutation all_indices.

(** [_UndersamplingBalancePartitioner._get_sample_indices] *)
Definition Undersampling_get_sample_indices (self : partitioner) (shuffle : bool)
  : M (list nat) :=
  if negb (p_needs_balancing self)
  then _default_indices (List.length (p_X self)) shuffle
  else
    let cts := p_cts self in
    let ratio := p_ratio self in
    majority <- last_item (p_index self) ;;
    next_most <- second_last_item (p_index self) ;;
    next_ct <- dict_get cts next_most ;;
    let n_required := py_int ((1 / ratio) * Qcount next_ct)%Q in
    let all_indices := seq 0 (List.length (p_X self)) in
    maj_ct <- dict_get cts majority ;;
    if (Z.of_nat maj_ct <=? n_required)%Z then ret (sorted all_indices)
    else
      let target_col := p_target_col self in
      let majority_recs :=
        boolean_index all_indices (map (fun t => label_eqb t majority) target_col) in
      idcs <- choice majority_recs (Z.to_nat n_required) false ;;
      let minorities :=
        boolean_index all_indices
                      (map (fun t => negb (label_eqb t majority)) target_col) in
      let minorities := minorities ++ idcs in
      if negb shuffle then ret (sorted minorities) else permutation minorities.

Inductive partitioner_class : Type :=
| _OversamplingBalancePartitioner
| _UndersamplingBalancePartitioner.

(** [partitioner.get_indices(shuffle)] *)
Definition get_indices (cls : partitioner_class) (self : partitioner) (shuffle : bool)
  : M (list nat) :=
  match cls with
  | _OversamplingBalancePartitioner => Oversampling_get_sample_indices self shuffle
  | _UndersamplingBalancePartitioner => Undersampling_get_sample_indices self shuffle
  end.

(** ** Balancers *)

(** The parameters of [_BaseBalancer] ([as_df] only chooses the container
    of the returned rows and is left out), and [k] of the SMOTE balancer. *)
Record balancer : Type := { ratio_ : Q; shuffle_ : bool; k_ : nat }.

(** [_over_under_balance(X, y, ratio, as_df, shuffle, partitioner_class)] *)
Definition _over_under_balance (X : DataFrame) (ratio : Q) (shuffle : bool)
           (cls : partitioner_class) : M DataFrame :=
  let X := validate_is_pd X in
  let X := reset_index X in
  partitioner <- partitioner_init X ratio ;;
  idcs <- get_indices cls partitioner shuffle ;;
  balanced <- iloc X idcs ;;
  ret (reset_index balanced).

Definition OversamplingClassBalancer_balance (self : balancer) (X : DataFrame)
  : M DataFrame :=
  _over_under_balance X (ratio_ self) (shuffle_ self) _OversamplingBalancePartitioner.

Definition UndersamplingClassBalancer_balance (self : balancer) (X : DataFrame)
  : M DataFrame :=
  _over_under_balance X (ratio_ self) (shuffle_ self) _UndersamplingBalancePartitioner.

(** Modelled from the spec: [shuffle_dataframe] is a helper of
    [skutil.utils] that is not among the sources; "shuffled per
    configuration" is read as a random permutation of the rows. *)
Definition shuffle_dataframe (X : DataFrame) : M DataFrame := permutation X.

(** [nn = NearestNeighbors(n_neighbors=self.k).fit(pts)] and
    [nn.kneighbors()[1]] *)
Definition fit_kneighbors (k : nat) (pts : list feat) : M (list (list nat)) :=
  match kneighbors k pts with
  | Some nbrs => ret nbrs
  | None => raise NeighborsError
  end.

(** [for neighbors in nn.kneighbors()[1]: synthetics_pts.append(pts.iloc[neighbors].mean())] *)
Fixpoint synthesize (pts : list feat) (nbrs : list (list nat)) : M (list feat) :=
  match nbrs with
  | [] => ret []
  | neighbors :: t =>
      sel <- iloc pts neighbors ;;
      rest <- synthesize pts t ;;
      ret (mean sel :: rest)
  end.

(** The [for minority in index] loop of [SMOTEClassBalancer.balance]; the
    frame [X] grows as the loop goes. *)
Fixpoint smote_loop (cts : count_table) (ratio : Q) (k : nat)
         (majority : label) (n_required : Z)
         (labels : list label) (X : DataFrame) : M DataFrame :=
  match labels with
  | [] => ret X
  | minority :: rest =>
      if label_eq_dec minority majority then ret X                 (* break *)
      else
        min_ct <- dict_get cts minority ;;
        if (min_ct =? 1)%nat then raise (OneObservation minority)
        else
          maj_ct <- dict_get cts majority ;;
          let current_ratio := (Qcount min_ct / Qcount maj_ct)%Q in
          if Qle_bool ratio current_ratio
          then smote_loop cts ratio k majority n_required rest X   (* continue *)
          else
            let n_samples := (n_required - Z.of_nat min_ct)%Z in
            if (n_samples <=? 0)%Z
            then smote_loop cts ratio k majority n_required rest X (* continue *)
            else
              let minority_recs :=
                filter (fun r => label_eqb (target r) minority) X in
              let replace :=
                (List.length minority_recs <? Z.to_nat n_samples)%nat in
              idcs <- choice (map index minority_recs) (Z.to_nat n_samples) replace ;;
              sel <- iloc X idcs ;;
              let pts := map features sel in
              nbrs <- fit_kneighbors k pts ;;
              synthetics_pts <- synthesize pts nbrs ;;
              let syn_frame :=
                map (fun '(i, f) => {| index := i; features := f; target := minority |})
                    (combine (seq 0 (List.length synthetics_pts)) synthetics_pts) in
              smote_loop cts ratio k majority n_required rest (X ++ syn_frame)
  end.

(** [SMOTEClassBalancer.balance].  Its first statement is
    [X, _ = validate_is_pd(X, None, assert_all_finite=True)]. *)
Definition SMOTEClassBalancer_balance (self : balancer) (X : DataFrame) : M DataFrame :=
  X <- call_validate_is_pd X ["assert_all_finite"%string] ;;
  let X := reset_index X in
  let ratio := ratio_ self in
  v <- _validate_x_y_ratio X ratio ;;
  if negb (v_needs_balancing v)
  then (if negb (shuffle_ self) then ret X else shuffle_dataframe X)
  else
    let cts := v_cts v in
    majority <- last_item (v_index v) ;;
    maj_ct <- dict_get cts majority ;;
    let n_required := Z.max 1 (py_int (ratio * Qcount maj_ct)%Q) in
    X <- smote_loop cts ratio (k_ self) majority n_required (v_index v) X ;;
    let X := reset_index X in
    if negb (shuffle_ self) then ret X else shuffle_dataframe X.

(** ** Notions used in the statements *)

(** The table that validation computes from a label column. *)
Definition cts_of (col : list label) : count_table :=
  sort_values (value_counts col).

Definition by_count (a b : label * nat) : Prop := (snd a <= snd b)%nat.

Definition valid_ratio (ratio : Q) : Prop := (0 < ratio /\ ratio <= 1)%Q.

(** The number of distinct labels of the label column. *)
Definition distinct_labels (X : DataFrame) : nat :=
  List.length (nodup label_eq_dec (map target X)).

(** What validation returns for a frame that passes. *)
Definition validated_of (X : DataFrame) (ratio : Q) : validated :=
  let cts := cts_of (map target X) in
  {| v_cts := cts;
     v_index := map fst cts;
     v_target := map target X;
     v_n_classes := List.length cts;
     v_needs_balancing :=
       negb (Qle_bool ratio (Qcount (hd O (map snd cts))
                             / Qcount (last (map snd cts) O))) |}.

(** The partitioner that such a frame gets. *)
Definition partitioner_of (X : DataFrame) (ratio : Q) : partitioner :=
  let v := validated_of X ratio in
  {| p_X := X; p_ratio := ratio; p_cts := v_cts v; p_index := v_index v;
     p_target_col := v_target v; p_needs_balancing := v_needs_balancing v |}.

Definition needs_balancing_of (col : list label) (ratio : Q) : bool :=
  negb (Qle_bool ratio (Qcount (hd O (map snd (cts_of col)))
                        / Qcount (last (map snd (cts_of col)) O))).

(** [max(1, int(ratio * count[majority]))] *)
Definition n_required_of (col : list label) (ratio : Q) (majority : label) : Z :=
  Z.max 1 (py_int (ratio * Qcount (count_occ label_eq_dec col majority))%Q).

(** The draws that one pass of the oversampling (or SMOTE) loop asks for:
    for every label before the majority that is below the ratio, the
    number of rows to add. *)
Fixpoint planned_draws (cts : count_table) (ratio : Q) (majority : label)
         (n_required : Z) (labels : list label) : list (label * nat) :=
  match labels with
  | [] => []
  | minority :: rest =>
      if label_eq_dec minority majority then []
      else
        match dict_find cts minority, dict_find cts majority with
        | Some min_ct, Some maj_ct =>
            if Qle_bool ratio (Qcount min_ct / Qcount maj_ct)
            then planned_draws cts ratio majority n_required rest
            else if (n_required - Z.of_nat min_ct <=? 0)%Z
                 then planned_draws cts ratio majority n_required rest
                 else (minority, Z.to_nat (n_required - Z.of_nat min_ct))
                        :: planned_draws cts ratio majority n_required rest
        | _, _ => []
        end
  end.

(** The labels of the rows that these draws add. *)
Definition drawn_labels (plan : list (label * nat)) : list label :=
  flat_map (fun '(l, k) => repeat l k) plan.

(** The warnings of one pass of the oversampling loop. *)
Fixpoint singleton_warnings (cts : count_table) (majority : label)
         (labels : list label) : list warning :=
  match labels with
  | [] => []
  | minority :: rest =>
      if label_eq_dec minority majority then []
      else
        match dict_find cts minority with
        | Some 1%nat => SamplingWarning minority :: singleton_warnings cts majority rest
        | _ => singleton_warnings cts majority rest
        end
  end.

Definition oversample_plan (col : list label) (ratio : Q) : list (label * nat) :=
  if needs_balancing_of col ratio then
    match rev (map fst (cts_of col)) with
    | majority :: _ =>
        planned_draws (cts_of col) ratio majority (n_required_of col ratio majority)
                      (map fst (cts_of col))
    | [] => []
    end
  else [].

Definition oversample_warnings (col : list label) (ratio : Q) : list warning :=
  if needs_balancing_of col ratio then
    match rev (map fst (cts_of col)) with
    | majority :: _ => singleton_warnings (cts_of col) majority (map fst (cts_of col))
    | [] => []
    end
  else [].

(** The labels of the rows that undersampling keeps. *)
Definition undersample_labels (col : list label) (ratio : Q) : list label :=
  if needs_balancing_of col ratio then
    match rev (map fst (cts_of col)) with
    | majority :: next_most :: _ =>
        let n_required :=
          py_int ((1 / ratio) * Qcount (count_occ label_eq_dec col next_most))%Q in
        if (Z.of_nat (count_occ label_eq_dec col majority) <=? n_required)%Z
        then col
        else filter (fun t => negb (label_eqb t majority)) col
               ++ repeat majority (Z.to_nat n_required)
    | _ => col
    end
  else col.

(** The labels of the frame that a balancer returns, up to the order of
    the rows, and the warnings it issues. *)
Definition balanced_labels (cls : partitioner_class) (col : list label) (ratio : Q)
  : list label :=
  match cls with
  | _OversamplingBalancePartitioner => col ++ drawn_labels (oversample_plan col ratio)
  | _UndersamplingBalancePartitioner => undersample_labels col ratio
  end.

Definition balancer_warnings (cls : partitioner_class) (col : list label) (ratio : Q)
  : list warning :=
  match cls with
  | _OversamplingBalancePartitioner => oversample_warnings col ratio
  | _UndersamplingBalancePartitioner => []
  end.

(** Validation, the oversampling balancer and the undersampling balancer
    all report the error [e], and leave the generator and the warnings as
    they were. *)
Definition resampling_fails_with (e : exn) (self : balancer) (X : DataFrame) (w : world)
  : Prop :=
  _validate_x_y_ratio X (ratio_ self) w = (inl e, w) /\
  OversamplingClassBalancer_balance self X w = (inl e, w) /\
  UndersamplingClassBalancer_balance self X w = (inl e, w).

(** ** Further notions used in the statements *)

(** The cells of a row, without its index label. *)
Definition payload (r : row) : feat * label := (features r, target r).

End Balancers.

Arguments Build_row {label feat}.
Arguments index {label feat}.
Arguments features {label feat}.
Arguments target {label feat}.
Arguments SamplingWarning {label}.
Arguments RatioError {label}.
Arguments TooManyClasses {label}.
Arguments TooFewClasses {label}.
Arguments OneObservation {label}.
Arguments ChoiceError {label}.
Arguments NeighborsError {label}.
Arguments TypeError {label}.
Arguments KeyError {label}.
Arguments IndexError {label}.
Arguments Build_world {label}.
Arguments tape {label}.
Arguments warned {label}.
Arguments ret {label A}.
Arguments raise {label A}.
Arguments bind {label A B}.
Arguments warn {label}.
Arguments randint {label}.
Arguments permutation_from {label A}.
Arguments permutation {label A}.
Arguments draw_with_replacement {label A}.
Arguments choice {label A}.
Arguments label_eqb {label}.
Arguments unique {label}.
Arguments insert_count {label}.
Arguments sort_counts {label}.
Arguments value_counts {label}.
Arguments sort_values {label}.
Arguments dict_find {label}.
Arguments dict_get {label}.
Arguments last_item {label A}.
Arguments second_last_item {label A}.
Arguments iloc {label A}.
Arguments reset_index {label feat}.
Arguments validate_is_pd {label feat}.
Arguments _validate_ratio {label}.
Arguments _validate_num_classes {label}.
Arguments Build_validated {label}.
Arguments v_cts {label}.
Arguments v_index {label}.
Arguments v_target {label}.
Arguments v_n_classes {label}.
Arguments v_needs_balancing {label}.
Arguments _validate_x_y_ratio {label} label_eq_dec {feat}.
Arguments _default_indices {label}.
Arguments Build_partitioner {label feat}.
Arguments p_X {label feat}.
Arguments p_ratio {label feat}.
Arguments p_cts {label feat}.
Arguments p_index {label feat}.
Arguments p_target_col {label feat}.
Arguments p_needs_balancing {label feat}.
Arguments partitioner_init {label} label_eq_dec {feat}.
Arguments oversample_loop {label}.
Arguments Oversampling_get_sample_indices {label} label_eq_dec {feat}.
Arguments Undersampling_get_sample_indices {label} label_eq_dec {feat}.
Arguments get_indices {label} label_eq_dec {feat}.
Arguments _over_under_balance {label} label_eq_dec {feat}.
Arguments OversamplingClassBalancer_balance {label} label_eq_dec {feat}.
Arguments UndersamplingClassBalancer_balance {label} label_eq_dec {feat}.
Arguments call_validate_is_pd {label feat}.
Arguments shuffle_dataframe {label feat}.
Arguments fit_kneighbors {label feat}.
Arguments synthesize {label feat}.
Arguments smote_loop {label} label_eq_dec {feat}.
Arguments SMOTEClassBalancer_balance {label} label_eq_dec {feat}.
Arguments cts_of {label}.
Arguments by_count {label}.
Arguments distinct_labels {label} label_eq_dec {feat}.
Arguments validated_of {label} label_eq_dec {feat}.
Arguments partitioner_of {label} label_eq_dec {feat}.
Arguments needs_balancing_of {label}.
Arguments n_required_of {label}.
Arguments planned_draws {label}.
Arguments drawn_labels {label}.
Arguments singleton_warnings {label}.
Arguments oversample_plan {label}.
Arguments oversample_warnings {label}.
Arguments undersample_labels {label}.
Arguments balanced_labels {label}.
Arguments balancer_warnings {label}.
Arguments resampling_fails_with {label} label_eq_dec {feat}.

Arguments payload {label feat}.

(** [l] can be obtained from [l'] by dropping elements. *)
Inductive subsequence {A : Type} : list A -> list A -> Prop :=
| subsequence_nil : subsequence [] []
| subsequence_skip (x : A) (l l' : list A) :
    subsequence l l' -> subsequence l (x :: l')
| subsequence_take (x : A) (l l' : list A) :
    subsequence l l' -> subsequence (x :: l) (x :: l').

(** ** The two documented scenarios: label columns and class counts *)

Definition oversample_input : list nat :=
  (repeat 0 100 ++ repeat 1 30 ++ repeat 2 25)%nat.

Definition undersample_input : list nat :=
  (repeat 0 150 ++ repeat 1 30 ++ repeat 2 10)%nat.

Definition class_count {feat : Type} (X : DataFrame nat feat) (l : nat) : nat :=
  count_occ Nat.eq_dec (map target X) l.

(** ** Small concrete inputs: frames without features, collaborators that
    ignore them, a generator state and two balancers *)

Definition frame_of_labels (ls : list nat) : DataFrame nat unit :=
  map (fun l => {| index := 0; features := tt; target := l |}) ls.

Definition neighbors0 (k : nat) (pts : list unit) : option (list (list nat)) :=
  Some (map (fun _ => seq 0 k) pts).

Definition mean0 (pts : list unit) : unit := tt.

Definition world0 : world nat :=
  {| tape := [3; 1; 4; 1; 5; 9; 2; 6]%nat; warned := [] |}.

Definition balancer_half : balancer :=
  {| ratio_ := (1 # 2)%Q; shuffle_ := true; k_ := 3 |}.

Definition balancer_two : balancer :=
  {| ratio_ := 2%Q; shuffle_ := true; k_ := 3 |}.

Definition balancer_plain : balancer :=
  {| ratio_ := (1 # 2)%Q; shuffle_ := false; k_ := 1 |}.


Definition frame_even : DataFrame nat unit := frame_of_labels [0; 0; 1; 1]%nat.

Definition frame_small : DataFrame nat unit :=
  frame_of_labels (repeat 0 10 ++ repeat 1 2)%nat.

End Balance.

(* ===================================================================== *)
(** * Definitions: [skutil/utils/util.py]                                  *)
(* ===================================================================== *)

Module Util.

Section ValidateIsPd.

(** pandas frames, the raw data of any other object, and
    [pd.DataFrame.from_records(data=X)], which belongs to pandas: [None]
    stands for an exception. *)
Variable frame : Type.
Variable data : Type.
Variable from_records : data -> option frame.

(** What [validate_is_pd] asks of its argument [X]: whether it is a
    [pd.Series], a [pd.DataFrame], a [np.ndarray], an iterable whose
    elements are all lists, or none of these. *)
Inductive kind : Type :=
| Ndarray
| ListOfLists
| Unknown.

Inductive pyobject : Type :=
| PySeries
| PyDataFrame (f : frame)
| PyRaw (k : kind) (a : data).

(** The argument [cols]: [None], an object without [__iter__], or an
    iterable with the names it yields. *)
Inductive pycols : Type :=
| ColsNone
| ColsNotIterable
| ColsIterable (names : list string).

Inductive exn : Type :=
| ValueError (msg : string)
| FromRecordsError.      (* whatever [from_records] raises, when not caught *)

Inductive warning : Type :=
| SelectiveWarning.      (* 'X is not a DataFrame, and y is None' *)

(** [_val_cols(cols)] *)
Definition _val_cols (cols : pycols) : exn + option (list string) :=
  match cols with
  | ColsNone => inr None
  | ColsNotIterable => inl (ValueError "cols must be an iterable sequence")
  | ColsIterable names => inr (Some names)
  end.

(** [validate_is_pd(X, cols, warn)]: the result, and the warnings issued.
    [X.copy()] is the frame as a value; what [print(e)] writes is left
    out. *)
Definition validate_is_pd (X : pyobject) (cols : pycols) (warn : bool)
  : (exn + frame * option (list string)) * list warning :=
  match X with
  | PySeries => (inl (ValueError "expected DataFrame but got Series"), [])
  | _ =>
      match _val_cols cols with
      | inl e => (inl e, [])
      | inr cols =>
          let cols :=
            match cols with
            | Some [] => None
            | _ => cols
            end in
          match X, cols with
          | PyRaw _ a, Some names =>
              match from_records a with
              | Some f => (inr (f, Some names), [])
              | None =>
                  (inl (ValueError "expected pandas DataFrame if passed cols arg"), [])
              end
          | PyDataFrame f, None => (inr (f, None), [])
          | PyDataFrame f, Some names => (inr (f, Some names), [])
          | _, _ =>
              let warned := if warn then [SelectiveWarning] else [] in
              match X with
              | PyRaw Ndarray a =>
                  match from_records a with
                  | Some f => (inr (f, None), warned)
                  | None => (inl FromRecordsError, warned)
                  end
              | PyRaw ListOfLists a =>
                  match from_records a with
                  | Some f => (inr (f, None), warned)
                  | None => (inl (ValueError "cannot create dataframe from X"), warned)
                  end
              | _ => (inl (ValueError "cannot handle data of type"), warned)
              end
          end
      end
  end.

End ValidateIsPd.

Arguments PySeries {frame data}.
Arguments PyDataFrame {frame data}.
Arguments PyRaw {frame data}.
Arguments validate_is_pd {frame data}.

End Util.

(* ===================================================================== *)
(** * Theorems: the power transforms                                       *)
(* ===================================================================== *)

Module TransformFacts.

Import Transform.
Local Open Scope R_scope.

Lemma ZERO_pos : 0 < ZERO.
Proof. unfold ZERO. apply Rinv_0_lt_compat. lra. Qed.

(** ** The Yeo-Johnson log-likelihood *)

(** What the caller's array holds when [_yj_llf] returns. *)
Lemma yj_llf_array_after (data : list R) (lmb : R) :
  snd (_yj_llf data lmb) =
  match data with
  | [] => []
  | _ :: _ => shift_positive data
  end.
Proof.
  destruct data as [| d0 data']; [reflexivity |].
  set (data := d0 :: data').
  unfold _yj_llf. fold data.
  replace (Nat.eqb 0 (length data)) with false by reflexivity.
  cbv zeta. fold (shift_positive data).
  destruct (Req_dec_T 0 _); reflexivity.
Qed.

(** Whenever the minimum of the data is below the threshold, the array that
    was passed in comes back shifted, hence changed. *)
Lemma yj_llf_shift_persists (data : list R) (lmb : R) :
  data <> [] -> np_min data < ZERO ->
  snd (_yj_llf data lmb) = map (fun v => v + (Rabs (np_min data) + 1)) data /\
  snd (_yj_llf data lmb) <> data.
Proof.
  intros Hne Hmin. rewrite yj_llf_array_after.
  destruct data as [| d0 data']; [congruence |].
  unfold shift_positive. destruct Rlt_dec; [| contradiction].
  split; [reflexivity |].
  cbn [map]. intros Heq. injection Heq as Heq _.
  pose proof (Rabs_pos (fold_left Rmin data' d0)). lra.
Qed.

(** C4 (the code departs from it): after one evaluation on the array
    [[-1.0, 0.5]] the array holds [[1.0, 2.5]]: the shift [|min| + 1 = 2]
    was written into the array of the caller. *)
Theorem yj_llf_mutates_data :
  snd (_yj_llf [-1; / 2] 1) = [1; 5 / 2].
Proof.
  assert (Hmin : np_min [-1; / 2] = -1).
  { cbn. unfold Rmin. destruct Rle_dec; lra. }
  pose proof ZERO_pos.
  destruct (yj_llf_shift_persists [-1; / 2] 1) as [E _].
  - discriminate.
  - rewrite Hmin. lra.
  - rewrite E, Hmin. cbn [map]. rewrite Rabs_left by lra.
    f_equal; [lra | f_equal; lra].
Qed.

(** The next candidate of the same search is evaluated on the shifted
    array, not on the data the search started from. *)
Lemma brent_calls_second_candidate (x : list R) (l1 l2 : R) (v : npfloat) :
  x <> [] -> np_min x < ZERO ->
  fst (_yj_llf x l1) = inr v ->
  brent_calls x [l1; l2] =
  match _eval_mle l2 (map (fun a => a + (Rabs (np_min x) + 1)) x) with
  | (inl e, x'') => (inl e, x'')
  | (inr v2, x'') => (inr [neg_npfloat v; v2], x'')
  end.
Proof.
  intros Hne Hmin Hv.
  destruct (yj_llf_shift_persists x l1 Hne Hmin) as [E _].
  cbn [brent_calls]. unfold _eval_mle at 1.
  destruct (_yj_llf x l1) as [r x']. cbn in Hv, E. subst r x'.
  destruct (_eval_mle l2 _) as [[e | v2] x'']; reflexivity.
Qed.

(** ** Box-Cox *)

Lemma update_nth_app_last {A} (l : list A) (a b : A) :
  update_nth (length l) b (l ++ [a]) = l ++ [b].
Proof. induction l; cbn; [reflexivity | now rewrite IHl]. Qed.

Lemma nth_app_last {A} (l : list A) (a d : A) : nth (length l) (l ++ [a]) d = a.
Proof. induction l; cbn; auto. Qed.

(** Writing a scalar into columns of the youngest object of the store
    changes that object only. *)
Lemma setitem_cols_scalar_fresh (st : store) (T : DataFrame) cols v :
  exists T',
    setitem_cols_scalar (length st) cols v (st ++ [T]) = (inr tt, st ++ [T']).
Proof.
  revert T. induction cols as [| nm cols IH]; intros T.
  - exists T. reflexivity.
  - cbn [setitem_cols_scalar for_each].
    unfold bind at 1. unfold bind at 1. unfold deref, assign.
    rewrite nth_app_last, update_nth_app_last.
    apply IH.
Qed.

Lemma truncate_statement_keeps_store (X : ref) cols (st : store) :
  exists r tmp, truncate_statement X cols st = (r, st ++ tmp).
Proof.
  unfold truncate_statement, getitem_cols, getitem_mask.
  unfold bind at 1. unfold bind at 1. unfold deref at 1.
  destruct (select_cols (nth X st []) cols) as [e | sub].
  - exists (inl e), []. cbn. now rewrite app_nil_r.
  - cbn [ret]. unfold bind at 1. unfold bind at 1. unfold deref, alloc.
    destruct (setitem_cols_scalar_fresh st
                (frame_where (nth X st []) (frame_le sub 0)) cols (/ 10 ^ 6))
      as [T' E].
    rewrite E. now exists (inr tt), [T'].
Qed.

(** The truncation statement of [transform] leaves the frame [X] as it
    was: the value [1e-6] goes into the frame that [X[mask]] built. *)
Lemma truncate_statement_leaves_X (X : ref) cols (st : store) :
  (X < length st)%nat ->
  nth X (snd (truncate_statement X cols st)) [] = nth X st [].
Proof.
  intros HX.
  destruct (truncate_statement_keeps_store X cols st) as (r & tmp & E).
  rewrite E. cbn. now rewrite app_nth1.
Qed.

Section BoxCoxFacts.

Variable ufunc_power : cell -> R -> cell.
Variable ufunc_log : cell -> cell.
Variable boxcox_mle : Series -> R.

(** Fitting on the column [a = [1, 2, 3]] stores the shift [0]. *)
Lemma fit_positive_column :
  fit boxcox_mle ["a"%string] [("a"%string, [Some 1; Some 2; Some 3])]
  = inr {| cols_ := ["a"%string];
           shift_ := Some [("a"%string, 0)];
           lambda_ := Some [("a"%string,
                             boxcox_mle [Some (1 + 0); Some (2 + 0); Some (3 + 0)])] |}.
Proof.
  unfold fit. cbn.
  unfold shift_of_min, cell_le.
  destruct (Rle_dec (Rmin 1 (Rmin 2 3)) 0) as [H | H]; [| reflexivity].
  exfalso. revert H. unfold Rmin. repeat destruct Rle_dec; lra.
Qed.

(** C2 (the code departs from it): with the stored shift [0] and any
    stored lambda, a frame whose column holds [-1.0] reaches
    [_transform_y] with [-1.0] still in it; nothing was replaced by
    [1e-6]. *)
Theorem transform_passes_nonpositive (lam : R) :
  run_transform ufunc_power ufunc_log
    {| cols_ := ["a"%string];
       shift_ := Some [("a"%string, 0)];
       lambda_ := Some [("a"%string, lam)] |}
    [("a"%string, [Some (-1)])]
  = inr [("a"%string, _transform_y ufunc_power ufunc_log [Some (-1)] lam)].
Proof.
  unfold run_transform, transform. cbn.
  unfold cell_le. destruct (Rle_dec (-1) 0); [| lra]. cbn.
  do 3 f_equal.
  now rewrite Rplus_0_r.
Qed.

End BoxCoxFacts.

(** ** The transformers on frames *)

Local Notation "x <- m ;; k" := (bind m (fun x => k))
  (at level 61, m at next level, right associativity).
Local Notation "m ;;; k" := (bind m (fun _ => k))
  (at level 61, right associativity).

Lemma nth_update_nth {A} (n : nat) (a d : A) (l : list A) :
  (n < length l)%nat -> nth n (update_nth n a l) d = a.
Proof.
  revert n. induction l as [| x l IH]; intros [| n] H; cbn in *; try lia; auto.
  apply IH. lia.
Qed.

Lemma update_nth_twice {A} (n : nat) (a b : A) (l : list A) :
  update_nth n b (update_nth n a l) = update_nth n b l.
Proof.
  revert n. induction l as [| x l IH]; intros [| n]; cbn; auto. now rewrite IH.
Qed.

Lemma update_nth_same {A} (n : nat) (d : A) (l : list A) :
  (n < length l)%nat -> update_nth n (nth n l d) l = l.
Proof.
  revert n. induction l as [| x l IH]; intros [| n] H; cbn in *; try lia; auto.
  rewrite IH; [reflexivity | lia].
Qed.

Lemma update_nth_length {A} (n : nat) (a : A) (l : list A) :
  length (update_nth n a l) = length l.
Proof.
  revert n. induction l as [| x l IH]; intros [| n]; cbn; auto.
Qed.

Lemma update_nth_middle {A} (l : list A) (a b : A) (tl : list A) :
  update_nth (length l) b (l ++ a :: tl) = l ++ b :: tl.
Proof. induction l; cbn; [reflexivity | now rewrite IHl]. Qed.

Lemma bind_run {A B} (m : St A) (f : A -> St B) (st : store) :
  bind m f st =
  match m st with
  | (inl e, st') => (inl e, st')
  | (inr a, st') => f a st'
  end.
Proof. reflexivity. Qed.

(** One round of such a loop. *)
Lemma column_step (F : Series -> R -> Series) (d : list (string * R))
      (X : ref) (nm : string) (st : store) :
  (col <- getitem_col X nm ;;
   v <- dict_get d nm ;;
   setitem_col X nm (F col v)) st
  = match lookup nm (nth X st []), lookup nm d with
    | Some s, Some v => (inr tt, update_nth X (set_col nm (F s v) (nth X st [])) st)
    | _, _ => (inl (KeyError nm), st)
    end.
Proof.
  rewrite bind_run. unfold getitem_col. rewrite bind_run. unfold deref at 1.
  destruct (lookup nm (nth X st [])) as [s |]; [| reflexivity].
  cbn [ret]. rewrite bind_run. unfold dict_get.
  destruct (lookup nm d) as [v |]; reflexivity.
Qed.

(** One loop over the columns of the frame at [X]: the store changes at
    [X] only, and holds there what [update_cols] computes. *)
Lemma for_each_update_cols (F : Series -> R -> Series) (d : list (string * R))
      (X : ref) (cols : list string) (st : store) :
  (X < length st)%nat ->
  for_each cols (fun nm =>
    col <- getitem_col X nm ;;
    v <- dict_get d nm ;;
    setitem_col X nm (F col v)) st
  = (match fst (update_cols F d cols (nth X st [])) with
     | None => inr tt
     | Some e => inl e
     end,
     update_nth X (snd (update_cols F d cols (nth X st []))) st).
Proof.
  revert st. induction cols as [| nm cols IH]; intros st HX.
  - cbn. now rewrite update_nth_same.
  - cbn [for_each update_cols]. rewrite bind_run, column_step.
    destruct (lookup nm (nth X st [])) as [s |] eqn:Es.
    2:{ cbn. now rewrite update_nth_same. }
    destruct (lookup nm d) as [v |] eqn:Ev.
    2:{ cbn. now rewrite update_nth_same. }
    rewrite IH by (now rewrite update_nth_length).
    rewrite nth_update_nth by assumption.
    now rewrite update_nth_twice.
Qed.

Lemma lookup_set_col_same (nm : string) (s : Series) (f : DataFrame) :
  lookup nm (set_col nm s f) = Some s.
Proof.
  induction f as [| [k v] f IH]; cbn.
  - now rewrite String.eqb_refl.
  - destruct (String.eqb k nm) eqn:E; cbn; rewrite E; [reflexivity | exact IH].
Qed.

Lemma lookup_set_col_other (nm nm' : string) (s : Series) (f : DataFrame) :
  nm' <> nm -> lookup nm' (set_col nm s f) = lookup nm' f.
Proof.
  intros Hne. induction f as [| [k v] f IH]; cbn.
  - destruct (String.eqb nm nm') eqn:E; [| reflexivity].
    apply String.eqb_eq in E. congruence.
  - destruct (String.eqb k nm) eqn:E; cbn.
    + apply String.eqb_eq in E. subst k.
      destruct (String.eqb nm nm') eqn:E'; [| reflexivity].
      apply String.eqb_eq in E'. congruence.
    + destruct (String.eqb k nm'); [reflexivity | exact IH].
Qed.

Lemma lookup_set_col_present (nm nm' : string) (s : Series) (f : DataFrame) :
  lookup nm' f <> None -> lookup nm' (set_col nm s f) <> None.
Proof.
  intros H. destruct (string_dec nm' nm) as [-> | Hne].
  - rewrite lookup_set_col_same. discriminate.
  - now rewrite lookup_set_col_other.
Qed.

(** A loop that went through leaves every listed column in the frame. *)
Lemma update_cols_present F d cols f :
  fst (update_cols F d cols f) = None ->
  forall nm, In nm cols -> lookup nm (snd (update_cols F d cols f)) <> None.
Proof.
  revert f. induction cols as [| c cols IH]; intros f Hok nm Hin; [destruct Hin |].
  cbn [update_cols] in *.
  destruct (lookup c f) as [s |] eqn:Es; [| discriminate].
  destruct (lookup c d) as [v |] eqn:Ev; [| discriminate].
  destruct (in_dec string_dec nm cols) as [Hc | Hc]; [now apply IH |].
  destruct Hin as [-> | Hin]; [| contradiction].
  clear IH Hok Hc.
  assert (Hp : lookup nm (set_col nm (F s v) f) <> None)
    by (rewrite lookup_set_col_same; discriminate).
  revert Hp. generalize (set_col nm (F s v) f). clear.
  induction cols as [| c cols IH]; intros f Hp; cbn [update_cols]; [exact Hp |].
  destruct (lookup c f) as [s |]; [| exact Hp].
  destruct (lookup c d) as [v |]; [| exact Hp].
  apply IH. now apply lookup_set_col_present.
Qed.

Lemma select_cols_present (f : DataFrame) (cols : list string) :
  (forall nm, In nm cols -> lookup nm f <> None) ->
  exists sub, select_cols f cols = inr sub.
Proof.
  induction cols as [| c cols IH]; intros H; cbn [select_cols]; [eauto |].
  destruct (lookup c f) as [s |] eqn:E.
  - destruct IH as [sub ->]; [intros; apply H; now right | eauto].
  - exfalso. apply (H c); [now left | assumption].
Qed.

Lemma truncate_statement_ok (X : ref) (cols : list string) (st : store) :
  (forall nm, In nm cols -> lookup nm (nth X st []) <> None) ->
  exists T, truncate_statement X cols st = (inr tt, st ++ [T]).
Proof.
  intros H. destruct (select_cols_present _ _ H) as [sub E].
  unfold truncate_statement, getitem_cols, getitem_mask.
  rewrite bind_run, bind_run. unfold deref at 1. rewrite E. cbn [ret].
  rewrite bind_run, bind_run. unfold deref, alloc.
  apply setitem_cols_scalar_fresh.
Qed.

Lemma select_cols_inr (f sub : DataFrame) (cols : list string) :
  select_cols f cols = inr sub ->
  Forall2 (fun nm p => fst p = nm /\ lookup nm f = Some (snd p)) cols sub.
Proof.
  revert sub. induction cols as [| c cols IH]; intros sub E; cbn [select_cols] in E.
  - injection E as <-. constructor.
  - destruct (lookup c f) as [s |] eqn:Es; [| discriminate].
    destruct (select_cols f cols) as [e | g]; [discriminate |].
    injection E as <-. constructor; [now split | now apply IH].
Qed.

Lemma lookup_combine_Forall2 {V} (g : string * Series -> V) (f : DataFrame)
      (cols : list string) (sub : DataFrame) (nm : string) :
  Forall2 (fun nm p => fst p = nm /\ lookup nm f = Some (snd p)) cols sub ->
  In nm cols ->
  exists s, lookup nm f = Some s /\
            lookup nm (combine cols (map g sub)) = Some (g (nm, s)).
Proof.
  induction 1 as [| c [k s] cols sub [Hk Hs] _ IH]; intros Hin; [destruct Hin |].
  cbn in Hk, Hs. subst k. cbn [map combine lookup].
  destruct (String.eqb c nm) eqn:E.
  - apply String.eqb_eq in E. subst c. eauto.
  - destruct Hin as [-> | Hin]; [now rewrite String.eqb_refl in E | now apply IH].
Qed.

Lemma update_cols_lookup (F : Series -> R -> Series) (d : list (string * R))
      (G : Series -> Series) (cols : list string) (f : DataFrame) :
  NoDup cols ->
  (forall nm, In nm cols ->
     exists s v, lookup nm f = Some s /\ lookup nm d = Some v /\ F s v = G s) ->
  fst (update_cols F d cols f) = None /\
  (forall nm s, In nm cols -> lookup nm f = Some s ->
     lookup nm (snd (update_cols F d cols f)) = Some (G s)) /\
  (forall nm, ~ In nm cols ->
     lookup nm (snd (update_cols F d cols f)) = lookup nm f).
Proof.
  revert f. induction cols as [| c cols IH]; intros f Hnd H.
  - cbn. repeat split; intros; tauto.
  - inversion Hnd as [| ? ? Hc Hnd']; subst.
    destruct (H c (or_introl eq_refl)) as (s & v & Es & Ev & EF).
    cbn [update_cols]. rewrite Es, Ev.
    destruct (IH (set_col c (F s v) f) Hnd') as (I1 & I2 & I3).
    { intros nm Hin. destruct (H nm (or_intror Hin)) as (s' & v' & Es' & Ev' & EF').
      exists s', v'. rewrite lookup_set_col_other by (intros ->; contradiction).
      auto. }
    split; [exact I1 |]. split.
    + intros nm s' [<- | Hin] Es'.
      * rewrite I3 by assumption. rewrite lookup_set_col_same. congruence.
      * apply I2; [assumption |].
        now rewrite lookup_set_col_other by (intros ->; contradiction).
    + intros nm Hn. rewrite I3 by (intros Hin; apply Hn; now right).
      apply lookup_set_col_other. intros ->. apply Hn. now left.
Qed.

Lemma series_min_le (s : Series) (x : R) :
  In (Some x) s -> exists m, series_min s = Some m /\ m <= x.
Proof.
  induction s as [| [y |] s IH]; intros Hin; cbn [series_min].
  - destruct Hin.
  - destruct Hin as [E | Hin].
    + injection E as ->. destruct (series_min s) as [m |].
      * exists (Rmin x m). split; [reflexivity | apply Rmin_l].
      * exists x. split; [reflexivity | lra].
    + destruct (IH Hin) as (m & -> & Hm).
      exists (Rmin y m). split; [reflexivity |]. pose proof (Rmin_r y m). lra.
  - destruct Hin as [E | Hin]; [discriminate | now apply IH].
Qed.

Lemma shifted_column_positive (s : Series) : Forall positive_cell (shifted_column s).
Proof.
  unfold shifted_column. apply Forall_forall. intros c Hc.
  apply in_map_iff in Hc. destruct Hc as ([x |] & <- & Hin); [| exact I].
  destruct (series_min_le s x Hin) as (m & -> & Hm). cbn.
  unfold shift_of_min, cell_le.
  assert (0 < / 10 ^ 6) by (apply Rinv_0_lt_compat; lra).
  destruct (Rle_dec m 0).
  - unfold Rabs. destruct (Rcase_abs m); lra.
  - lra.
Qed.

Section BoxCoxMore.

Variable ufunc_power : cell -> R -> cell.
Variable ufunc_log : cell -> cell.
Variable boxcox_mle : Series -> R.

Lemma transform_store (self : BoxCoxTransformer) (shifts_ lambdas_ : list (string * R))
      (X : ref) (st : store) :
  shift_ self = Some shifts_ -> lambda_ self = Some lambdas_ ->
  exists tmp,
    transform ufunc_power ufunc_log self X st
    = (match fst (transform_frame ufunc_power ufunc_log shifts_ lambdas_ (cols_ self) (nth X st [])) with
       | None => inr (length st)
       | Some e => inl e
       end,
       st ++ snd (transform_frame ufunc_power ufunc_log shifts_ lambdas_ (cols_ self) (nth X st [])) :: tmp).
Proof.
  intros Hs Hl. unfold transform. rewrite Hs, Hl.
  rewrite bind_run. unfold copy. rewrite bind_run. unfold deref at 1, alloc at 1.
  set (f0 := nth X st []). rewrite bind_run.
  rewrite (for_each_update_cols (fun col sh => map (fun c => cell_add c sh) col))
    by (rewrite length_app; cbn; lia).
  rewrite nth_app_last, update_nth_app_last.
  unfold transform_frame.
  destruct (update_cols _ shifts_ (cols_ self) f0) as [[e |] f1] eqn:E1; cbn [fst snd].
  { now exists []. }
  rewrite bind_run.
  destruct (truncate_statement_ok (length st) (cols_ self) (st ++ [f1])) as [T ET].
  { rewrite nth_app_last. intros nm Hin.
    pose proof (update_cols_present _ _ _ _ (f_equal fst E1) nm Hin) as Hp.
    now rewrite E1 in Hp. }
  rewrite ET. rewrite bind_run.
  rewrite (for_each_update_cols (_transform_y ufunc_power ufunc_log))
    by (rewrite !length_app; cbn; lia).
  rewrite <- app_assoc. cbn [app].
  rewrite app_nth2 by lia. rewrite Nat.sub_diag. cbn [nth].
  rewrite update_nth_middle.
  destruct (update_cols _ lambdas_ (cols_ self) f1) as [[e |] f2]; cbn [fst snd];
    now exists [T].
Qed.

(** X7: [BoxCoxTransformer.transform] works on a copy: whatever the
    transformer holds and however the call ends, every frame that existed
    before the call is unchanged, the call only adds frames of its own. *)
Theorem transform_only_allocates (self : BoxCoxTransformer) (X : ref) (st : store) :
  exists r tail, transform ufunc_power ufunc_log self X st = (r, st ++ tail).
Proof.
  destruct (shift_ self) as [shifts_ |] eqn:Hs.
  2:{ exists (inl NotFittedError), []. unfold transform. rewrite Hs.
      cbn. now rewrite app_nil_r. }
  destruct (lambda_ self) as [lambdas_ |] eqn:Hl.
  - destruct (transform_store self shifts_ lambdas_ X st Hs Hl) as [tmp E].
    rewrite E. eauto.
  - exists (inl (AttributeError "lambda_")), [nth X st []].
    unfold transform. rewrite Hs, Hl. reflexivity.
Qed.

Lemma shifted_frame_eq (sub : DataFrame) :
  map (fun '(_, s) => _estimate_lambda_single_y boxcox_mle s)
      (map (fun '((nm, s), sh) => (nm, map (fun c => cell_add c sh) s))
           (combine sub (map (fun '(_, s) => shift_of_min (series_min s)) sub)))
  = map (fun p : string * Series => boxcox_mle (shifted_column (snd p))) sub.
Proof.
  induction sub as [| [k s] sub IH]; cbn; [reflexivity |].
  now rewrite IH.
Qed.

(** X8: on the frame it was fitted on (columns listed once), the
    Box-Cox transformer succeeds; every listed column reaches
    [_transform_y] shifted by its stored shift, with all its values
    strictly positive, and with the lambda estimated on that shifted
    column; the other columns are returned as they are. *)
Theorem fit_then_transform (cols : list string) (X : DataFrame)
        (self : BoxCoxTransformer) :
  fit boxcox_mle cols X = inr self -> NoDup (cols_ self) ->
  exists X',
    run_transform ufunc_power ufunc_log self X = inr X' /\
    (forall nm, In nm (cols_ self) ->
       exists s, lookup nm X = Some s /\
                 Forall positive_cell (shifted_column s) /\
                 lookup nm X' =
                 Some (_transform_y ufunc_power ufunc_log (shifted_column s)
                                    (boxcox_mle (shifted_column s)))) /\
    (forall nm, ~ In nm (cols_ self) -> lookup nm X' = lookup nm X).
Proof.
  unfold fit. set (cols' := match cols with [] => map fst X | _ => cols end).
  destruct (n_rows X <? 2)%nat; [discriminate |].
  destruct (select_cols X cols') as [e | sub] eqn:Esub; [discriminate |].
  intros E Hnd. injection E as <-. cbn [cols_] in *.
  rewrite shifted_frame_eq.
  apply select_cols_inr in Esub.
  set (shifts_ := combine cols' (map (fun '(_, s) => shift_of_min (series_min s)) sub)).
  set (lambdas_ := combine cols' (map (fun p : string * Series => boxcox_mle (shifted_column (snd p))) sub)).
  destruct (transform_store
              {| cols_ := cols'; shift_ := Some shifts_; lambda_ := Some lambdas_ |}
              shifts_ lambdas_ 0%nat [X] eq_refl eq_refl) as [tmp Et].
  cbn [cols_ nth length app] in Et.
  (* the first loop *)
  destruct (update_cols_lookup (fun col sh => map (fun c => cell_add c sh) col)
              shifts_ shifted_column cols' X Hnd) as (A1 & A2 & A3).
  { intros nm Hin.
    destruct (lookup_combine_Forall2 (fun '(_, s) => shift_of_min (series_min s))
                X cols' sub nm Esub Hin) as (s & Es & Ed).
    exists s, (shift_of_min (series_min s)). auto. }
  (* the second loop *)
  set (f1 := snd (update_cols (fun col sh => map (fun c => cell_add c sh) col)
                              shifts_ cols' X)) in *.
  destruct (update_cols_lookup (_transform_y ufunc_power ufunc_log) lambdas_
              (fun s => _transform_y ufunc_power ufunc_log s (boxcox_mle s))
              cols' f1 Hnd) as (B1 & B2 & B3).
  { intros nm Hin.
    destruct (lookup_combine_Forall2
                (fun p : string * Series => boxcox_mle (shifted_column (snd p)))
                X cols' sub nm Esub Hin) as (s & Es & Ed).
    exists (shifted_column s), (boxcox_mle (shifted_column s)).
    split; [now apply A2 | auto]. }
  unfold transform_frame in Et. fold f1 in Et.
  destruct (update_cols (fun col sh => map (fun c => cell_add c sh) col)
                        shifts_ cols' X) as [e1 g1] eqn:E1.
  cbn [fst snd] in A1, f1. subst e1. subst f1.
  rewrite B1 in Et.
  eexists. split.
  { unfold run_transform. rewrite Et. cbn [nth]. reflexivity. }
  split.
  - intros nm Hin.
    destruct (lookup_combine_Forall2 (fun '(_, s) => shift_of_min (series_min s))
                X cols' sub nm Esub Hin) as (s & Es & _).
    exists s. split; [exact Es |]. split; [apply shifted_column_positive |].
    apply B2; [assumption | now apply A2].
  - intros nm Hn. rewrite B3, A3 by assumption. reflexivity.
Qed.

End BoxCoxMore.

Lemma select_cols_missing (f : DataFrame) (cols : list string) (nm : string) :
  In nm cols -> lookup nm f = None ->
  exists nm', select_cols f cols = inl (KeyError nm') /\ In nm' cols /\ lookup nm' f = None.
Proof.
  induction cols as [| c cols IH]; intros Hin Hn; [destruct Hin |].
  cbn [select_cols]. destruct (lookup c f) as [s |] eqn:Es.
  - destruct Hin as [-> | Hin]; [congruence |].
    destruct (IH Hin Hn) as (nm' & -> & Hin' & Hn').
    exists nm'. auto using in_cons.
  - exists c. auto using in_eq.
Qed.

Section BoxCoxFit.

Variable boxcox_mle : Series -> R.

(** X9: [BoxCoxTransformer.fit] fails with the [n_samples] error on a
    frame of fewer than two rows, whatever the columns, and on a larger
    frame with the [KeyError] of a listed column that the frame does not
    have. *)
Theorem fit_outcome (cols : list string) (X : DataFrame) :
  let cols' := match cols with [] => map fst X | _ => cols end in
  ((n_rows X < 2)%nat ->
     fit boxcox_mle cols X = inl (ValueError "n_samples should be at least two")) /\
  ((2 <= n_rows X)%nat ->
     forall nm, In nm cols' -> lookup nm X = None ->
     exists nm', fit boxcox_mle cols X = inl (KeyError nm') /\
                 In nm' cols' /\ lookup nm' X = None).
Proof.
  intros cols'. split.
  - intros Hn. unfold fit.
    destruct (Nat.ltb_spec (n_rows X) 2); [reflexivity | lia].
  - intros Hn nm Hin Hnone. unfold fit. fold cols'.
    destruct (Nat.ltb_spec (n_rows X) 2) as [| _]; [lia |].
    destruct (select_cols_missing X cols' nm Hin Hnone) as (nm' & -> & H1 & H2).
    eauto.
Qed.

End BoxCoxFit.

(** ** The Yeo-Johnson transformer *)

Lemma yj_transform_store (self : YeoJohnsonTransformer) (lambdas_ : list (string * R))
      (X : ref) (st : store) :
  yj_lambda_ self = Some lambdas_ ->
  yj_transform self X st
  = (match fst (update_cols _yj_transform_y_series lambdas_ (yj_cols_ self)
                            (nth X st [])) with
     | None => inr (length st)
     | Some e => inl e
     end,
     st ++ [snd (update_cols _yj_transform_y_series lambdas_ (yj_cols_ self)
                             (nth X st []))]).
Proof.
  intros Hl. unfold yj_transform. rewrite Hl.
  rewrite bind_run. unfold copy. rewrite bind_run. unfold deref at 1, alloc at 1.
  rewrite bind_run.
  rewrite (for_each_update_cols _yj_transform_y_series)
    by (rewrite length_app; cbn; lia).
  rewrite nth_app_last, update_nth_app_last.
  now destruct (fst _).
Qed.

(** X10: for a fitted Yeo-Johnson transformer whose columns (listed
    once) are in the frame and in the stored lambdas, [transform] returns a
    new frame and leaves the frame of the caller as it was; in the new
    frame every listed column holds [_yj_transform_y] of the old column
    with its own lambda, NaN staying NaN, and the other columns are
    unchanged. *)
Theorem yj_transform_columns (self : YeoJohnsonTransformer)
        (lambdas_ : list (string * R)) (X : DataFrame) :
  yj_lambda_ self = Some lambdas_ ->
  NoDup (yj_cols_ self) ->
  (forall nm, In nm (yj_cols_ self) -> lookup nm X <> None /\ lookup nm lambdas_ <> None) ->
  exists X',
    yj_transform self 0%nat [X] = (inr 1%nat, [X; X']) /\
    (forall nm s lam, In nm (yj_cols_ self) ->
       lookup nm X = Some s -> lookup nm lambdas_ = Some lam ->
       lookup nm X' = Some (_yj_transform_y_series s lam)) /\
    (forall nm, ~ In nm (yj_cols_ self) -> lookup nm X' = lookup nm X).
Proof.
  intros Hl Hnd Hp.
  set (lam_of := fun nm => match lookup nm lambdas_ with Some v => v | None => 0 end).
  rewrite (yj_transform_store self lambdas_ 0%nat [X] Hl). cbn [nth length app].
  (* every column is transformed with its own lambda: go column by column *)
  assert (H : forall cols f,
             NoDup cols ->
             (forall nm, In nm cols -> lookup nm f <> None /\ lookup nm lambdas_ <> None) ->
             fst (update_cols _yj_transform_y_series lambdas_ cols f) = None /\
             (forall nm s lam, In nm cols -> lookup nm f = Some s ->
                lookup nm lambdas_ = Some lam ->
                lookup nm (snd (update_cols _yj_transform_y_series lambdas_ cols f))
                = Some (_yj_transform_y_series s lam)) /\
             (forall nm, ~ In nm cols ->
                lookup nm (snd (update_cols _yj_transform_y_series lambdas_ cols f))
                = lookup nm f)).
  { clear. induction cols as [| c cols IH]; intros f Hnd Hp.
    - cbn. repeat split; intros; tauto.
    - inversion Hnd as [| ? ? Hc Hnd']; subst.
      destruct (Hp c (or_introl eq_refl)) as [Hs Hv].
      cbn [update_cols].
      destruct (lookup c f) as [s |] eqn:Es; [| congruence].
      destruct (lookup c lambdas_) as [v |] eqn:Ev; [| congruence].
      destruct (IH (set_col c (_yj_transform_y_series s v) f) Hnd') as (I1 & I2 & I3).
      { intros nm Hin. destruct (Hp nm (or_intror Hin)) as [H1 H2].
        split; [| exact H2].
        now rewrite lookup_set_col_other by (intros ->; contradiction). }
      split; [exact I1 |]. split.
      + intros nm s' lam [<- | Hin] Es' El.
        * rewrite I3 by assumption. rewrite lookup_set_col_same. congruence.
        * apply I2; try assumption.
          now rewrite lookup_set_col_other by (intros ->; contradiction).
      + intros nm Hn. rewrite I3 by (intros Hin; apply Hn; now right).
        apply lookup_set_col_other. intros ->. apply Hn. now left. }
  destruct (H (yj_cols_ self) X Hnd Hp) as (H1 & H2 & H3).
  rewrite H1. eexists. split; [reflexivity |]. split; assumption.
Qed.

(** ** The theorems at concrete inputs *)

Lemma NoDup_ab : NoDup ["a"%string; "b"%string].
Proof.
  constructor; [| constructor; [| constructor]]; cbn; intuition discriminate.
Qed.

Lemma fit_then_transform_witness :
  exists self,
    fit mle0 [] frame_ab = inr self /\
    exists X',
      run_transform power0 log0 self frame_ab = inr X' /\
      (forall nm, In nm (cols_ self) ->
         exists s, lookup nm frame_ab = Some s /\
                   Forall positive_cell (shifted_column s) /\
                   lookup nm X' =
                   Some (_transform_y power0 log0 (shifted_column s)
                                      (mle0 (shifted_column s)))) /\
      (forall nm, ~ In nm (cols_ self) -> lookup nm X' = lookup nm frame_ab).
Proof.
  eexists. split; [reflexivity |].
  apply (fit_then_transform power0 log0 mle0 [] frame_ab _ eq_refl).
  exact NoDup_ab.
Defined.

Lemma fit_outcome_witness :
  fit mle0 ["a"%string] [("a"%string, [Some 1])]
  = inl (ValueError "n_samples should be at least two") /\
  exists nm', fit mle0 ["a"%string; "z"%string] frame_ab = inl (KeyError nm') /\
              In nm' ["a"%string; "z"%string] /\ lookup nm' frame_ab = None.
Proof.
  split.
  - apply (proj1 (fit_outcome mle0 ["a"%string] [("a"%string, [Some 1])])).
    cbn. lia.
  - apply (proj2 (fit_outcome mle0 ["a"%string; "z"%string] frame_ab)
             ltac:(cbn; lia) "z"%string).
    + now right; left.
    + reflexivity.
Defined.

Lemma yj_transform_columns_witness :
  exists X',
    yj_transform {| yj_cols_ := ["a"%string; "b"%string];
                    yj_lambda_ := Some [("a"%string, 1); ("b"%string, 2)] |}
                 0%nat [frame_ab]
    = (inr 1%nat, [frame_ab; X']) /\
    (forall nm s lam, In nm ["a"%string; "b"%string] ->
       lookup nm frame_ab = Some s ->
       lookup nm [("a"%string, 1); ("b"%string, 2)] = Some lam ->
       lookup nm X' = Some (_yj_transform_y_series s lam)) /\
    (forall nm, ~ In nm ["a"%string; "b"%string] -> lookup nm X' = lookup nm frame_ab).
Proof.
  apply (yj_transform_columns
           {| yj_cols_ := ["a"%string; "b"%string];
              yj_lambda_ := Some [("a"%string, 1); ("b"%string, 2)] |}
           [("a"%string, 1); ("b"%string, 2)] frame_ab eq_refl NoDup_ab).
  intros nm [<- | [<- | []]]; split; cbn; discriminate.
Defined.

End TransformFacts.

(* ===================================================================== *)
(** * Theorems: the Yeo-Johnson kernels on binary64                        *)
(* ===================================================================== *)

Module Float64Facts.

Import Float64.

Local Open Scope Z_scope.

(** The facts about rounding that are needed below are read off the
    specification of the primitive floats ([SpecFloat]): a number is a
    sign, a mantissa [m] and an exponent [e], and stands for [m * 2^e]. *)

(** ** Digits *)

Lemma digits2_pos_size (p : positive) : digits2_pos p = Pos.size p.
Proof. induction p; cbn; congruence. Qed.

Lemma digits_upper (p : positive) : Z.pos p < 2 ^ Z.pos (digits2_pos p).
Proof.
  rewrite digits2_pos_size.
  pose proof (Pos.size_gt p) as H.
  apply Pos2Z.pos_lt_pos in H. now rewrite Pos2Z.inj_pow in H.
Qed.

Lemma digits_lower (p : positive) (j : Z) :
  0 <= j -> 2 ^ j <= Z.pos p -> j + 1 <= Z.pos (digits2_pos p).
Proof.
  intros Hj H. pose proof (digits_upper p) as Hu.
  destruct (Z_lt_le_dec j (Z.pos (digits2_pos p))) as [|Hle]; [lia |].
  pose proof (Z.pow_le_mono_r 2 _ _ ltac:(lia) Hle). lia.
Qed.

Lemma digits_shift (p d : positive) :
  digits2_pos (Pos.iter xO p d) = (digits2_pos p + d)%positive.
Proof.
  induction d as [| d IH] using Pos.peano_ind.
  - cbn. lia.
  - rewrite Pos.iter_succ. cbn [digits2_pos]. fold digits2_pos. rewrite IH. lia.
Qed.

(** ** Shifting the mantissa to the right *)

Lemma iter_pos_nat {A} (f : A -> A) (n : positive) (x : A) :
  SpecFloat.iter_pos f n x = Nat.iter (Pos.to_nat n) f x.
Proof.
  revert x. induction n as [n IH | n IH |]; intros x; cbn [SpecFloat.iter_pos].
  - rewrite !IH, Pos2Nat.inj_xI.
    replace (S (2 * Pos.to_nat n))%nat with (Pos.to_nat n + (Pos.to_nat n + 1))%nat by lia.
    rewrite !Nat.iter_add. cbn. reflexivity.
  - rewrite !IH, Pos2Nat.inj_xO.
    replace (2 * Pos.to_nat n)%nat with (Pos.to_nat n + Pos.to_nat n)%nat by lia.
    now rewrite Nat.iter_add.
  - reflexivity.
Qed.

Lemma shr_1_m (mrs : shr_record) :
  0 <= shr_m mrs -> shr_m (shr_1 mrs) = Z.div2 (shr_m mrs).
Proof.
  destruct mrs as [m r s]. cbn [shr_m]. intros H.
  destruct m as [| [p | p |] | p]; try reflexivity; lia.
Qed.

Lemma shr_iter_m (k : nat) (mrs : shr_record) :
  0 <= shr_m mrs ->
  shr_m (Nat.iter k shr_1 mrs) = Z.shiftr (shr_m mrs) (Z.of_nat k).
Proof.
  intros H. induction k as [| k IH].
  - cbn [Nat.iter nat_rect Z.of_nat]. now rewrite Z.shiftr_0_r.
  - rewrite Nat.iter_succ, shr_1_m, IH.
    + rewrite Z.div2_spec, Z.shiftr_shiftr by lia. f_equal. lia.
    + rewrite IH. apply Z.shiftr_nonneg. lia.
Qed.

Lemma shr_m_of_loc (m : Z) (l : location) : shr_m (shr_record_of_loc m l) = m.
Proof. destruct l as [| []]; reflexivity. Qed.

(** In the normal range the first shift of the rounding leaves a positive
    mantissa, and an exponent that is not below the one of the format. *)
Lemma shr_fexp_normal (m : positive) (e : Z) (l : location) :
  emin <= Z.pos (digits2_pos m) + e - prec ->
  0 < shr_m (fst (shr_fexp prec emax (Z.pos m) e l)) /\
  Z.pos (digits2_pos m) + e - prec <= snd (shr_fexp prec emax (Z.pos m) e l) /\
  e <= snd (shr_fexp prec emax (Z.pos m) e l).
Proof.
  intros Hn. unfold shr_fexp, fexp. cbn [Zdigits2].
  rewrite Z.max_l by lia.
  set (d := Z.pos (digits2_pos m)) in *.
  unfold shr.
  destruct (d + e - prec - e) as [| n | n] eqn:En; cbn [fst snd].
  - rewrite shr_m_of_loc. lia.
  - rewrite iter_pos_nat, shr_iter_m by (rewrite shr_m_of_loc; lia).
    rewrite shr_m_of_loc, positive_nat_Z.
    split; [| lia].
    rewrite Z.shiftr_div_pow2 by lia.
    apply Z.div_str_pos. split; [lia |].
    assert (Hd : Z.pos n + 1 <= d) by (unfold prec in En; lia).
    destruct (Z_lt_le_dec (Z.pos m) (2 ^ Z.pos n)) as [Hlt | Hle]; [| lia].
    exfalso.
    assert (Hlow : 2 ^ (d - 1) <= Z.pos m).
    { unfold d. rewrite digits2_pos_size.
      pose proof (Pos.size_le m) as H.
      apply Pos2Z.pos_le_pos in H.
      rewrite Pos2Z.inj_pow in H.
      replace (Z.pos (Pos.size m)) with (Z.pos (Pos.size m) - 1 + 1) in H by lia.
      rewrite Z.pow_add_r in H by lia.
      change (Z.pos m~0) with (2 * Z.pos m) in H. lia. }
    pose proof (Z.pow_le_mono_r 2 (Z.pos n) (d - 1) ltac:(lia) ltac:(lia)). lia.
  - rewrite shr_m_of_loc. lia.
Qed.

Lemma round_nearest_even_pos (m : Z) (l : location) :
  0 < m -> 0 < round_nearest_even m l.
Proof.
  intros H. unfold round_nearest_even.
  destruct l as [| []]; try lia. destruct (Z.even m); lia.
Qed.

(** Rounding a mantissa that is large enough gives an infinity or a finite
    number whose exponent is at least the bound. *)
Lemma binary_round_aux_large (s : bool) (m : positive) (e : Z) (l : location) (B : Z) :
  B <= Z.pos (digits2_pos m) + e - prec ->
  emin + prec - 1 <= B ->
  binary_round_aux prec emax s (Z.pos m) e l = S754_infinity s \/
  exists m' e', binary_round_aux prec emax s (Z.pos m) e l = S754_finite s m' e' /\ B <= e'.
Proof.
  intros HB Hmin. unfold binary_round_aux.
  destruct (shr_fexp_normal m e l) as (Hpos & He1 & _); [unfold prec in *; lia |].
  destruct (shr_fexp prec emax (Z.pos m) e l) as [mrs' e'] eqn:E1. cbn [fst snd] in *.
  pose proof (round_nearest_even_pos (shr_m mrs') (loc_of_shr_record mrs') Hpos) as Hr.
  destruct (round_nearest_even (shr_m mrs') (loc_of_shr_record mrs')) as [| q | q];
    try lia.
  destruct (shr_fexp_normal q e' loc_Exact) as (Hpos2 & _ & He2).
  { pose proof (Pos2Z.is_pos (digits2_pos q)). unfold prec in *. lia. }
  destruct (shr_fexp prec emax (Z.pos q) e' loc_Exact) as [mrs'' e''] eqn:E2.
  cbn [fst snd] in *.
  destruct (shr_m mrs'') as [| m'' | m'']; try lia.
  destruct (e'' <=? emax - prec); [| now left].
  right. exists m'', e''. split; [reflexivity | lia].
Qed.

Lemma binary_round_large (s : bool) (p : positive) (e : Z) (B : Z) :
  B <= Z.pos (digits2_pos p) + e - prec ->
  emin + prec - 1 <= B ->
  binary_round prec emax s p e = S754_infinity s \/
  exists m' e', binary_round prec emax s p e = S754_finite s m' e' /\ B <= e'.
Proof.
  intros HB Hmin. unfold binary_round, shl_align.
  destruct (fexp prec emax (Z.pos (digits2_pos p) + e) - e) as [| d | d] eqn:Ed;
    try now apply binary_round_aux_large.
  apply binary_round_aux_large; [| assumption].
  rewrite digits_shift. lia.
Qed.

Lemma binary_normalize_large (M e B : Z) (szero : bool) :
  M <> 0 ->
  B <= Zdigits2 M + e - prec ->
  emin + prec - 1 <= B ->
  exists s,
    binary_normalize prec emax M e szero = S754_infinity s \/
    exists m' e', binary_normalize prec emax M e szero = S754_finite s m' e' /\ B <= e'.
Proof.
  intros HM HB Hmin. destruct M as [| p | p]; [congruence | |]; cbn [binary_normalize Zdigits2] in *.
  - exists false. now apply binary_round_large.
  - exists true. now apply binary_round_large.
Qed.

(** ** The numbers next to two *)

Lemma bounded_digits (m : positive) (e : Z) :
  SpecFloat.bounded prec emax m e = true ->
  Z.pos (digits2_pos m) <= 53 /\ (-1074 < e -> Z.pos (digits2_pos m) = 53) /\ -1074 <= e.
Proof.
  unfold SpecFloat.bounded, canonical_mantissa, fexp, SpecFloat.emin, prec, emax.
  intros H. apply andb_true_iff in H. destruct H as [H _].
  apply Z.eqb_eq in H. lia.
Qed.

Lemma pow_pos_shift (p d : positive) :
  Z.pos (Pos.iter xO p d) = Z.pos p * 2 ^ Z.pos d.
Proof.
  change (Pos.iter xO p d) with (Zpower.shift_pos d p).
  rewrite Zpower.shift_pos_correct. change (Z.pow_pos 2 d) with (2 ^ Z.pos d). lia.
Qed.

Lemma leb_abs_large (r : spec_float) (s : bool) :
  (r = S754_infinity s \/ exists m e, r = S754_finite s m e /\ -104 <= e) ->
  SFleb (SFabs r) ZERO_sf = false.
Proof.
  intros [-> | (m & e & -> & He)]; [reflexivity |].
  unfold SFleb, SFabs, ZERO_sf, SFcompare.
  destruct (Z.compare_spec e (-106)); first [lia | reflexivity].
Qed.

Lemma eqb_two_false (s : bool) (m : positive) (e : Z) :
  ~ (s = false /\ m = two_m /\ e = -51) ->
  SFeqb (S754_finite s m e) two_sf = false.
Proof.
  intros H. unfold SFeqb, two_sf, SFcompare.
  destruct s; [reflexivity |].
  destruct (Z.compare_spec e (-51)) as [-> | |]; try reflexivity.
  rewrite Pos.compare_cont_spec. cbn [Pos.switch_Eq].
  destruct (Pos.compare_spec m two_m) as [-> | |]; try reflexivity.
  exfalso. now apply H.
Qed.

(** The difference of a finite number and two, before it is rounded: it is
    zero for two only, and otherwise at least [2^-52] in magnitude. *)
Lemma sub_two_mantissa (s : bool) (m : positive) (e : Z) :
  SpecFloat.bounded prec emax m e = true ->
  ~ (s = false /\ m = two_m /\ e = -51) ->
  exists M,
    SFsub prec emax (S754_finite s m e) two_sf
    = binary_normalize prec emax M (Z.min e (-51)) false /\
    M <> 0 /\ -104 <= Zdigits2 M + Z.min e (-51) - prec.
Proof.
  intros Hb Hne. destruct (bounded_digits m e Hb) as (Hd & Hnorm & Hemin).
  pose proof (digits_upper m) as Hup.
  assert (Hm : Z.pos m < 2 ^ 53).
  { eapply Z.lt_le_trans; [exact Hup |]. apply Z.pow_le_mono_r; lia. }
  unfold SFsub, two_sf. cbv zeta.
  eexists. split; [reflexivity |].
  unfold shl_align.
  destruct (Z_lt_le_dec e (-51)) as [Hlt | Hge].
  - (* below one half of two's exponent: two is aligned to [e] *)
    rewrite Z.min_l by lia. rewrite Z.sub_diag.
    destruct (e - -51) as [| d | d] eqn:Ed; try lia.
    cbn [fst cond_Zopp]. rewrite pow_pos_shift.
    set (T := Z.pos two_m * 2 ^ Z.pos d).
    assert (HT : T = 2 ^ 53 * 2 ^ (Z.pos d - 1)).
    { unfold T, two_m.
      replace (Z.pos d) with (1 + (Z.pos d - 1)) at 1 by lia.
      rewrite Z.pow_add_r by lia. lia. }
    assert (Hu : 0 < 2 ^ (Z.pos d - 1)) by (apply Z.pow_pos_nonneg; lia).
    set (u := 2 ^ (Z.pos d - 1)) in *.
    assert (Hbig : u <= T - Z.pos m) by nia.
    assert (Hneg : cond_Zopp s (Z.pos m) - T <= - u).
    { destruct s; cbn [cond_Zopp]; lia. }
    destruct (cond_Zopp s (Z.pos m) - T) as [| q | q] eqn:EM; try lia.
    split; [discriminate |].
    cbn [Zdigits2].
    assert (Hq : 2 ^ (Z.pos d - 1) <= Z.pos q) by (fold u; lia).
    pose proof (digits_lower q (Z.pos d - 1) ltac:(lia) Hq). unfold prec. lia.
  - rewrite Z.min_r by lia. rewrite Z.sub_diag. cbn [fst].
    assert (Hdig : Z.pos (digits2_pos m) = 53) by (apply Hnorm; lia).
    assert (Hlow : 2 ^ 52 <= Z.pos m).
    { destruct (Z_lt_le_dec (Z.pos m) (2 ^ 52)) as [Hl | ]; [| assumption].
      exfalso.
      pose proof (Pos.size_le m) as H. apply Pos2Z.pos_le_pos in H.
      rewrite Pos2Z.inj_pow, <- digits2_pos_size, Hdig in H.
      change (Z.pos m~0) with (2 * Z.pos m) in H. lia. }
    assert (HM : cond_Zopp s (Z.pos (fst match -51 - e with
                                      | Z.neg d => (Pos.iter xO m d, -51)
                                      | _ => (m, e)
                                      end)) - cond_Zopp false (Z.pos two_m) <> 0).
    { cbn [cond_Zopp]. destruct (-51 - e) as [| d | d] eqn:Ed; cbn [fst].
      - assert (e = -51) by lia. subst e.
        destruct s; cbn [cond_Zopp]; [lia |].
        intros H. apply Hne. repeat split. unfold two_m in *. lia.
      - lia.
      - rewrite pow_pos_shift.
        assert (2 <= 2 ^ Z.pos d).
        { change 2 with (2 ^ 1) at 1. apply Z.pow_le_mono_r; lia. }
        destruct s; cbn [cond_Zopp]; unfold two_m; nia. }
    split; [exact HM |].
    destruct (cond_Zopp s _ - cond_Zopp false (Z.pos two_m)) as [| q | q];
      [congruence | |]; cbn [Zdigits2]; pose proof (Pos2Z.is_pos (digits2_pos q));
      unfold prec; lia.
Qed.

Local Open Scope float_scope.

(** On binary64 the threshold test at two and the exact comparison with
    two accept the same numbers: no other number lies within [1e-16] of
    two. *)
Lemma threshold_at_two (lam : float) :
  (abs (lam - 2) <=? ZERO) = (lam =? 2).
Proof.
  rewrite leb_spec, abs_spec, sub_spec, FloatAxioms.eqb_spec.
  unfold SF64sub.
  change (Prim2SF 2) with two_sf. change (Prim2SF ZERO) with ZERO_sf.
  pose proof (Prim2SF_valid lam) as Hv.
  destruct (Prim2SF lam) as [s | s | | s m e]; try reflexivity.
  - destruct s; reflexivity.
  - cbn [SpecFloat.valid_binary] in Hv.
    assert (Hdec : (s = false /\ m = two_m /\ e = (-51)%Z) \/
                   ~ (s = false /\ m = two_m /\ e = (-51)%Z)).
    { destruct s; [right; intros [H _]; discriminate |].
      destruct (Pos.eq_dec m two_m) as [-> | Hm]; [| right; intros (_ & H & _); contradiction].
      destruct (Z.eq_dec e (-51)) as [-> | He]; [now left | right; intros (_ & _ & H); contradiction]. }
    destruct Hdec as [(-> & -> & ->) | Hne].
    + reflexivity.
    + rewrite (eqb_two_false s m e Hne).
      destruct (sub_two_mantissa s m e Hv Hne) as (M & -> & HM & HB).
      destruct (binary_normalize_large M (Z.min e (-51)) (-104) false HM HB) as (s' & H).
      { discriminate. }
      now apply (leb_abs_large _ s').
Qed.

(** Subtracting zero changes at most the sign of a zero. *)
Lemma abs_sub_zero (lam : float) : abs (lam - 0) = abs lam.
Proof.
  apply Prim2SF_inj. rewrite !abs_spec, sub_spec. unfold SF64sub.
  change (Prim2SF 0) with (S754_zero false).
  destruct (Prim2SF lam) as [[] | [] | | s m e]; reflexivity.
Qed.

Lemma binary_round_aux_opp (s : bool) (m e : Z) (l : location) :
  binary_round_aux prec emax (negb s) m e l
  = SFopp (binary_round_aux prec emax s m e l).
Proof.
  unfold binary_round_aux.
  destruct (shr_fexp prec emax m e l) as [mrs' e'].
  destruct (shr_fexp prec emax _ e' loc_Exact) as [mrs'' e''].
  destruct (shr_m mrs''); try reflexivity.
  destruct (e'' <=? emax - prec)%Z; reflexivity.
Qed.

(** Division is odd in its numerator. *)
Lemma div_opp_l (n d : float) : (- n) / d = - (n / d).
Proof.
  apply Prim2SF_inj. rewrite opp_spec, !div_spec, opp_spec. unfold SF64div.
  destruct (Prim2SF n) as [sn | sn | | sn mn en], (Prim2SF d) as [sd | sd | | sd md ed];
    cbn [SFdiv SFopp]; try reflexivity;
    try (now destruct sn, sd).
  destruct (SFdiv_core_binary prec emax (Z.pos mn) en (Z.pos md) ed) as [[mz ez] lz].
  rewrite <- binary_round_aux_opp. now destruct sn, sd.
Qed.

Lemma SFcompare_Eq_sym (f g : spec_float) :
  SFcompare f g = Some Eq -> SFcompare g f = Some Eq.
Proof.
  destruct f as [sf | sf | | sf mf ef], g as [sg | sg | | sg mg eg]; cbn;
    try discriminate; try reflexivity;
    try (destruct sf; discriminate); try (destruct sg; discriminate);
    try (destruct sf, sg; (discriminate || reflexivity)).
  rewrite !Pos.compare_cont_spec. cbn [Pos.switch_Eq].
  destruct sf, sg; try discriminate;
    rewrite (Z.compare_antisym ef eg), (Pos.compare_antisym mf mg);
    destruct (ef ?= eg)%Z; cbn; try discriminate;
    destruct (mf ?= mg)%positive; cbn; (discriminate || reflexivity).
Qed.

Lemma eqb_sym (a b : float) : (a =? b) = (b =? a).
Proof.
  rewrite !FloatAxioms.eqb_spec. unfold SFeqb.
  destruct (SFcompare (Prim2SF a) (Prim2SF b)) as [[] |] eqn:E1;
    destruct (SFcompare (Prim2SF b) (Prim2SF a)) as [[] |] eqn:E2;
    try reflexivity;
    try (apply SFcompare_Eq_sym in E1; congruence);
    try (apply SFcompare_Eq_sym in E2; congruence).
Qed.

(** ** Yeo-Johnson, one value *)

Section NumpyFacts.

Variable np_power : float -> float -> float.
Variable np_log : float -> float.
Variable ndarray_pow : float -> float -> float.
Variable np_sum : list float -> float.
Variable np_mean : list float -> float.
Variable np_min : list float -> float.

(** The numbers next to two, [2 - 2^-52] and [2 + 2^-51], are outside the
    threshold; two itself is inside. *)
Lemma threshold_neighbours_of_two :
  within_threshold 0x1.fffffffffffffp+0 2 = false /\
  within_threshold 2 2 = true /\
  within_threshold 0x1.0000000000001p+1 2 = false.
Proof. repeat split; vm_compute; reflexivity. Qed.

(** C1: on float64 numbers, the Yeo-Johnson transform of one value is the
    piecewise function of the claim.  For [x >= 0] it is
    [((x+1)^lambda - 1)/lambda] when lambda differs from 0 and [log(x+1)]
    when lambda equals 0; for the other values it is
    [-(((-x+1)^(2-lambda) - 1)/(2-lambda))] when lambda differs from 2 and
    [-log(-x+1)] when lambda equals 2; "equals" is decided by
    [|lambda - c| <= 1e-16] in both cases.  The code tests [lam == 2.0],
    which accepts the same float64 numbers as the threshold. *)
Theorem yj_piecewise (x lam : float) :
  _yj_trans_single_x np_power np_log x lam = yj_claimed np_power np_log x lam.
Proof.
  unfold _yj_trans_single_x, yj_claimed, within_threshold, _eqls.
  rewrite abs_sub_zero, threshold_at_two.
  destruct (0 <=? x).
  - (* x >= 0: both sides test |lam| <= 1e-16 *)
    destruct (abs lam <=? ZERO); reflexivity.
  - (* otherwise: lam == 2.0 on both sides, and -numer / denom = -(numer / denom) *)
    destruct (lam =? 2); cbn [negb]; [reflexivity |].
    apply div_opp_l.
Qed.

(** ** The Yeo-Johnson log-likelihood *)

Lemma yj_transform_y_claimed (data : list float) (lmb : float) :
  _yj_transform_y np_power np_log data lmb
  = map (fun x => yj_claimed np_power np_log x lmb) data.
Proof.
  unfold _yj_transform_y. apply map_ext. intros x.
  unfold _yj_trans_single_x, yj_claimed, within_threshold, _eqls.
  rewrite abs_sub_zero, threshold_at_two.
  destruct (0 <=? x); [destruct (abs lmb <=? ZERO); reflexivity |].
  destruct (lmb =? 2); cbn [negb]; [reflexivity | apply div_opp_l].
Qed.

Lemma shift_positive_length (v : list float) :
  length (shift_positive np_min v) = length v.
Proof.
  unfold shift_positive. destruct (np_min v <? ZERO); [apply length_map | reflexivity].
Qed.

(** C3: on an empty vector the likelihood fails with the input-size error;
    otherwise it transforms the data into [y] with the transform of the
    specification, shifts the data and [y] upward by [|min| + 1] when
    their minimum is below [1e-16], and returns not-a-number when the
    computed variance of [y] is exactly zero and
    [(lambda - 1) * sum(log(data)) - (N/2) * log(variance(y))] otherwise. *)
Theorem yj_llf_matches_spec (data : list float) (lmb : float) :
  fst (_yj_llf np_power np_log ndarray_pow np_sum np_mean np_min data lmb)
  = yj_llf_spec np_power np_log ndarray_pow np_sum np_mean np_min data lmb.
Proof.
  destruct data as [| d0 data']; [reflexivity |].
  set (data := d0 :: data').
  unfold _yj_llf, yj_llf_spec. fold data.
  replace (Nat.eqb 0 (length data)) with false by reflexivity.
  cbv zeta.
  rewrite yj_transform_y_claimed.
  fold (shift_positive np_min data).
  fold (shift_positive np_min (map (fun x => yj_claimed np_power np_log x lmb) data)).
  set (y := shift_positive np_min (map (fun x => yj_claimed np_power np_log x lmb) data)).
  assert (Hlen : length y = length data).
  { unfold y. rewrite shift_positive_length. apply length_map. }
  rewrite <- Hlen. fold (variance ndarray_pow np_sum np_mean y).
  rewrite (eqb_sym 0 (variance ndarray_pow np_sum np_mean y)).
  destruct (variance ndarray_pow np_sum np_mean y =? 0); reflexivity.
Qed.

End NumpyFacts.

End Float64Facts.

(* ===================================================================== *)
(** * Theorems: the class balancers                                        *)
(* ===================================================================== *)

Module BalanceFacts.

Import Balance.
Local Close Scope Q_scope.
Local Open Scope nat_scope.

Section Balancing.

Variable label : Type.
Variable label_eq_dec : forall a b : label, {a = b} + {a <> b}.

Lemma bind_ok {A B} (m : M label A) (f : A -> M label B) (w w' : world label) (a : A) :
  m w = (inr a, w') -> bind m f w = f a w'.
Proof. intros E. unfold bind. now rewrite E. Qed.

Lemma bind_err {A B} (m : M label A) (f : A -> M label B) (w w' : world label) (e : exn label) :
  m w = (inl e, w') -> bind m f w = (inl e, w').
Proof. intros E. unfold bind. now rewrite E. Qed.

Lemma randint_ok (n : nat) (w : world label) :
  exists i w', randint n w = (inr i, w') /\ warned w' = warned w /\ (0 < n -> i < n).
Proof.
  unfold randint. destruct (tape w) as [| h t].
  - exists 0, w. repeat split; auto.
  - eexists _, _. repeat split. cbn. intros Hn. apply Nat.mod_upper_bound. lia.
Qed.

Lemma remove_at_perm {A} (d : A) (l : list A) (i : nat) :
  i < length l -> Permutation (nth i l d :: remove_at i l) l.
Proof.
  revert i. induction l as [| x l IH]; intros i Hi; cbn in Hi; [lia |].
  destruct i as [| i]; cbn.
  - reflexivity.
  - rewrite perm_swap. constructor. apply IH. lia.
Qed.

Lemma remove_at_length {A} (l : list A) (i : nat) :
  i < length l -> length (remove_at i l) = pred (length l).
Proof.
  revert i. induction l as [| x l IH]; intros i Hi; cbn in Hi; [lia |].
  destruct i as [| i]; cbn; [reflexivity |].
  rewrite IH by lia. destruct l; cbn in *; lia.
Qed.

Lemma permutation_from_cons {A} (n : nat) (d : A) (l' : list A) :
  permutation_from (label := label) (S n) (d :: l') =
  bind (randint (length (d :: l')))
       (fun i => bind (permutation_from n (remove_at i (d :: l')))
                      (fun rest => ret (nth i (d :: l') d :: rest))).
Proof. reflexivity. Qed.

Lemma permutation_from_ok {A} (n : nat) (l : list A) (w : world label) :
  length l <= n ->
  exists p w', permutation_from n l w = (inr p, w') /\
               warned w' = warned w /\ Permutation p l.
Proof.
  revert l w. induction n as [| n IH]; intros l w Hn.
  - destruct l; cbn in Hn; [| lia]. exists [], w. repeat split; auto.
  - destruct l as [| d l'].
    + exists [], w. repeat split; auto.
    + rewrite permutation_from_cons. set (l := d :: l') in *.
      destruct (randint_ok (length l) w) as (i & w1 & E1 & W1 & Hi).
      specialize (Hi ltac:(cbn; lia)).
      rewrite (bind_ok _ _ _ _ _ E1).
      destruct (IH (remove_at i l) w1) as (p & w2 & E2 & W2 & Hp).
      { rewrite remove_at_length by assumption. lia. }
      rewrite (bind_ok _ _ _ _ _ E2).
      exists (nth i l d :: p), w2. repeat split.
      * congruence.
      * rewrite Hp. now apply remove_at_perm.
Qed.

Lemma permutation_ok {A} (l : list A) (w : world label) :
  exists p w', permutation l w = (inr p, w') /\
               warned w' = warned w /\ Permutation p l.
Proof. apply permutation_from_ok. lia. Qed.

Lemma draw_with_replacement_ok {A} (d : A) (a : list A) (size : nat) (w : world label) :
  a <> [] ->
  exists l w', draw_with_replacement d a size w = (inr l, w') /\
               warned w' = warned w /\ length l = size /\
               Forall (fun x => In x a) l.
Proof.
  intros Ha. revert w. induction size as [| size IH]; intros w.
  - exists [], w. repeat split; auto.
  - cbn [draw_with_replacement].
    destruct (randint_ok (length a) w) as (i & w1 & E1 & W1 & Hi).
    assert (Hlen : 0 < length a) by (destruct a; cbn; [congruence | lia]).
    specialize (Hi Hlen).
    rewrite (bind_ok _ _ _ _ _ E1).
    destruct (IH w1) as (l & w2 & E2 & W2 & Hl & Hin).
    rewrite (bind_ok _ _ _ _ _ E2).
    exists (nth i a d :: l), w2. repeat split.
    + congruence.
    + cbn. lia.
    + constructor; [now apply nth_In | assumption].
Qed.

Lemma choice_replace_ok {A} (a : list A) (size : nat) (w : world label) :
  a <> [] ->
  exists l w', choice a size true w = (inr l, w') /\
               warned w' = warned w /\ length l = size /\
               Forall (fun x => In x a) l.
Proof.
  intros Ha. unfold choice. destruct a as [| d a']; [congruence |].
  now apply draw_with_replacement_ok.
Qed.

Lemma choice_no_replace_ok {A} (a : list A) (size : nat) (w : world label) :
  a <> [] -> size <= length a ->
  exists l w', choice a size false w = (inr l, w') /\
               warned w' = warned w /\
               exists p, Permutation p a /\ l = firstn size p.
Proof.
  intros Ha Hs. unfold choice. destruct a as [| d a']; [congruence |].
  set (a := d :: a') in *.
  destruct (Nat.ltb_spec (length a) size) as [H | _]; [lia |].
  destruct (permutation_ok a w) as (p & w' & E & W & Hp).
  rewrite (bind_ok _ _ _ _ _ E).
  exists (firstn size p), w'. repeat split; auto. now exists p.
Qed.

(** [iloc] is a pure lookup. *)
Lemma iloc_ok {A} (X : list A) (idcs : list nat) (w : world label) :
  Forall (fun i => i < length X) idcs ->
  exists rows, iloc X idcs w = (inr rows, w) /\
               Forall2 (fun i r => nth_error X i = Some r) idcs rows.
Proof.
  induction 1 as [| i idcs Hi _ IH].
  - exists []. split; [reflexivity | constructor].
  - cbn [iloc]. destruct (nth_error X i) as [r |] eqn:E.
    + destruct IH as (rows & E' & HF).
      rewrite (bind_ok _ _ _ _ _ E').
      exists (r :: rows). split; [reflexivity | now constructor].
    + apply nth_error_None in E. lia.
Qed.

Lemma iloc_fail {A} (X : list A) (idcs : list nat) (w : world label) :
  exists r, iloc X idcs w = (r, w).
Proof.
  induction idcs as [| i idcs IH]; [eexists; reflexivity |].
  cbn [iloc]. destruct (nth_error X i); [| eexists; reflexivity].
  destruct IH as ([e | rows] & E).
  - rewrite (bind_err _ _ _ _ _ E). eexists; reflexivity.
  - rewrite (bind_ok _ _ _ _ _ E). eexists; reflexivity.
Qed.

Lemma insert_sorted_perm (x : nat) (l : list nat) :
  Permutation (insert_sorted x l) (x :: l).
Proof.
  induction l as [| y l IH]; cbn; [reflexivity |].
  destruct (x <=? y); [reflexivity |].
  rewrite IH. apply perm_swap.
Qed.

Lemma sorted_perm (l : list nat) : Permutation (sorted l) l.
Proof.
  induction l as [| x l IH]; cbn; [reflexivity |].
  rewrite insert_sorted_perm. now constructor.
Qed.

Lemma insert_sorted_Sorted (x : nat) (l : list nat) :
  Sorted le l -> Sorted le (insert_sorted x l).
Proof.
  induction 1 as [| y l Hs IH Hhd]; cbn.
  - repeat constructor.
  - destruct (Nat.leb_spec x y) as [Hxy | Hxy].
    + constructor; [now constructor | now constructor].
    + constructor; [assumption |].
      destruct l as [| z l]; cbn.
      * constructor. lia.
      * destruct (Nat.leb_spec x z); constructor; [lia |].
        now inversion Hhd.
Qed.

Lemma sorted_Sorted (l : list nat) : Sorted le (sorted l).
Proof.
  induction l as [| x l IH]; cbn; [constructor |].
  now apply insert_sorted_Sorted.
Qed.

Lemma insert_sorted_least (x : nat) (l : list nat) :
  Forall (fun y => x <= y) l -> insert_sorted x l = x :: l.
Proof.
  destruct 1 as [| y l Hy _]; cbn; [reflexivity |].
  destruct (Nat.leb_spec x y); [reflexivity | lia].
Qed.

Lemma sorted_seq (s n : nat) : sorted (seq s n) = seq s n.
Proof.
  revert s. induction n as [| n IH]; intros s; [reflexivity |].
  cbn [seq sorted fold_right]. fold (sorted (seq (S s) n)). rewrite IH.
  apply insert_sorted_least, Forall_forall.
  intros y Hy. apply in_seq in Hy. lia.
Qed.

Lemma insert_count_perm leb (x : label * nat) (t : count_table label) :
  Permutation (insert_count leb x t) (x :: t).
Proof.
  induction t as [| y t IH]; cbn; [reflexivity |].
  destruct (leb (snd x) (snd y)); [reflexivity |].
  rewrite IH. apply perm_swap.
Qed.

Lemma sort_counts_perm leb (t : count_table label) :
  Permutation (sort_counts leb t) t.
Proof.
  induction t as [| x t IH]; cbn; [reflexivity |].
  rewrite insert_count_perm. now constructor.
Qed.

Lemma insert_count_Sorted (x : label * nat) (t : count_table label) :
  Sorted by_count t -> Sorted by_count (insert_count Nat.leb x t).
Proof.
  induction 1 as [| y t Hs IH Hhd]; cbn.
  - repeat constructor.
  - destruct (Nat.leb_spec (snd x) (snd y)) as [Hxy | Hxy].
    + constructor; [now constructor | now constructor].
    + constructor; [assumption |].
      destruct t as [| z t]; cbn.
      * constructor. unfold by_count. lia.
      * destruct (Nat.leb_spec (snd x) (snd z)); constructor;
          [unfold by_count; lia | now inversion Hhd].
Qed.

Lemma sort_values_Sorted (t : count_table label) :
  StronglySorted by_count (sort_values t).
Proof.
  apply Sorted_StronglySorted.
  - intros a b c. unfold by_count. lia.
  - unfold sort_values, sort_counts.
    induction t as [| x t IH]; cbn; [constructor |].
    now apply insert_count_Sorted.
Qed.

Lemma label_eqb_true (a b : label) : label_eqb label_eq_dec a b = true <-> a = b.
Proof. unfold label_eqb. destruct (label_eq_dec a b); split; congruence. Qed.

Lemma label_eqb_false (a b : label) : label_eqb label_eq_dec a b = false <-> a <> b.
Proof. unfold label_eqb. destruct (label_eq_dec a b); split; congruence. Qed.

Lemma unique_In (col : list label) (l : label) :
  In l (unique label_eq_dec col) <-> In l col.
Proof.
  induction col as [| x col IH]; cbn; [tauto |].
  rewrite filter_In, IH, negb_true_iff, label_eqb_false.
  destruct (label_eq_dec x l); intuition congruence.
Qed.

Lemma unique_NoDup (col : list label) : NoDup (unique label_eq_dec col).
Proof.
  induction col as [| x col IH]; cbn; constructor.
  - rewrite filter_In, negb_true_iff, label_eqb_false. tauto.
  - now apply NoDup_filter.
Qed.

Lemma cts_of_perm (col : list label) :
  Permutation (cts_of label_eq_dec col)
              (map (fun l => (l, count_occ label_eq_dec col l))
                   (unique label_eq_dec col)).
Proof.
  unfold cts_of, sort_values, value_counts.
  now rewrite !sort_counts_perm.
Qed.

Lemma cts_of_keys (col : list label) :
  Permutation (map fst (cts_of label_eq_dec col)) (unique label_eq_dec col).
Proof.
  rewrite cts_of_perm, map_map. cbn. now rewrite map_id.
Qed.

Lemma cts_of_keys_NoDup (col : list label) : NoDup (map fst (cts_of label_eq_dec col)).
Proof.
  eapply Permutation_NoDup; [symmetry; apply cts_of_keys | apply unique_NoDup].
Qed.

Lemma cts_of_In (col : list label) (l : label) (c : nat) :
  In (l, c) (cts_of label_eq_dec col) <-> In l col /\ c = count_occ label_eq_dec col l.
Proof.
  split.
  - intros H. apply (Permutation_in _ (cts_of_perm col)) in H.
    apply in_map_iff in H. destruct H as (l' & E & Hin).
    injection E as <- <-. now rewrite <- unique_In.
  - intros [Hin ->].
    apply (Permutation_in _ (Permutation_sym (cts_of_perm col))).
    apply in_map_iff. exists l. now rewrite unique_In.
Qed.

Lemma cts_of_length (col : list label) :
  length (cts_of label_eq_dec col) = length (unique label_eq_dec col).
Proof.
  rewrite <- (length_map fst). apply Permutation_length, cts_of_keys.
Qed.

Lemma dict_find_In (t : count_table label) (l : label) (c : nat) :
  NoDup (map fst t) -> In (l, c) t -> dict_find label_eq_dec t l = Some c.
Proof.
  induction t as [| [k c'] t IH]; cbn; [tauto |].
  intros Hnd [E | Hin].
  - injection E as -> ->. destruct (label_eq_dec l l); congruence.
  - inversion Hnd as [| ? ? Hk Hnd']; subst.
    destruct (label_eq_dec k l) as [-> | _]; [| now apply IH].
    exfalso. apply Hk. apply in_map_iff. now exists (l, c).
Qed.

Lemma dict_find_cts_of (col : list label) (l : label) :
  In l col ->
  dict_find label_eq_dec (cts_of label_eq_dec col) l = Some (count_occ label_eq_dec col l).
Proof.
  intros Hin. apply dict_find_In; [apply cts_of_keys_NoDup |].
  now apply cts_of_In.
Qed.

Lemma cts_of_key_In (col : list label) (l : label) :
  In l (map fst (cts_of label_eq_dec col)) <-> In l col.
Proof.
  split; intros H.
  - apply (Permutation_in _ (cts_of_keys col)) in H. now apply unique_In.
  - apply (Permutation_in _ (Permutation_sym (cts_of_keys col))).
    now apply unique_In.
Qed.

Lemma boolean_index_cons {A} (a : A) (l : list A) (b : bool) (m : list bool) :
  boolean_index (a :: l) (b :: m) =
  (if b then [a] else []) ++ boolean_index l m.
Proof. unfold boolean_index. cbn. now destruct b. Qed.

Lemma boolean_index_In (test : label -> bool) (col : list label) (d : label)
      (s i : nat) :
  In i (boolean_index (seq s (length col)) (map test col)) <->
  s <= i < s + length col /\ test (nth (i - s) col d) = true.
Proof.
  revert s. induction col as [| x col IH]; intros s.
  - cbn. split; [tauto | lia].
  - cbn [length seq map]. rewrite boolean_index_cons, in_app_iff, IH.
    split.
    + intros [H | (Hr & Ht)].
      * destruct (test x) eqn:Ex; cbn in H; [| tauto].
        destruct H as [<- | []]. rewrite Nat.sub_diag. cbn. split; [lia | assumption].
      * replace (i - s) with (S (i - S s)) by lia. cbn. split; [lia | assumption].
    + intros (Hr & Ht).
      destruct (Nat.eq_dec i s) as [-> | Hne].
      * left. rewrite Nat.sub_diag in Ht. cbn in Ht. rewrite Ht. now left.
      * right. replace (i - s) with (S (i - S s)) in Ht by lia. cbn in Ht.
        split; [lia | assumption].
Qed.

Lemma boolean_index_length (col : list label) (l : label) (s : nat) :
  length (boolean_index (seq s (length col))
            (map (fun t => label_eqb label_eq_dec t l) col))
  = count_occ label_eq_dec col l.
Proof.
  revert s. induction col as [| x col IH]; intros s; [reflexivity |].
  cbn [length seq map]. rewrite boolean_index_cons, length_app, IH.
  cbn [count_occ]. unfold label_eqb.
  destruct (label_eq_dec x l); reflexivity.
Qed.

Lemma unique_length_nodup (col : list label) :
  length (unique label_eq_dec col) = length (nodup label_eq_dec col).
Proof.
  apply Permutation_length, NoDup_Permutation.
  - apply unique_NoDup.
  - apply NoDup_nodup.
  - intros l. now rewrite unique_In, nodup_In.
Qed.

Lemma validate_ratio_ok (ratio : Q) (w : world label) :
  valid_ratio ratio -> _validate_ratio ratio w = (inr ratio, w).
Proof.
  intros [H0 H1]. unfold _validate_ratio.
  destruct (Qle_bool ratio 0) eqn:E0.
  - apply Qle_bool_iff in E0. exfalso. now apply (Qlt_not_le _ _ H0).
  - apply Qle_bool_iff in H1. now rewrite H1.
Qed.

Lemma validate_ratio_err (ratio : Q) (w : world label) :
  (ratio <= 0 \/ 1 < ratio)%Q -> _validate_ratio ratio w = (inl RatioError, w).
Proof.
  intros H. unfold _validate_ratio.
  destruct (Qle_bool ratio 0) eqn:E0; [reflexivity |].
  destruct (Qle_bool ratio 1) eqn:E1; [| reflexivity].
  exfalso. apply Qle_bool_iff in E1. destruct H as [H | H].
  - apply Qle_bool_iff in H. congruence.
  - now apply (Qlt_not_le _ _ H).
Qed.

Lemma validate_num_classes_eq (col : list label) (w : world label) :
  _validate_num_classes (cts_of label_eq_dec col) w =
  if 20 <? length (nodup label_eq_dec col) then (inl TooManyClasses, w)
  else if length (nodup label_eq_dec col) <? 2 then (inl TooFewClasses, w)
  else (inr (length (cts_of label_eq_dec col)), w).
Proof.
  unfold _validate_num_classes, _max_classes.
  rewrite cts_of_length, unique_length_nodup.
  destruct (20 <? _); [reflexivity |].
  destruct (_ <? 2); reflexivity.
Qed.

Lemma map_constant {A B} (f : A -> B) (c : B) (l : list A) :
  Forall (fun x => f x = c) l -> map f l = repeat c (length l).
Proof. induction 1 as [| x l Hx _ IH]; cbn; congruence. Qed.

Lemma map_nth_seq (col : list label) (d : label) :
  map (fun i => nth i col d) (seq 0 (length col)) = col.
Proof.
  induction col as [| x col IH]; [reflexivity |].
  cbn [length seq map nth]. rewrite <- seq_shift, map_map. cbn. now rewrite IH.
Qed.

Lemma dict_get_cts_of (col : list label) (l : label) (w : world label) :
  In l col ->
  dict_get label_eq_dec (cts_of label_eq_dec col) l w = (inr (count_occ label_eq_dec col l), w).
Proof. intros H. unfold dict_get. now rewrite dict_find_cts_of. Qed.

Lemma count_occ_pos (col : list label) (l : label) :
  In l col -> 0 < count_occ label_eq_dec col l.
Proof. intros H. now apply count_occ_In. Qed.

Lemma oversample_loop_ok (col : list label) (ratio : Q) (majority d : label)
      (n_required : Z) (labels : list label) (acc : list nat) (w : world label) :
  incl labels col -> In majority col ->
  exists extra w',
    oversample_loop label_eq_dec (cts_of label_eq_dec col) ratio col (seq 0 (length col))
                    majority n_required labels acc w = (inr (acc ++ extra), w') /\
    warned w' = warned w ++ singleton_warnings label_eq_dec (cts_of label_eq_dec col) majority labels /\
    Forall (fun i => i < length col) extra /\
    map (fun i => nth i col d) extra
    = drawn_labels (planned_draws label_eq_dec (cts_of label_eq_dec col) ratio majority n_required labels).
Proof.
  intros Hincl Hmaj. revert acc w.
  induction labels as [| minority rest IH]; intros acc w.
  - exists [], w. cbn. rewrite !app_nil_r. repeat split; constructor.
  - assert (Hmin : In minority col) by (apply Hincl; now left).
    specialize (IH (fun l H => Hincl l (or_intror H))).
    cbn [oversample_loop planned_draws singleton_warnings].
    destruct (label_eq_dec minority majority) as [_ | Hne].
    { exists [], w. cbn. rewrite !app_nil_r. repeat split; constructor. }
    rewrite (bind_ok _ _ _ _ _ (dict_get_cts_of col minority w Hmin)).
    rewrite !dict_find_cts_of by assumption.
    set (min_ct := count_occ label_eq_dec col minority).
    set (maj_ct := count_occ label_eq_dec col majority).
    assert (Hwarn : exists w1,
               (if min_ct =? 1 then warn (SamplingWarning minority) else ret tt) w
               = (inr tt, w1) /\
               warned w1 = warned w ++
                 (if min_ct =? 1 then [SamplingWarning minority] else []) /\
               tape w1 = tape w).
    { destruct (min_ct =? 1).
      - eexists. split; [reflexivity |]. cbn. auto.
      - exists w. split; [reflexivity |]. now rewrite app_nil_r. }
    destruct Hwarn as (w1 & E1 & W1 & _).
    rewrite (bind_ok _ _ _ _ _ E1).
    rewrite (bind_ok _ _ _ _ _ (dict_get_cts_of col majority w1 Hmaj)).
    fold maj_ct.
    assert (Hws : forall tl : list (warning label),
               (warned w ++ (if min_ct =? 1 then [SamplingWarning minority] else [])) ++ tl
               = warned w ++ match min_ct with
                             | 1 => SamplingWarning minority :: tl
                             | _ => tl
                             end).
    { intros tl. rewrite <- app_assoc. f_equal.
      destruct min_ct as [| [| ?]]; reflexivity. }
    destruct (Qle_bool ratio (Qcount min_ct / Qcount maj_ct)).
    { destruct (IH acc w1) as (extra & w' & E & W & HF & Hmap).
      exists extra, w'. rewrite E, W, W1, Hws. repeat split; assumption. }
    destruct (n_required - Z.of_nat min_ct <=? 0)%Z.
    { destruct (IH acc w1) as (extra & w' & E & W & HF & Hmap).
      exists extra, w'. rewrite E, W, W1, Hws. repeat split; assumption. }
    set (pop := boolean_index (seq 0 (length col))
                  (map (fun t => label_eqb label_eq_dec t minority) col)).
    assert (Hpop : pop <> []).
    { intros E. apply (f_equal (@length nat)) in E. unfold pop in E.
      rewrite boolean_index_length in E. cbn in E.
      pose proof (count_occ_pos col minority Hmin). lia. }
    destruct (choice_replace_ok pop (Z.to_nat (n_required - Z.of_nat min_ct)) w1 Hpop)
      as (idcs & w2 & E2 & W2 & Hlen & Hin).
    rewrite (bind_ok _ _ _ _ _ E2).
    destruct (IH (acc ++ idcs) w2) as (extra & w' & E & W & HF & Hmap).
    assert (Hidcs : Forall (fun i => i < length col /\ nth i col d = minority) idcs).
    { eapply Forall_impl; [| exact Hin]. intros i Hi. unfold pop in Hi.
      apply (boolean_index_In _ col d 0 i) in Hi. destruct Hi as (Hr & Ht).
      rewrite Nat.sub_0_r in Ht. apply label_eqb_true in Ht. split; [lia | assumption]. }
    exists (idcs ++ extra), w'. rewrite E, app_assoc, W, W2, W1, Hws.
    repeat split.
    + apply Forall_app. split; [| assumption].
      eapply Forall_impl; [| exact Hidcs]. now intros i [].
    + rewrite map_app, Hmap. unfold drawn_labels at 2. cbn [flat_map].
      f_equal. rewrite <- Hlen. apply map_constant.
      eapply Forall_impl; [| exact Hidcs]. now intros i [].
Qed.

Lemma last_item_ok {A} (l : list A) (d : A) (w : world label) :
  l <> [] -> last_item l w = (inr (last l d), w).
Proof.
  intros Hl. unfold last_item.
  destruct (exists_last Hl) as (l' & a & ->).
  now rewrite rev_unit, last_last.
Qed.

Lemma last_In {A} (l : list A) (d : A) : l <> [] -> In (last l d) l.
Proof.
  intros Hl. destruct (exists_last Hl) as (l' & a & ->).
  rewrite last_last. apply in_or_app. right. now left.
Qed.

Lemma index_nonempty (col : list label) :
  2 <= length (nodup label_eq_dec col) -> map fst (cts_of label_eq_dec col) <> [].
Proof.
  intros H E. apply (f_equal (@length label)) in E.
  rewrite length_map, cts_of_length, unique_length_nodup in E. cbn in E. lia.
Qed.

Lemma boolean_index_labels (test : label -> bool) (col : list label) (d : label)
      (s : nat) :
  map (fun i => nth (i - s) col d)
      (boolean_index (seq s (length col)) (map test col))
  = filter test col.
Proof.
  revert s. induction col as [| x col IH]; intros s; [reflexivity |].
  cbn [length seq map filter]. rewrite boolean_index_cons, map_app.
  assert (Htail :
            map (fun i => nth (i - s) (x :: col) d)
                (boolean_index (seq (S s) (length col)) (map test col))
            = filter test col).
  { rewrite <- (IH (S s)). apply map_ext_in. intros i Hi.
    apply (boolean_index_In test col d (S s) i) in Hi. destruct Hi as (Hr & _).
    replace (i - s) with (S (i - S s)) by lia. reflexivity. }
  rewrite Htail.
  destruct (test x); cbn [map app]; [| reflexivity].
  now rewrite Nat.sub_diag.
Qed.

Lemma rev_two {A} (l : list A) :
  2 <= length l -> exists a b tl, rev l = a :: b :: tl.
Proof.
  intros H. rewrite <- length_rev in H.
  destruct (rev l) as [| a [| b tl]]; cbn in H; try lia. now eexists _, _, _.
Qed.

Lemma firstn_Forall {A} (P : A -> Prop) (n : nat) (l : list A) :
  Forall P l -> Forall P (firstn n l).
Proof.
  intros H. rewrite <- (firstn_skipn n l) in H.
  now apply Forall_app in H.
Qed.

Lemma boolean_index_bound (test : label -> bool) (col : list label) :
  Forall (fun i => i < length col)
         (boolean_index (seq 0 (length col)) (map test col)).
Proof.
  apply Forall_forall. intros i Hi.
  destruct col as [| d col']; [destruct Hi |].
  apply (boolean_index_In test (d :: col') d 0 i) in Hi. lia.
Qed.

Lemma boolean_index_targets (test : label -> bool) (col : list label) (d : label) :
  map (fun i => nth i col d) (boolean_index (seq 0 (length col)) (map test col))
  = filter test col.
Proof.
  rewrite <- (boolean_index_labels test col d 0).
  apply map_ext. intros i. now rewrite Nat.sub_0_r.
Qed.

Lemma boolean_index_label (col : list label) (l d : label) :
  Forall (fun i => nth i col d = l)
         (boolean_index (seq 0 (length col))
                        (map (fun t => label_eqb label_eq_dec t l) col)).
Proof.
  apply Forall_forall. intros i Hi.
  apply (boolean_index_In _ col d 0 i) in Hi. destruct Hi as (_ & Ht).
  rewrite Nat.sub_0_r in Ht. now apply label_eqb_true in Ht.
Qed.

(** *** The least and the most frequent label *)

Lemma cts_of_entry (col : list label) (l : label) (c : nat) :
  In (l, c) (cts_of label_eq_dec col) ->
  In l col /\ c = count_occ label_eq_dec col l /\ 0 < c.
Proof.
  intros H. apply cts_of_In in H. destruct H as [Hin ->].
  repeat split; [assumption |]. now apply count_occ_pos.
Qed.

(** A label with one row heads the table, or shares the least count
    with the label that does. *)
Lemma cts_of_head_singleton (col : list label) (l : label) :
  count_occ label_eq_dec col l = 1 ->
  exists l0 t, cts_of label_eq_dec col = (l0, 1) :: t.
Proof.
  intros Hl.
  assert (Hin : In (l, 1) (cts_of label_eq_dec col)).
  { apply cts_of_In. split; [| congruence]. apply (count_occ_In label_eq_dec). lia. }
  pose proof (sort_values_Sorted (value_counts label_eq_dec col)) as Hs.
  fold (cts_of label_eq_dec col) in Hs.
  destruct (cts_of label_eq_dec col) as [| [l0 c0] t] eqn:E; [destruct Hin |].
  assert (H0 : 0 < c0).
  { apply (cts_of_entry col l0 c0). rewrite E. now left. }
  assert (H1 : c0 <= 1).
  { destruct Hin as [Hh | Ht]; [injection Hh; lia |].
    apply StronglySorted_inv in Hs. destruct Hs as [_ Hall].
    apply (proj1 (Forall_forall _ _) Hall) in Ht. exact Ht. }
  exists l0, t. do 2 f_equal. lia.
Qed.

Lemma StronglySorted_app_last (t : count_table label) (x : label * nat) :
  StronglySorted by_count (t ++ [x]) -> Forall (fun y => by_count y x) t.
Proof.
  induction t as [| y t IH]; cbn; intros H; [constructor |].
  apply StronglySorted_inv in H. destruct H as [Hs Hall].
  constructor; [| now apply IH].
  apply (proj1 (Forall_forall _ _) Hall). apply in_or_app. right. now left.
Qed.

(** The index is a list of distinct labels that ends with the majority;
    the last count of the table is the count of the majority. *)
Lemma index_split (col : list label) :
  2 <= length (nodup label_eq_dec col) ->
  exists pre majority,
    map fst (cts_of label_eq_dec col) = pre ++ [majority] /\
    pre <> [] /\ ~ In majority pre /\ NoDup pre /\ In majority col /\
    (forall l, In l pre -> In l col) /\
    last (map snd (cts_of label_eq_dec col)) 0 = count_occ label_eq_dec col majority /\
    (forall l, count_occ label_eq_dec col l <= count_occ label_eq_dec col majority).
Proof.
  intros Hn.
  pose proof (index_nonempty col Hn) as Hne.
  destruct (exists_last Hne) as (pre & majority & E).
  pose proof (cts_of_keys_NoDup col) as Hnd. rewrite E in Hnd.
  apply NoDup_remove in Hnd. rewrite app_nil_r in Hnd. destruct Hnd as [Hnd Hnotin].
  exists pre, majority. split; [assumption |].
  assert (Hmaj : In majority col).
  { apply cts_of_key_In. rewrite E. apply in_or_app. right. now left. }
  repeat split; try assumption.
  - intros ->. apply (f_equal (@length label)) in E.
    rewrite length_map, cts_of_length, unique_length_nodup in E. cbn in E. lia.
  - intros l Hl. apply cts_of_key_In. rewrite E. apply in_or_app. now left.
  - assert (Hc : cts_of label_eq_dec col <> []).
    { intros E0. rewrite E0 in Hne. now apply Hne. }
    destruct (exists_last Hc) as (t & [m c] & Et).
    rewrite Et in E |- *. rewrite map_app in E |- *. cbn [map fst snd] in E |- *.
    rewrite last_last. apply app_inj_tail in E. destruct E as [_ <-].
    apply (cts_of_entry col m c). rewrite Et. apply in_or_app. right. now left.
  - intros l.
    destruct (in_dec label_eq_dec l col) as [Hl | Hl].
    2:{ apply (count_occ_not_In label_eq_dec) in Hl. lia. }
    assert (Hc : cts_of label_eq_dec col <> []).
    { intros E0. rewrite E0 in Hne. now apply Hne. }
    destruct (exists_last Hc) as (t & [m c] & Et).
    pose proof (sort_values_Sorted (value_counts label_eq_dec col)) as Hs.
    fold (cts_of label_eq_dec col) in Hs.
    assert (Hent : In (l, count_occ label_eq_dec col l) (cts_of label_eq_dec col))
      by now apply cts_of_In.
    assert (Hlast : In (m, c) (cts_of label_eq_dec col)).
    { rewrite Et. apply in_or_app. right. now left. }
    rewrite Et in E, Hs, Hent. rewrite map_app in E. cbn [map fst] in E.
    apply app_inj_tail in E. destruct E as [_ <-].
    apply cts_of_In in Hlast. destruct Hlast as [_ <-].
    apply in_app_or in Hent. destruct Hent as [Hent | [Hent | []]].
    + apply (proj1 (Forall_forall _ _) (StronglySorted_app_last _ _ Hs)) in Hent.
      exact Hent.
    + injection Hent as -> E2. lia.
Qed.

Lemma singleton_warnings_In (cts : count_table label) (majority l : label)
      (pre post : list label) :
  ~ In majority pre -> In l pre -> dict_find label_eq_dec cts l = Some 1 ->
  In (SamplingWarning l) (singleton_warnings label_eq_dec cts majority (pre ++ post)).
Proof.
  induction pre as [| m pre IH]; intros Hmaj Hl Hfind; [destruct Hl |].
  cbn [app singleton_warnings].
  destruct (label_eq_dec m majority) as [-> | _]; [exfalso; apply Hmaj; now left |].
  assert (IH' : l <> m ->
                In (SamplingWarning l)
                   (singleton_warnings label_eq_dec cts majority (pre ++ post))).
  { intros Hne. apply IH; try assumption.
    - intros H. apply Hmaj. now right.
    - destruct Hl; congruence. }
  destruct (label_eq_dec l m) as [-> | Hne].
  - rewrite Hfind. now left.
  - destruct (dict_find label_eq_dec cts m) as [[| [| c]] |]; auto. right. auto.
Qed.

(** *** The order of the rows does not matter when the counts differ *)

Lemma filter_Permutation {A} (f : A -> bool) (l l' : list A) :
  Permutation l l' -> Permutation (filter f l) (filter f l').
Proof.
  induction 1 as [| x l l' _ IH | x y l | l l' l'' _ IH1 _ IH2]; cbn.
  - constructor.
  - destruct (f x); [now constructor | assumption].
  - destruct (f x), (f y); try reflexivity. apply perm_swap.
  - now transitivity (filter f l').
Qed.

Lemma same_count_same_entry (t : count_table label) (a b : label * nat) :
  NoDup (map snd t) -> In a t -> In b t -> snd a = snd b -> a = b.
Proof.
  induction t as [| x t IH]; cbn [map In]; intros Hnd Ha Hb E; [destruct Ha |].
  inversion Hnd as [| ? ? Hx Hnd']; subst.
  destruct Ha as [-> | Ha], Hb as [-> | Hb]; auto.
  - exfalso. apply Hx. rewrite E. now apply in_map.
  - exfalso. apply Hx. rewrite <- E. now apply in_map.
Qed.

Lemma sorted_counts_unique (t1 t2 : count_table label) :
  StronglySorted by_count t1 -> StronglySorted by_count t2 ->
  Permutation t1 t2 -> NoDup (map snd t1) -> t1 = t2.
Proof.
  revert t2. induction t1 as [| a t1 IH]; intros t2 H1 H2 Hp Hnd.
  - apply Permutation_nil in Hp. now subst.
  - destruct t2 as [| b t2].
    { symmetry in Hp. apply Permutation_nil in Hp. discriminate. }
    assert (Hb : In b (a :: t1)).
    { apply (Permutation_in _ (Permutation_sym Hp)). now left. }
    assert (Ha : In a (b :: t2)).
    { apply (Permutation_in _ Hp). now left. }
    apply StronglySorted_inv in H1, H2.
    destruct H1 as [S1 F1], H2 as [S2 F2].
    assert (E : a = b).
    { apply (same_count_same_entry (a :: t1)); [assumption | now left | assumption |].
      apply Nat.le_antisymm.
      - destruct Hb as [<- | Hb]; [lia |].
        apply (proj1 (Forall_forall _ _) F1) in Hb. exact Hb.
      - destruct Ha as [<- | Ha]; [lia |].
        apply (proj1 (Forall_forall _ _) F2) in Ha. exact Ha. }
    subst b. f_equal. apply IH; try assumption.
    + now apply Permutation_cons_inv in Hp.
    + now inversion Hnd.
Qed.

Lemma count_occ_Permutation (col col' : list label) (l : label) :
  Permutation col col' ->
  count_occ label_eq_dec col l = count_occ label_eq_dec col' l.
Proof. intros H. now apply (Permutation_count_occ label_eq_dec). Qed.

Lemma cts_of_Permutation (col col' : list label) :
  Permutation col col' -> NoDup (map snd (cts_of label_eq_dec col')) ->
  cts_of label_eq_dec col = cts_of label_eq_dec col'.
Proof.
  intros Hp Hnd.
  assert (Hperm : Permutation (cts_of label_eq_dec col) (cts_of label_eq_dec col')).
  { rewrite !cts_of_perm.
    rewrite (map_ext (fun l => (l, count_occ label_eq_dec col l))
                     (fun l => (l, count_occ label_eq_dec col' l)))
      by (intros l; f_equal; now apply count_occ_Permutation).
    apply Permutation_map, NoDup_Permutation; try apply unique_NoDup.
    intros l. rewrite !unique_In. split; apply Permutation_in; [| symmetry]; assumption. }
  apply sorted_counts_unique; try apply sort_values_Sorted; [assumption |].
  eapply Permutation_NoDup; [| exact Hnd].
  apply Permutation_map. now symmetry.
Qed.

Lemma balanced_labels_Permutation (cls : partitioner_class) (col col' : list label)
      (ratio : Q) :
  Permutation col col' -> NoDup (map snd (cts_of label_eq_dec col')) ->
  Permutation (balanced_labels label_eq_dec cls col ratio)
              (balanced_labels label_eq_dec cls col' ratio).
Proof.
  intros Hp Hnd. pose proof (cts_of_Permutation col col' Hp Hnd) as Hcts.
  assert (Hc : forall l, count_occ label_eq_dec col l = count_occ label_eq_dec col' l)
    by (intros l; now apply count_occ_Permutation).
  destruct cls; cbn [balanced_labels].
  - apply Permutation_app; [assumption |].
    unfold oversample_plan, needs_balancing_of, n_required_of. rewrite Hcts.
    destruct (negb _); [| reflexivity].
    destruct (rev _) as [| majority tl]; [reflexivity |].
    now rewrite Hc.
  - unfold undersample_labels, needs_balancing_of. rewrite Hcts.
    destruct (negb _); [| assumption].
    destruct (rev _) as [| majority [| next_most tl]]; try assumption.
    rewrite !Hc.
    destruct (_ <=? _)%Z; [assumption |].
    apply Permutation_app; [| reflexivity].
    now apply filter_Permutation.
Qed.

Lemma distinct_count_of_table (col : list label) :
  length (nodup label_eq_dec col) = length (cts_of label_eq_dec col).
Proof. now rewrite cts_of_length, unique_length_nodup. Qed.

(** *** Frames and the two partitioners *)

Variable feat : Type.

Lemma reset_index_from (s : nat) (X : DataFrame label feat) :
  map target
      (map (fun '(i, r) => {| index := i; features := features r; target := target r |})
           (combine (seq s (length X)) X)) = map target X /\
  map features
      (map (fun '(i, r) => {| index := i; features := features r; target := target r |})
           (combine (seq s (length X)) X)) = map features X.
Proof.
  revert s. induction X as [| r X IH]; intros s; [split; reflexivity |].
  cbn. destruct (IH (S s)) as [-> ->]. split; reflexivity.
Qed.

Lemma reset_index_target (X : DataFrame label feat) :
  map target (reset_index X) = map target X.
Proof. apply reset_index_from. Qed.

Lemma reset_index_features (X : DataFrame label feat) :
  map features (reset_index X) = map features X.
Proof. apply reset_index_from. Qed.

Lemma reset_index_length (X : DataFrame label feat) :
  length (reset_index X) = length X.
Proof.
  rewrite <- (length_map target), reset_index_target. apply length_map.
Qed.

Lemma validate_x_y_ratio_ok (X : DataFrame label feat) (ratio : Q) (w : world label) :
  valid_ratio ratio -> 2 <= distinct_labels label_eq_dec X <= 20 ->
  _validate_x_y_ratio label_eq_dec X ratio w = (inr (validated_of label_eq_dec X ratio), w).
Proof.
  intros Hr [H2 H20]. unfold _validate_x_y_ratio.
  rewrite (bind_ok _ _ _ _ _ (validate_ratio_ok ratio w Hr)).
  fold (cts_of label_eq_dec (map target X)).
  unfold bind. rewrite validate_num_classes_eq.
  fold (distinct_labels label_eq_dec X).
  destruct (Nat.ltb_spec 20 (distinct_labels label_eq_dec X)); [lia |].
  destruct (Nat.ltb_spec (distinct_labels label_eq_dec X) 2); [lia |].
  reflexivity.
Qed.

Lemma validate_x_y_ratio_inv (X : DataFrame label feat) (ratio : Q)
      (w w' : world label) (v : validated label) :
  _validate_x_y_ratio label_eq_dec X ratio w = (inr v, w') ->
  valid_ratio ratio /\ 2 <= distinct_labels label_eq_dec X <= 20 /\
  v = validated_of label_eq_dec X ratio /\ w' = w.
Proof.
  intros E.
  assert (Hr : valid_ratio ratio).
  { destruct (Qlt_le_dec 0 ratio) as [H0 | H0];
      [destruct (Qlt_le_dec 1 ratio) as [H1 | H1] |].
    - unfold _validate_x_y_ratio in E.
      rewrite (bind_err _ _ _ _ _ (validate_ratio_err ratio w (or_intror H1))) in E.
      discriminate.
    - now split.
    - unfold _validate_x_y_ratio in E.
      rewrite (bind_err _ _ _ _ _ (validate_ratio_err ratio w (or_introl H0))) in E.
      discriminate. }
  split; [assumption |].
  unfold _validate_x_y_ratio in E.
  rewrite (bind_ok _ _ _ _ _ (validate_ratio_ok ratio w Hr)) in E.
  fold (cts_of label_eq_dec (map target X)) in E.
  unfold bind in E. rewrite validate_num_classes_eq in E.
  fold (distinct_labels label_eq_dec X) in E.
  destruct (Nat.ltb_spec 20 (distinct_labels label_eq_dec X)); [discriminate |].
  destruct (Nat.ltb_spec (distinct_labels label_eq_dec X) 2); [discriminate |].
  injection E as <- <-. repeat split; lia.
Qed.

Lemma distinct_labels_reset (X : DataFrame label feat) :
  distinct_labels label_eq_dec (reset_index X) = distinct_labels label_eq_dec X.
Proof. unfold distinct_labels. now rewrite reset_index_target. Qed.

Lemma iloc_targets (X : DataFrame label feat) (idcs : list nat) (d : label)
      (w : world label) :
  Forall (fun i => i < length X) idcs ->
  exists rows, iloc X idcs w = (inr rows, w) /\
               map target rows = map (fun i => nth i (map target X) d) idcs.
Proof.
  intros H. destruct (iloc_ok X idcs w H) as (rows & E & HF).
  exists rows. split; [assumption |].
  clear H E.
  induction HF as [| i r idcs rows Hir _ IH]; [reflexivity |].
  cbn. rewrite IH. f_equal.
  symmetry. apply nth_error_nth. now apply map_nth_error.
Qed.

Lemma partitioner_init_ok (X : DataFrame label feat) (ratio : Q) (w : world label) :
  valid_ratio ratio -> 2 <= distinct_labels label_eq_dec X <= 20 ->
  partitioner_init label_eq_dec X ratio w = (inr (partitioner_of label_eq_dec X ratio), w).
Proof.
  intros Hr Hn. unfold partitioner_init.
  now rewrite (bind_ok _ _ _ _ _ (validate_x_y_ratio_ok X ratio w Hr Hn)).
Qed.

Lemma partitioner_init_inv (X : DataFrame label feat) (ratio : Q)
      (w w' : world label) (p : partitioner label feat) :
  partitioner_init label_eq_dec X ratio w = (inr p, w') ->
  valid_ratio ratio /\ 2 <= distinct_labels label_eq_dec X <= 20 /\
  p = partitioner_of label_eq_dec X ratio /\ w' = w.
Proof.
  unfold partitioner_init, bind.
  destruct (_validate_x_y_ratio label_eq_dec X ratio w) as [[e | v] w1] eqn:E;
    [discriminate |].
  apply validate_x_y_ratio_inv in E. destruct E as (Hr & Hn & -> & ->).
  intros H. injection H as <- <-. auto.
Qed.

Lemma Oversampling_indices_ok (X : DataFrame label feat) (ratio : Q) (d : label)
      (w : world label) :
  2 <= distinct_labels label_eq_dec X ->
  exists base w1,
    Forall (fun i => i < length X) base /\
    Permutation (map (fun i => nth i (map target X) d) base)
                (map target X ++ drawn_labels (oversample_plan label_eq_dec (map target X) ratio)) /\
    warned w1 = warned w ++ oversample_warnings label_eq_dec (map target X) ratio /\
    Oversampling_get_sample_indices label_eq_dec (partitioner_of label_eq_dec X ratio) false w
    = (inr (sorted base), w1) /\
    exists out w2,
      Oversampling_get_sample_indices label_eq_dec (partitioner_of label_eq_dec X ratio) true w
      = (inr out, w2) /\
      Permutation out base /\ warned w2 = warned w1.
Proof.
  intros Hn. set (col := map target X).
  assert (Hlen : length col = length X) by apply length_map.
  unfold Oversampling_get_sample_indices, oversample_plan, oversample_warnings.
  cbn [partitioner_of p_needs_balancing p_X p_cts p_ratio p_index p_target_col
       validated_of v_cts v_index v_target v_needs_balancing].
  fold col. fold (needs_balancing_of label_eq_dec col ratio).
  destruct (needs_balancing_of label_eq_dec col ratio); cbn [negb].
  - (* balancing *)
    pose proof (index_nonempty col Hn) as Hne.
    rewrite (bind_ok _ _ _ _ _ (last_item_ok _ d w Hne)).
    set (majority := last (map fst (cts_of label_eq_dec col)) d).
    assert (Hrev : exists tl, rev (map fst (cts_of label_eq_dec col)) = majority :: tl).
    { destruct (exists_last Hne) as (l' & a & E). unfold majority. rewrite E.
      rewrite rev_unit, last_last. now eexists. }
    destruct Hrev as (tl & ->).
    assert (Hmaj : In majority col).
    { apply cts_of_key_In. now apply last_In. }
    rewrite (bind_ok _ _ _ _ _ (dict_get_cts_of col majority w Hmaj)).
    fold (n_required_of label_eq_dec col ratio majority).
    destruct (oversample_loop_ok col ratio majority d
                (n_required_of label_eq_dec col ratio majority) (map fst (cts_of label_eq_dec col)) [] w)
      as (extra & w1 & E & W & HF & Hmap).
    { intros l Hl. now apply cts_of_key_In. }
    { assumption. }
    cbn [app] in E. rewrite <- Hlen.
    exists (seq 0 (length col) ++ extra), w1.
    split; [| split; [| split; [| split]]].
    + apply Forall_app. split; [| exact HF].
      apply Forall_forall. intros i Hi. apply in_seq in Hi. lia.
    + rewrite map_app, Hmap, map_nth_seq. reflexivity.
    + assumption.
    + now rewrite (bind_ok _ _ _ _ _ E).
    + rewrite (bind_ok _ _ _ _ _ (last_item_ok _ d w Hne)). fold majority.
      rewrite (bind_ok _ _ _ _ _ (dict_get_cts_of col majority w Hmaj)).
      fold (n_required_of label_eq_dec col ratio majority).
      rewrite (bind_ok _ _ _ _ _ E).
      destruct (permutation_ok (seq 0 (length col) ++ extra) w1) as (p & w2 & E2 & W2 & Hp).
      exists p, w2. auto.
  - (* the frame is balanced enough *)
    unfold _default_indices. cbn [negb]. rewrite <- Hlen.
    exists (seq 0 (length col)), w. unfold drawn_labels. cbn [flat_map].
    rewrite !app_nil_r.
    split; [| split; [| split; [| split]]].
    + apply Forall_forall. intros i Hi. apply in_seq in Hi. lia.
    + now rewrite map_nth_seq.
    + reflexivity.
    + unfold ret. now rewrite sorted_seq.
    + destruct (permutation_ok (seq 0 (length col)) w) as (p & w2 & E2 & W2 & Hp).
      exists p, w2. auto.
Qed.

Lemma Undersampling_indices_ok (X : DataFrame label feat) (ratio : Q) (d : label)
      (w : world label) :
  2 <= distinct_labels label_eq_dec X ->
  exists base w1,
    Forall (fun i => i < length X) base /\
    Permutation (map (fun i => nth i (map target X) d) base)
                (undersample_labels label_eq_dec (map target X) ratio) /\
    warned w1 = warned w /\
    Undersampling_get_sample_indices label_eq_dec (partitioner_of label_eq_dec X ratio) false w
    = (inr (sorted base), w1) /\
    exists out w2,
      Undersampling_get_sample_indices label_eq_dec (partitioner_of label_eq_dec X ratio) true w
      = (inr out, w2) /\
      Permutation out base /\ warned w2 = warned w1.
Proof.
  intros Hn. set (col := map target X).
  assert (Hlen : length col = length X) by apply length_map.
  assert (Hseq : Forall (fun i => i < length col) (seq 0 (length col))).
  { apply Forall_forall. intros i Hi. apply in_seq in Hi. lia. }
  rewrite <- Hlen.
  unfold undersample_labels.
  destruct (needs_balancing_of label_eq_dec col ratio) eqn:Hnb.
  - pose proof (index_nonempty col Hn) as Hne.
    destruct (rev_two (map fst (cts_of label_eq_dec col))) as (majority & next_most & tl & Hrev).
    { now rewrite length_map, cts_of_length, unique_length_nodup. }
    assert (Hmaj : In majority col).
    { apply cts_of_key_In, in_rev. rewrite Hrev. now left. }
    assert (Hnext : In next_most col).
    { apply cts_of_key_In, in_rev. rewrite Hrev. right. now left. }
    rewrite Hrev.
    set (n_required :=
           py_int ((1 / ratio) * Qcount (count_occ label_eq_dec col next_most))%Q).
    set (maj_ct := count_occ label_eq_dec col majority).
    set (pop := boolean_index (seq 0 (length col))
                  (map (fun t => label_eqb label_eq_dec t majority) col)).
    set (minorities := boolean_index (seq 0 (length col))
                  (map (fun t => negb (label_eqb label_eq_dec t majority)) col)).
    assert (Hprefix : forall (b : bool) (w0 : world label),
               Undersampling_get_sample_indices label_eq_dec (partitioner_of label_eq_dec X ratio) b w0
               = if (Z.of_nat maj_ct <=? n_required)%Z
                 then (inr (sorted (seq 0 (length col))), w0)
                 else bind (choice pop (Z.to_nat n_required) false)
                           (fun idcs =>
                              if negb b then ret (sorted (minorities ++ idcs))
                              else permutation (minorities ++ idcs)) w0).
    { intros b w0. unfold Undersampling_get_sample_indices.
      cbn [partitioner_of p_needs_balancing p_X p_cts p_ratio p_index p_target_col
           validated_of v_cts v_index v_target v_needs_balancing].
      fold col. fold (needs_balancing_of label_eq_dec col ratio). rewrite <- Hlen, Hnb.
      cbn [negb].
      assert (Hlast : last_item (label := label) (map fst (cts_of label_eq_dec col)) w0
                      = (inr majority, w0)).
      { unfold last_item. now rewrite Hrev. }
      assert (Hsecond : second_last_item (label := label) (map fst (cts_of label_eq_dec col)) w0
                        = (inr next_most, w0)).
      { unfold second_last_item. now rewrite Hrev. }
      rewrite (bind_ok _ _ _ _ _ Hlast), (bind_ok _ _ _ _ _ Hsecond).
      rewrite (bind_ok _ _ _ _ _ (dict_get_cts_of col next_most w0 Hnext)).
      rewrite (bind_ok _ _ _ _ _ (dict_get_cts_of col majority w0 Hmaj)).
      fold maj_ct n_required.
      destruct (Z.of_nat maj_ct <=? n_required)%Z; reflexivity. }
    rewrite !Hprefix.
    destruct (Z.leb_spec (Z.of_nat maj_ct) n_required) as [Hle | Hgt].
    + exists (seq 0 (length col)), w.
      split; [| split; [| split; [| split]]]; try reflexivity.
      * assumption.
      * now rewrite map_nth_seq.
      * exists (sorted (seq 0 (length col))), w.
        repeat split. apply sorted_perm.
    + assert (Hpoplen : length pop = maj_ct) by apply boolean_index_length.
      assert (Hpop : pop <> []).
      { intros E. rewrite E in Hpoplen. cbn in Hpoplen.
        pose proof (count_occ_pos col majority Hmaj). fold maj_ct in H. lia. }
      destruct (choice_no_replace_ok pop (Z.to_nat n_required) w Hpop)
        as (idcs & w1 & E & W & p & Hp & Hidcs); [lia |].
      assert (Hin : Forall (fun i => i < length col /\ nth i col d = majority) idcs).
      { subst idcs. apply firstn_Forall.
        eapply Permutation_Forall; [symmetry; exact Hp |].
        apply Forall_and; [apply boolean_index_bound | apply boolean_index_label]. }
      assert (Hk : length idcs = Z.to_nat n_required).
      { subst idcs. rewrite length_firstn, (Permutation_length Hp). lia. }
      exists (minorities ++ idcs), w1.
      split; [| split; [| split; [| split]]].
      * apply Forall_app. split; [apply boolean_index_bound |].
        eapply Forall_impl; [| exact Hin]. now intros i [].
      * rewrite map_app. unfold minorities. rewrite boolean_index_targets.
        rewrite <- Hk, (map_constant _ majority); [reflexivity |].
        eapply Forall_impl; [| exact Hin]. now intros i [].
      * assumption.
      * now rewrite (bind_ok _ _ _ _ _ E).
      * rewrite (bind_ok _ _ _ _ _ E). cbn [negb].
        destruct (permutation_ok (minorities ++ idcs) w1) as (q & w2 & E2 & W2 & Hq).
        exists q, w2. auto.
  - assert (Hdef : forall b w0,
               Undersampling_get_sample_indices label_eq_dec (partitioner_of label_eq_dec X ratio) b w0
               = _default_indices (length col) b w0).
    { intros b w0. unfold Undersampling_get_sample_indices.
      cbn [partitioner_of p_needs_balancing p_X p_cts p_ratio p_index p_target_col
           validated_of v_cts v_index v_target v_needs_balancing].
      fold col. fold (needs_balancing_of label_eq_dec col ratio). now rewrite <- Hlen, Hnb. }
    rewrite !Hdef. unfold _default_indices. cbn [negb].
    exists (seq 0 (length col)), w.
    split; [| split; [| split; [| split]]].
    + assumption.
    + now rewrite map_nth_seq.
    + reflexivity.
    + unfold ret. now rewrite sorted_seq.
    + destruct (permutation_ok (seq 0 (length col)) w) as (p & w2 & E2 & W2 & Hp).
      exists p, w2. auto.
Qed.

Lemma two_labels_inhabited (X : DataFrame label feat) :
  2 <= distinct_labels label_eq_dec X -> exists d : label, In d (map target X).
Proof.
  unfold distinct_labels. destruct (map target X) as [| d col].
  - cbn. lia.
  - intros _. exists d. now left.
Qed.

Lemma get_indices_ok (cls : partitioner_class) (X : DataFrame label feat)
      (ratio : Q) (d : label) (w : world label) :
  2 <= distinct_labels label_eq_dec X ->
  exists base w1,
    Forall (fun i => i < length X) base /\
    Permutation (map (fun i => nth i (map target X) d) base)
                (match cls with
                 | _OversamplingBalancePartitioner =>
                     map target X ++ drawn_labels (oversample_plan label_eq_dec (map target X) ratio)
                 | _UndersamplingBalancePartitioner =>
                     undersample_labels label_eq_dec (map target X) ratio
                 end) /\
    warned w1 = warned w ++
                (match cls with
                 | _OversamplingBalancePartitioner =>
                     oversample_warnings label_eq_dec (map target X) ratio
                 | _UndersamplingBalancePartitioner => []
                 end) /\
    get_indices label_eq_dec cls (partitioner_of label_eq_dec X ratio) false w
    = (inr (sorted base), w1) /\
    exists out w2,
      get_indices label_eq_dec cls (partitioner_of label_eq_dec X ratio) true w = (inr out, w2) /\
      Permutation out base /\ warned w2 = warned w1.
Proof.
  intros Hn. destruct cls; cbn [get_indices].
  - apply Oversampling_indices_ok; assumption.
  - destruct (Undersampling_indices_ok X ratio d w Hn)
      as (base & w1 & H1 & H2 & H3 & H4 & H5).
    exists base, w1. rewrite app_nil_r. auto.
Qed.

(** C9: for every input that passes validation, and for either
    partitioner (the identity path included), the list of row positions
    returned without shuffling is sorted ascending, and the list returned
    with shuffling, from the same state of the generator, is a
    permutation of it. *)
Theorem get_indices_sorted_or_permuted (cls : partitioner_class)
        (X : DataFrame label feat) (ratio : Q) (p : partitioner label feat)
        (w : world label) :
  partitioner_init label_eq_dec X ratio w = (inr p, w) ->
  exists out w1,
    get_indices label_eq_dec cls p false w = (inr out, w1) /\
    Sorted le out /\
    exists out' w2,
      get_indices label_eq_dec cls p true w = (inr out', w2) /\
      Permutation out' out.
Proof.
  intros Hp. apply partitioner_init_inv in Hp.
  destruct Hp as (_ & [Hn _] & -> & _).
  destruct (two_labels_inhabited X Hn) as (d & _).
  destruct (get_indices_ok cls X ratio d w Hn)
    as (base & w1 & _ & _ & _ & E & out' & w2 & E' & Hperm & _).
  exists (sorted base), w1. split; [assumption |].
  split; [apply sorted_Sorted |].
  exists out', w2. split; [assumption |].
  rewrite Hperm. symmetry. apply sorted_perm.
Qed.

Lemma over_under_balance_ok (cls : partitioner_class) (X : DataFrame label feat)
      (ratio : Q) (shuffle : bool) (w : world label) :
  valid_ratio ratio -> 2 <= distinct_labels label_eq_dec X <= 20 ->
  exists out w',
    _over_under_balance label_eq_dec X ratio shuffle cls w = (inr out, w') /\
    Permutation (map target out) (balanced_labels label_eq_dec cls (map target X) ratio) /\
    warned w' = warned w ++ balancer_warnings label_eq_dec cls (map target X) ratio.
Proof.
  intros Hr Hn.
  assert (Hn' : 2 <= distinct_labels label_eq_dec (reset_index X) <= 20)
    by now rewrite distinct_labels_reset.
  destruct (two_labels_inhabited X (proj1 Hn)) as (d & _).
  unfold _over_under_balance, validate_is_pd.
  rewrite (bind_ok _ _ _ _ _ (partitioner_init_ok (reset_index X) ratio w Hr Hn')).
  destruct (get_indices_ok cls (reset_index X) ratio d w (proj1 Hn'))
    as (base & w1 & HF & Hlab & W & E & out' & w2 & E' & Hperm & W2).
  rewrite reset_index_target in Hlab, W.
  fold (balanced_labels label_eq_dec cls (map target X) ratio) in Hlab.
  fold (balancer_warnings label_eq_dec cls (map target X) ratio) in W.
  destruct shuffle.
  - rewrite (bind_ok _ _ _ _ _ E').
    assert (HF' : Forall (fun i => i < length (reset_index X)) out').
    { eapply Permutation_Forall; [symmetry; exact Hperm | exact HF]. }
    destruct (iloc_targets (reset_index X) out' d w2 HF') as (rows & Er & Hrows).
    rewrite (bind_ok _ _ _ _ _ Er).
    exists (reset_index rows), w2. split; [reflexivity |].
    rewrite reset_index_target, Hrows, reset_index_target.
    split; [| congruence].
    rewrite <- Hlab. now apply Permutation_map.
  - rewrite (bind_ok _ _ _ _ _ E).
    assert (HF' : Forall (fun i => i < length (reset_index X)) (sorted base)).
    { eapply Permutation_Forall; [symmetry; apply sorted_perm | exact HF]. }
    destruct (iloc_targets (reset_index X) (sorted base) d w1 HF') as (rows & Er & Hrows).
    rewrite (bind_ok _ _ _ _ _ Er).
    exists (reset_index rows), w1. split; [reflexivity |].
    rewrite reset_index_target, Hrows, reset_index_target.
    split; [| assumption].
    rewrite <- Hlab. apply Permutation_map, sorted_perm.
Qed.

(** *** The SMOTE balancer and its collaborators *)

Variable kneighbors : nat -> list feat -> option (list (list nat)).
Variable mean : list feat -> feat.

(** The first statement of the SMOTE balancer,
    [validate_is_pd(X, None, assert_all_finite=True)], names a parameter
    that [validate_is_pd(X, cols, warn=False)] does not have: the call
    raises [TypeError] for every frame and every setting of the balancer,
    before anything is validated, drawn or logged. *)
Lemma smote_balance_type_error (self : balancer) (X : DataFrame label feat)
      (w : world label) :
  SMOTEClassBalancer_balance label_eq_dec kneighbors mean self X w = (inl TypeError, w).
Proof. reflexivity. Qed.

Lemma validate_x_y_ratio_labels (X X' : DataFrame label feat) (ratio : Q)
      (w : world label) :
  map target X' = map target X ->
  _validate_x_y_ratio label_eq_dec X' ratio w = _validate_x_y_ratio label_eq_dec X ratio w.
Proof. intros H. unfold _validate_x_y_ratio. now rewrite H. Qed.

Lemma validate_x_y_ratio_pure (X : DataFrame label feat) (ratio : Q)
      (w w' : world label) (r : exn label + validated label) :
  _validate_x_y_ratio label_eq_dec X ratio w = (r, w') -> w' = w.
Proof.
  unfold _validate_x_y_ratio, bind, _validate_ratio.
  destruct (Qle_bool ratio 0 || negb (Qle_bool ratio 1)); unfold raise, ret;
    [congruence |].
  fold (cts_of label_eq_dec (map target X)). rewrite validate_num_classes_eq.
  destruct (Nat.ltb 20 _); [congruence |].
  destruct (Nat.ltb _ 2); congruence.
Qed.

(** A failure of validation is what the oversampling and the
    undersampling balancer return, and nothing was drawn or logged by
    then. *)
Lemma validation_error_propagates (e : exn label) (self : balancer)
      (X : DataFrame label feat) (w w' : world label) :
  _validate_x_y_ratio label_eq_dec X (ratio_ self) w = (inl e, w') ->
  resampling_fails_with label_eq_dec e self X w.
Proof.
  intros H. rewrite (validate_x_y_ratio_pure _ _ _ _ _ H) in H.
  assert (Hr : _validate_x_y_ratio label_eq_dec (reset_index X) (ratio_ self) w
               = (inl e, w)).
  { now rewrite (validate_x_y_ratio_labels X (reset_index X) _ w
                   (reset_index_target X)). }
  repeat split.
  - exact H.
  - unfold OversamplingClassBalancer_balance, _over_under_balance, partitioner_init,
      validate_is_pd.
    now rewrite (bind_err _ _ _ _ _ (bind_err _ _ _ _ _ Hr)).
  - unfold UndersamplingClassBalancer_balance, _over_under_balance, partitioner_init,
      validate_is_pd.
    now rewrite (bind_err _ _ _ _ _ (bind_err _ _ _ _ _ Hr)).
Qed.

(** C8 (the code departs from it in the SMOTE balancer):
    [_validate_ratio] fails with the invalid-parameter error for every
    ratio with [ratio <= 0] or [ratio > 1]; [_validate_num_classes] fails
    with the too-many-classes error whenever there are more than 20
    classes and with the too-few-classes error whenever there are fewer
    than 2; a frame is validated in this order, and whatever error
    validation reports is what the oversampling and the undersampling
    balancer return, with the generator and the warnings untouched.  The
    SMOTE balancer does not propagate these failures: on the same input
    it raises [TypeError] from its first statement, before it validates
    anything. *)
Theorem validation_failures (self : balancer) (X : DataFrame label feat)
        (cts : count_table label) (w : world label) :
  (* the two validators *)
  ((ratio_ self <= 0 \/ 1 < ratio_ self)%Q ->
   _validate_ratio (ratio_ self) w = (inl RatioError, w)) /\
  (20 < length cts -> _validate_num_classes cts w = (inl TooManyClasses, w)) /\
  (length cts < 2 -> _validate_num_classes cts w = (inl TooFewClasses, w)) /\
  (* validation of a frame, and the two resampling balancers *)
  ((ratio_ self <= 0 \/ 1 < ratio_ self)%Q ->
   resampling_fails_with label_eq_dec RatioError self X w) /\
  (valid_ratio (ratio_ self) -> 20 < distinct_labels label_eq_dec X ->
   resampling_fails_with label_eq_dec TooManyClasses self X w) /\
  (valid_ratio (ratio_ self) -> distinct_labels label_eq_dec X < 2 ->
   resampling_fails_with label_eq_dec TooFewClasses self X w) /\
  (forall e w',
      _validate_x_y_ratio label_eq_dec X (ratio_ self) w = (inl e, w') ->
      resampling_fails_with label_eq_dec e self X w) /\
  (* the SMOTE balancer *)
  SMOTEClassBalancer_balance label_eq_dec kneighbors mean self X w = (inl TypeError, w).
Proof.
  split; [| split; [| split; [| split; [| split; [| split; [| split]]]]]].
  - apply validate_ratio_err.
  - intros H. unfold _validate_num_classes, _max_classes.
    destruct (Nat.ltb_spec 20 (length cts)); [reflexivity | lia].
  - intros H. unfold _validate_num_classes, _max_classes.
    destruct (Nat.ltb_spec 20 (length cts)); [lia |].
    destruct (Nat.ltb_spec (length cts) 2); [reflexivity | lia].
  - intros Hr. apply (validation_error_propagates _ _ _ w w).
    unfold _validate_x_y_ratio.
    now rewrite (bind_err _ _ _ _ _ (validate_ratio_err _ w Hr)).
  - intros Hr Hn. apply (validation_error_propagates _ _ _ w w).
    unfold _validate_x_y_ratio.
    rewrite (bind_ok _ _ _ _ _ (validate_ratio_ok _ w Hr)).
    fold (cts_of label_eq_dec (map target X)).
    apply bind_err. rewrite validate_num_classes_eq.
    fold (distinct_labels label_eq_dec X).
    destruct (Nat.ltb_spec 20 (distinct_labels label_eq_dec X)); [reflexivity | lia].
  - intros Hr Hn. apply (validation_error_propagates _ _ _ w w).
    unfold _validate_x_y_ratio.
    rewrite (bind_ok _ _ _ _ _ (validate_ratio_ok _ w Hr)).
    fold (cts_of label_eq_dec (map target X)).
    apply bind_err. rewrite validate_num_classes_eq.
    fold (distinct_labels label_eq_dec X).
    destruct (Nat.ltb_spec 20 (distinct_labels label_eq_dec X)); [lia |].
    destruct (Nat.ltb_spec (distinct_labels label_eq_dec X) 2); [reflexivity | lia].
  - intros e w'. apply validation_error_propagates.
  - apply smote_balance_type_error.
Qed.

(** *** A class with a single row *)

Lemma bind_inv {A B} (m : M label A) (f : A -> M label B) (w w' : world label) (b : B) :
  bind m f w = (inr b, w') ->
  exists a w1, m w = (inr a, w1) /\ f a w1 = (inr b, w').
Proof.
  unfold bind. destruct (m w) as [[e | a] w1]; [discriminate |].
  intros H. now exists a, w1.
Qed.

Lemma iloc_inv {A} (X : list A) (idcs : list nat) (w w' : world label) (rows : list A) :
  iloc X idcs w = (inr rows, w') ->
  Forall2 (fun i r => nth_error X i = Some r) idcs rows.
Proof.
  revert rows w'. induction idcs as [| i idcs IH]; intros rows w'; cbn [iloc].
  - intros H. injection H as <- _. constructor.
  - destruct (nth_error X i) as [r |] eqn:E; [| discriminate].
    intros H. apply bind_inv in H. destruct H as (rest & w1 & E1 & H).
    injection H as <- _.
    constructor; [assumption | now apply (IH rest w1)].
Qed.

Lemma reset_index_In (X : DataFrame label feat) (r : row label feat) :
  In r (reset_index X) ->
  exists r0, In r0 X /\ features r = features r0 /\ target r = target r0.
Proof.
  unfold reset_index. intros H. apply in_map_iff in H.
  destruct H as ([i r0] & <- & Hin). apply in_combine_r in Hin.
  exists r0. auto.
Qed.

(** Every row of a balanced frame is a row of the input. *)
Lemma over_under_balance_rows (cls : partitioner_class) (X out : DataFrame label feat)
      (ratio : Q) (shuffle : bool) (w w' : world label) :
  _over_under_balance label_eq_dec X ratio shuffle cls w = (inr out, w') ->
  forall r, In r out ->
    exists r0, In r0 X /\ features r = features r0 /\ target r = target r0.
Proof.
  unfold _over_under_balance, validate_is_pd. intros H.
  apply bind_inv in H. destruct H as (p & w1 & _ & H).
  apply bind_inv in H. destruct H as (idcs & w2 & _ & H).
  apply bind_inv in H. destruct H as (rows & w3 & Hrows & H).
  injection H as <- _. apply iloc_inv in Hrows.
  intros r Hr. apply reset_index_In in Hr. destruct Hr as (r1 & Hr1 & Hf1 & Ht1).
  assert (Hin : In r1 (reset_index X)).
  { clear - Hrows Hr1. induction Hrows as [| i x idcs rows Hx _ IH]; [destruct Hr1 |].
    destruct Hr1 as [<- | Hr1]; [| now apply IH].
    eapply nth_error_In; eassumption. }
  apply reset_index_In in Hin. destruct Hin as (r0 & Hr0 & Hf0 & Ht0).
  exists r0. repeat split; congruence.
Qed.

Lemma single_row (X : DataFrame label feat) (l : label) (r1 r2 : row label feat) :
  count_occ label_eq_dec (map target X) l = 1 ->
  In r1 X -> In r2 X -> target r1 = l -> target r2 = l -> r1 = r2.
Proof.
  induction X as [| r X IH]; cbn [map count_occ]; [discriminate |].
  intros Hc H1 H2 T1 T2.
  destruct (label_eq_dec (target r) l) as [E | NE].
  - assert (Hnone : forall r', In r' X -> target r' <> l).
    { intros r' Hr' Ht. injection Hc as Hc.
      apply (count_occ_not_In label_eq_dec) in Hc. apply Hc.
      rewrite <- Ht. now apply in_map. }
    destruct H1 as [<- | H1]; [| exfalso; now apply (Hnone r1)].
    destruct H2 as [<- | H2]; [reflexivity | exfalso; now apply (Hnone r2)].
  - destruct H1 as [<- | H1]; [congruence |].
    destruct H2 as [<- | H2]; [congruence |].
    now apply IH.
Qed.

Lemma dict_find_index (col : list label) (l : label) :
  In l (map fst (cts_of label_eq_dec col)) ->
  dict_find label_eq_dec (cts_of label_eq_dec col) l
  = Some (count_occ label_eq_dec col l).
Proof. intros H. apply dict_find_cts_of. now apply cts_of_key_In. Qed.

(** The oversampling side: the balancer completes, the row of the class
    is kept and only ever copied, and the warning goes with every added
    row. *)
Lemma oversample_single_observation (self : balancer) (X : DataFrame label feat)
      (l : label) (w : world label) :
  valid_ratio (ratio_ self) ->
  2 <= distinct_labels label_eq_dec X <= 20 ->
  count_occ label_eq_dec (map target X) l = 1 ->
  exists out w',
    OversamplingClassBalancer_balance label_eq_dec self X w = (inr out, w') /\
    1 <= count_occ label_eq_dec (map target out) l /\
    (forall r r0, In r out -> In r0 X -> target r = l -> target r0 = l ->
                  features r = features r0) /\
    (length X < length out -> In (SamplingWarning l) (warned w')).
Proof.
  intros Hr Hn Hl. set (col := map target X) in *.
  destruct (over_under_balance_ok _OversamplingBalancePartitioner X (ratio_ self)
              (shuffle_ self) w Hr Hn) as (out & w' & E & Hperm & W).
  fold col in Hperm, W. cbn [balanced_labels balancer_warnings] in Hperm, W.
  exists out, w'.
  split; [exact E |]. split; [| split].
  - rewrite (proj1 (Permutation_count_occ label_eq_dec _ _) Hperm).
    rewrite count_occ_app. lia.
  - intros r r0 Hr' Hr0 Ht Ht0.
    destruct (over_under_balance_rows _ _ _ _ _ _ _ E r Hr') as (r1 & Hr1 & Hf & Htt).
    rewrite Hf. f_equal. apply (single_row X l); try assumption. congruence.
  - intros Hlen.
    assert (Hout : length out = length col + length (drawn_labels
                     (oversample_plan label_eq_dec col (ratio_ self)))).
    { rewrite <- (length_map target out), (Permutation_length Hperm).
      apply length_app. }
    assert (Hcol : length col = length X) by apply length_map.
    destruct (needs_balancing_of label_eq_dec col (ratio_ self)) eqn:Hnb.
    2:{ exfalso. unfold oversample_plan in Hout. rewrite Hnb in Hout.
        cbn in Hout. lia. }
    destruct (index_split col (proj1 Hn))
      as (pre & majority & Eidx & Hpre & Hnotin & Hnd & Hmaj & Hprecol & Hlastct & Hmax).
    destruct (cts_of_head_singleton col l Hl) as (l0 & t & Ects).
    (* the least count is one, so the majority has more than one row *)
    assert (Hfirst : hd 0 (map snd (cts_of label_eq_dec col)) = 1) by now rewrite Ects.
    assert (Hlow : Qle_bool (ratio_ self)
                     (Qcount 1 / Qcount (count_occ label_eq_dec col majority)) = false).
    { unfold needs_balancing_of in Hnb. rewrite Hfirst, Hlastct in Hnb.
      now apply negb_true_iff in Hnb. }
    assert (Hne : l <> majority).
    { intros ->. rewrite Hl in Hlow.
      assert (Qle_bool (ratio_ self) (Qcount 1 / Qcount 1) = true); [| congruence].
      apply Qle_bool_iff. destruct Hr as [_ Hr1]. exact Hr1. }
    assert (Hlin : In l col) by (apply (count_occ_In label_eq_dec); lia).
    assert (Hlpre : In l pre).
    { apply cts_of_key_In in Hlin. rewrite Eidx in Hlin.
      apply in_app_or in Hlin. destruct Hlin as [H | [H | []]]; [assumption | congruence]. }
    assert (Hwarn : oversample_warnings label_eq_dec col (ratio_ self)
                    = singleton_warnings label_eq_dec (cts_of label_eq_dec col) majority
                        (pre ++ [majority])).
    { unfold oversample_warnings. now rewrite Hnb, Eidx, rev_unit. }
    rewrite W, Hwarn. apply in_or_app. right.
    apply singleton_warnings_In; try assumption.
    rewrite dict_find_cts_of by assumption. now rewrite Hl.
Qed.

(** C7 (the code departs from it in the SMOTE balancer): on every valid
    input with a class [l] of exactly one row, the SMOTE balancer fails,
    but never with the single-observation error: its first statement
    raises [TypeError] before the class counts are looked at.  The
    oversampling balancer completes on the same input: it keeps the row
    of [l], every row of class [l] that it returns carries the features
    of that row, and whenever it adds rows to the frame it has recorded
    the sampling warning for [l]. *)
Theorem singleton_class_asymmetry (self : balancer) (X : DataFrame label feat)
        (l : label) (w : world label) :
  valid_ratio (ratio_ self) ->
  2 <= distinct_labels label_eq_dec X <= 20 ->
  count_occ label_eq_dec (map target X) l = 1 ->
  (SMOTEClassBalancer_balance label_eq_dec kneighbors mean self X w
   = (inl TypeError, w) /\
   forall l0 w',
     SMOTEClassBalancer_balance label_eq_dec kneighbors mean self X w
     <> (inl (OneObservation l0), w')) /\
  (exists out w',
      OversamplingClassBalancer_balance label_eq_dec self X w = (inr out, w') /\
      1 <= count_occ label_eq_dec (map target out) l /\
      (forall r r0, In r out -> In r0 X -> target r = l -> target r0 = l ->
                    features r = features r0) /\
      (length X < length out -> In (SamplingWarning l) (warned w'))).
Proof.
  intros Hr Hn Hl. split.
  - split; [apply smote_balance_type_error |].
    intros l0 w'. rewrite smote_balance_type_error. discriminate.
  - now apply oversample_single_observation.
Qed.

(** *** A frame that is balanced enough *)

Lemma iloc_seq_from {A} (pre X : list A) (w : world label) :
  iloc (pre ++ X) (seq (length pre) (length X)) w = (inr X, w).
Proof.
  revert pre. induction X as [| x X IH]; intros pre; cbn [length seq iloc].
  - reflexivity.
  - rewrite nth_error_app2, Nat.sub_diag by lia. cbn [nth_error].
    replace (pre ++ x :: X) with ((pre ++ [x]) ++ X) by (now rewrite <- app_assoc).
    replace (S (length pre)) with (length (pre ++ [x]))
      by (rewrite length_app; cbn; lia).
    now rewrite (bind_ok _ _ _ _ _ (IH (pre ++ [x]))).
Qed.

Lemma iloc_seq {A} (X : list A) (w : world label) :
  iloc X (seq 0 (length X)) w = (inr X, w).
Proof. apply (iloc_seq_from [] X). Qed.

Lemma reset_index_idem (X : DataFrame label feat) :
  reset_index (reset_index X) = reset_index X.
Proof.
  unfold reset_index at 1 3. rewrite reset_index_length.
  unfold reset_index. generalize 0.
  induction X as [| r X IH]; intros s; cbn [length seq combine map]; [reflexivity |].
  f_equal. apply IH.
Qed.

Lemma partitioner_needs_balancing (X : DataFrame label feat) (ratio : Q) :
  p_needs_balancing (partitioner_of label_eq_dec X ratio)
  = needs_balancing_of label_eq_dec (map target X) ratio.
Proof. reflexivity. Qed.

(** X14: a frame whose least frequent class already reaches the ratio
    comes back from the oversampling and from the undersampling balancer
    as it is (with a fresh index) when no shuffling is asked for; the
    generator is not consulted and no warning is issued. *)
Theorem balanced_frame_is_returned (self : balancer) (X : DataFrame label feat)
        (w : world label) :
  valid_ratio (ratio_ self) ->
  2 <= distinct_labels label_eq_dec X <= 20 ->
  needs_balancing_of label_eq_dec (map target X) (ratio_ self) = false ->
  shuffle_ self = false ->
  OversamplingClassBalancer_balance label_eq_dec self X w = (inr (reset_index X), w) /\
  UndersamplingClassBalancer_balance label_eq_dec self X w = (inr (reset_index X), w).
Proof.
  intros Hr Hn Hnb Hsh.
  assert (Hn' : 2 <= distinct_labels label_eq_dec (reset_index X) <= 20)
    by now rewrite distinct_labels_reset.
  assert (Hou : forall cls,
             _over_under_balance label_eq_dec X (ratio_ self) false cls w
             = (inr (reset_index X), w)).
  { intros cls. unfold _over_under_balance, validate_is_pd.
    rewrite (bind_ok _ _ _ _ _
               (partitioner_init_ok (reset_index X) (ratio_ self) w Hr Hn')).
    assert (Hidx : get_indices label_eq_dec cls
                     (partitioner_of label_eq_dec (reset_index X) (ratio_ self)) false w
                   = (inr (seq 0 (length (reset_index X))), w)).
    { destruct cls; cbn [get_indices];
        unfold Oversampling_get_sample_indices, Undersampling_get_sample_indices;
        rewrite partitioner_needs_balancing, reset_index_target, Hnb; reflexivity. }
    rewrite (bind_ok _ _ _ _ _ Hidx).
    rewrite (bind_ok _ _ _ _ _ (iloc_seq (reset_index X) w)).
    unfold ret. now rewrite reset_index_idem. }
  unfold OversamplingClassBalancer_balance, UndersamplingClassBalancer_balance.
  rewrite Hsh. split; apply Hou.
Qed.

(** *** Class counts after balancing *)

Lemma Qcount_self (c : nat) : 0 < c -> (Qcount c / Qcount c == 1)%Q.
Proof.
  intros Hc. apply Qmult_inv_r. unfold Qcount, inject_Z, Qeq. cbn. lia.
Qed.

Lemma py_int_ge (q : Q) (z : Z) : (inject_Z z <= q)%Q -> (z <= py_int q)%Z.
Proof.
  unfold Qle, py_int. cbn. intros H.
  apply Z.quot_le_lower_bound; lia.
Qed.

(** The loop only draws for labels that come before the majority. *)
Lemma planned_draws_labels (cts : count_table label) (ratio : Q) (majority : label)
      (n_required : Z) (labels : list label) (l : label) :
  In l (drawn_labels (planned_draws label_eq_dec cts ratio majority n_required labels)) ->
  In l labels /\ l <> majority.
Proof.
  unfold drawn_labels.
  induction labels as [| m labels IH]; cbn [planned_draws flat_map]; [intros [] |].
  destruct (label_eq_dec m majority) as [-> | Hne]; [cbn; intros [] |].
  destruct (dict_find label_eq_dec cts m) as [min_ct |]; [| cbn; intros []].
  destruct (dict_find label_eq_dec cts majority) as [maj_ct |]; [| cbn; intros []].
  assert (Hrec : In l (flat_map (fun '(l0, k) => repeat l0 k)
                         (planned_draws label_eq_dec cts ratio majority n_required labels)) ->
                 In l (m :: labels) /\ l <> majority).
  { intros H. destruct (IH H). split; [now right | assumption]. }
  destruct (Qle_bool ratio (Qcount min_ct / Qcount maj_ct)); [exact Hrec |].
  destruct (n_required - Z.of_nat min_ct <=? 0)%Z; [exact Hrec |].
  cbn [flat_map]. intros H. apply in_app_or in H. destruct H as [H | H].
  - apply repeat_spec in H. subst l. split; [now left | assumption].
  - now apply Hrec.
Qed.

(** How many rows the plan adds for a label that the loop reaches. *)
Lemma planned_draws_count (cts : count_table label) (ratio : Q) (majority l : label)
      (n_required : Z) (min_ct maj_ct : nat) (pre post : list label) :
  NoDup pre -> ~ In majority pre -> In l pre ->
  (forall m, In m pre -> dict_find label_eq_dec cts m <> None) ->
  dict_find label_eq_dec cts l = Some min_ct ->
  dict_find label_eq_dec cts majority = Some maj_ct ->
  count_occ label_eq_dec
    (drawn_labels
       (planned_draws label_eq_dec cts ratio majority n_required (pre ++ majority :: post)))
    l
  = if Qle_bool ratio (Qcount min_ct / Qcount maj_ct) then 0
    else Z.to_nat (n_required - Z.of_nat min_ct).
Proof.
  intros Hnd Hmaj Hl Hkeys Hfind Hfmaj.
  assert (Hstop : forall pre',
             ~ In l pre' -> ~ In majority pre' ->
             count_occ label_eq_dec
               (drawn_labels
                  (planned_draws label_eq_dec cts ratio majority n_required
                                 (pre' ++ majority :: post))) l = 0).
  { induction pre' as [| m pre' IH']; intros Hnl Hnm; cbn [app planned_draws].
    - destruct (label_eq_dec majority majority); [reflexivity | congruence].
    - destruct (label_eq_dec m majority) as [_ | _]; [reflexivity |].
      assert (IH'' := IH' (fun H => Hnl (or_intror H)) (fun H => Hnm (or_intror H))).
      destruct (dict_find label_eq_dec cts m); [| reflexivity].
      rewrite Hfmaj.
      destruct (Qle_bool _ _); [assumption |].
      destruct (_ <=? 0)%Z; [assumption |].
      unfold drawn_labels in *. cbn [flat_map].
      rewrite count_occ_app, IH'', count_occ_repeat_neq; [reflexivity |].
      intros ->. apply Hnl. now left. }
  induction pre as [| m pre IH]; [destruct Hl |].
  cbn [app planned_draws].
  destruct (label_eq_dec m majority) as [-> | _]; [exfalso; apply Hmaj; now left |].
  inversion Hnd as [| ? ? Hm Hnd']; subst.
  destruct (label_eq_dec l m) as [-> | Hne].
  - rewrite Hfind, Hfmaj.
    assert (Hrest := Hstop pre Hm (fun H => Hmaj (or_intror H))).
    destruct (Qle_bool _ _); [assumption |].
    destruct (Z.leb_spec (n_required - Z.of_nat min_ct) 0) as [Hle | Hgt].
    + rewrite Hrest. lia.
    + unfold drawn_labels in *. cbn [flat_map].
      rewrite count_occ_app, Hrest, count_occ_repeat_eq by reflexivity. lia.
  - assert (IH' : count_occ label_eq_dec
                    (drawn_labels
                       (planned_draws label_eq_dec cts ratio majority n_required
                                      (pre ++ majority :: post))) l
                  = if Qle_bool ratio (Qcount min_ct / Qcount maj_ct) then 0
                    else Z.to_nat (n_required - Z.of_nat min_ct)).
    { apply IH; try assumption.
      - intros H. apply Hmaj. now right.
      - destruct Hl; congruence.
      - intros m' Hm'. apply Hkeys. now right. }
    destruct (dict_find label_eq_dec cts m) eqn:Em.
    2:{ exfalso. apply (Hkeys m); [now left | assumption]. }
    rewrite Hfmaj.
    destruct (Qle_bool ratio (Qcount n / Qcount maj_ct)); [assumption |].
    destruct (_ <=? 0)%Z; [assumption |].
    unfold drawn_labels in *. cbn [flat_map].
    rewrite count_occ_app, IH', count_occ_repeat_neq; [reflexivity |].
    congruence.
Qed.

Lemma count_occ_filter_other (col : list label) (majority l : label) :
  l <> majority ->
  count_occ label_eq_dec
    (filter (fun t => negb (label_eqb label_eq_dec t majority)) col) l
  = count_occ label_eq_dec col l.
Proof.
  intros Hne. induction col as [| t col IH]; cbn [filter]; [reflexivity |].
  unfold label_eqb at 1. destruct (label_eq_dec t majority) as [-> | Ht]; cbn [negb].
  - rewrite count_occ_cons_neq by congruence. exact IH.
  - cbn [count_occ]. destruct (label_eq_dec t l); now rewrite IH.
Qed.

Lemma count_occ_filter_majority (col : list label) (majority : label) :
  count_occ label_eq_dec
    (filter (fun t => negb (label_eqb label_eq_dec t majority)) col) majority = 0.
Proof.
  apply count_occ_not_In. intros H. apply filter_In in H. destruct H as [_ H].
  apply negb_true_iff, label_eqb_false in H. congruence.
Qed.

Lemma inverse_ratio_count (ratio : Q) (c : nat) :
  valid_ratio ratio -> (Z.of_nat c <= py_int ((1 / ratio) * Qcount c))%Z.
Proof.
  intros [Hpos Hle]. apply py_int_ge. fold (Qcount c).
  rewrite <- (Qmult_1_l (Qcount c)) at 1.
  apply Qmult_le_compat_r.
  - apply Qle_shift_div_l; [assumption |]. now rewrite Qmult_1_l.
  - unfold Qcount, Qle. cbn. lia.
Qed.

(** When balancing is needed, the largest class has at least two rows. *)
Lemma needs_balancing_largest (col : list label) (ratio : Q) (majority : label) :
  valid_ratio ratio -> In majority col ->
  last (map snd (cts_of label_eq_dec col)) 0 = count_occ label_eq_dec col majority ->
  (forall l, count_occ label_eq_dec col l <= count_occ label_eq_dec col majority) ->
  needs_balancing_of label_eq_dec col ratio = true ->
  2 <= count_occ label_eq_dec col majority.
Proof.
  intros [_ Hle] Hmaj Hlast Hmax Hnb.
  pose proof (count_occ_pos col majority Hmaj) as HM.
  destruct (Nat.le_gt_cases 2 (count_occ label_eq_dec col majority)) as [| Hlt];
    [assumption | exfalso].
  assert (E1 : count_occ label_eq_dec col majority = 1) by lia.
  unfold needs_balancing_of in Hnb. apply negb_true_iff in Hnb.
  rewrite Hlast, E1 in Hnb.
  assert (E0 : hd 0 (map snd (cts_of label_eq_dec col)) = 1).
  { destruct (cts_of label_eq_dec col) as [| [l0 c0] t] eqn:E.
    - assert (Hin : In majority (map fst (cts_of label_eq_dec col)))
        by now apply cts_of_key_In.
      rewrite E in Hin. destruct Hin.
    - cbn. destruct (cts_of_entry col l0 c0) as (_ & Hc & Hpos).
      { rewrite E. now left. }
      pose proof (Hmax l0). lia. }
  rewrite E0 in Hnb.
  assert (Ht : Qle_bool ratio (Qcount 1 / Qcount 1) = true).
  { apply Qle_bool_iff. rewrite (Qcount_self 1) by lia. exact Hle. }
  congruence.
Qed.

Lemma singleton_warnings_filter (cts : count_table label) (majority : label)
      (pre post : list label) :
  ~ In majority pre ->
  singleton_warnings label_eq_dec cts majority (pre ++ majority :: post)
  = map SamplingWarning
        (filter (fun l => match dict_find label_eq_dec cts l with
                          | Some 1 => true
                          | _ => false
                          end) pre).
Proof.
  induction pre as [| m pre IH]; intros Hnotin; cbn [app singleton_warnings filter map].
  - destruct (label_eq_dec majority majority); [reflexivity | congruence].
  - destruct (label_eq_dec m majority) as [-> | _]; [exfalso; apply Hnotin; now left |].
    rewrite IH by (intros H; apply Hnotin; now right).
    destruct (dict_find label_eq_dec cts m) as [[| [| c]] |]; reflexivity.
Qed.

(** X15: oversampling succeeds and removes no row.  A class either keeps
    its count or grows, and the classes that grow all end at one common
    size; only a class that is present and smaller than the largest class
    grows, so the classes with the largest count keep theirs. *)
Theorem oversampled_class_counts (self : balancer) (X : DataFrame label feat)
        (w : world label) :
  valid_ratio (ratio_ self) ->
  2 <= distinct_labels label_eq_dec X <= 20 ->
  exists out w' n majority,
    OversamplingClassBalancer_balance label_eq_dec self X w = (inr out, w') /\
    In majority (map target X) /\
    (forall l, count_occ label_eq_dec (map target X) l
               <= count_occ label_eq_dec (map target X) majority) /\
    forall l,
      count_occ label_eq_dec (map target out) l
      = count_occ label_eq_dec (map target X) l \/
      (1 <= count_occ label_eq_dec (map target X) l
       < count_occ label_eq_dec (map target X) majority /\
       count_occ label_eq_dec (map target X) l < n /\
       count_occ label_eq_dec (map target out) l = n).
Proof.
  intros Hr Hn. set (col := map target X).
  destruct (over_under_balance_ok _OversamplingBalancePartitioner X (ratio_ self)
              (shuffle_ self) w Hr Hn) as (out & w' & E & Hperm & _).
  fold col in Hperm. cbn [balanced_labels] in Hperm.
  destruct (index_split col (proj1 Hn))
    as (pre & majority & Eidx & _ & Hnotin & Hnd & Hmaj & Hprein & _ & Hmax).
  pose proof (count_occ_pos col majority Hmaj) as HM.
  set (n_req := n_required_of label_eq_dec col (ratio_ self) majority).
  exists out, w', (Z.to_nat n_req), majority.
  split; [exact E |]. split; [exact Hmaj |]. split; [exact Hmax |].
  intros l. rewrite (count_occ_Permutation _ _ l Hperm), count_occ_app.
  unfold oversample_plan.
  destruct (needs_balancing_of label_eq_dec col (ratio_ self));
    [| left; cbn; lia].
  rewrite Eidx, rev_unit. fold n_req.
  destruct (in_dec label_eq_dec l pre) as [Hin | Hout].
  - rewrite (planned_draws_count (cts_of label_eq_dec col) (ratio_ self) majority l n_req
               (count_occ label_eq_dec col l) (count_occ label_eq_dec col majority)
               pre [] Hnd Hnotin Hin).
    + pose proof (count_occ_pos col l (Hprein l Hin)) as Hc.
      destruct (Qle_bool (ratio_ self)
                  (Qcount (count_occ label_eq_dec col l)
                   / Qcount (count_occ label_eq_dec col majority))) eqn:Hq;
        [left; lia |].
      destruct (Z.le_gt_cases n_req (Z.of_nat (count_occ label_eq_dec col l)))
        as [Hle | Hgt]; [left; lia | right].
      split; [| lia]. split; [exact Hc |].
      pose proof (Hmax l) as Hlm.
      destruct (Nat.eq_dec (count_occ label_eq_dec col l)
                  (count_occ label_eq_dec col majority)) as [Heq | Hne]; [| lia].
      exfalso. rewrite Heq in Hq.
      assert (Ht : Qle_bool (ratio_ self)
                     (Qcount (count_occ label_eq_dec col majority)
                      / Qcount (count_occ label_eq_dec col majority)) = true);
        [| congruence].
      apply Qle_bool_iff. rewrite (Qcount_self _ HM). exact (proj2 Hr).
    + intros m Hm. rewrite dict_find_cts_of by now apply Hprein. discriminate.
    + apply dict_find_cts_of. now apply Hprein.
    + now apply dict_find_cts_of.
  - left.
    match goal with
    | |- context [count_occ _ (drawn_labels ?p) l] =>
        assert (H0 : count_occ label_eq_dec (drawn_labels p) l = 0)
    end.
    { apply count_occ_not_In. intros Hin.
      apply planned_draws_labels in Hin. destruct Hin as [Hin Hne].
      apply in_app_or in Hin. destruct Hin as [Hin | [<- | []]]; contradiction. }
    lia.
Qed.

(** X16: undersampling succeeds and touches one class only, a class with
    the largest count: every other class keeps its count, and that class
    loses rows or keeps them, and keeps at least one. *)
Theorem undersampled_class_counts (self : balancer) (X : DataFrame label feat)
        (w : world label) :
  valid_ratio (ratio_ self) ->
  2 <= distinct_labels label_eq_dec X <= 20 ->
  exists out w' majority,
    UndersamplingClassBalancer_balance label_eq_dec self X w = (inr out, w') /\
    In majority (map target X) /\
    (forall l, count_occ label_eq_dec (map target X) l
               <= count_occ label_eq_dec (map target X) majority) /\
    (forall l, l <> majority ->
       count_occ label_eq_dec (map target out) l
       = count_occ label_eq_dec (map target X) l) /\
    1 <= count_occ label_eq_dec (map target out) majority
      <= count_occ label_eq_dec (map target X) majority.
Proof.
  intros Hr Hn. set (col := map target X). set (ratio := ratio_ self).
  destruct (over_under_balance_ok _UndersamplingBalancePartitioner X ratio
              (shuffle_ self) w Hr Hn) as (out & w' & E & Hperm & _).
  cbn [balanced_labels] in Hperm. fold col in Hperm.
  destruct (index_split col (proj1 Hn))
    as (pre & majority & Eidx & Hpre & _ & _ & Hmaj & Hprein & _ & Hmax).
  pose proof (count_occ_pos col majority Hmaj) as HM.
  destruct (exists_last Hpre) as (pre' & next_most & Epre).
  assert (Hrev : rev (map fst (cts_of label_eq_dec col))
                 = majority :: next_most :: rev pre').
  { rewrite Eidx, Epre, rev_unit, rev_unit. reflexivity. }
  assert (Hnext : 0 < count_occ label_eq_dec col next_most).
  { apply count_occ_pos, Hprein. rewrite Epre. apply in_or_app. right. now left. }
  exists out, w', majority.
  split; [exact E |]. split; [exact Hmaj |]. split; [exact Hmax |].
  unfold undersample_labels in Hperm. rewrite Hrev in Hperm.
  pose proof (inverse_ratio_count ratio (count_occ label_eq_dec col next_most) Hr) as Hinv.
  set (n := py_int ((1 / ratio) * Qcount (count_occ label_eq_dec col next_most))) in *.
  destruct (needs_balancing_of label_eq_dec col ratio).
  - destruct (Z.leb_spec (Z.of_nat (count_occ label_eq_dec col majority)) n) as [Hle | Hgt].
    + split.
      * intros l _. now apply count_occ_Permutation.
      * rewrite (count_occ_Permutation _ _ majority Hperm). lia.
    + split.
      * intros l Hl. rewrite (count_occ_Permutation _ _ l Hperm).
        rewrite count_occ_app, count_occ_filter_other by assumption.
        rewrite count_occ_repeat_neq by congruence. lia.
      * rewrite (count_occ_Permutation _ _ majority Hperm).
        rewrite count_occ_app, count_occ_filter_majority.
        rewrite count_occ_repeat_eq by reflexivity. lia.
  - split.
    + intros l _. now apply count_occ_Permutation.
    + rewrite (count_occ_Permutation _ _ majority Hperm). lia.
Qed.

(** *** The warnings of the balancers *)

(** X23: undersampling never warns.  Oversampling warns only about
    classes that have exactly one row, at most once about each; and when
    it adds rows to the frame it has warned about every such class. *)
Theorem balancer_warnings_issued (self : balancer) (X : DataFrame label feat)
        (w : world label) :
  valid_ratio (ratio_ self) ->
  2 <= distinct_labels label_eq_dec X <= 20 ->
  (exists out w' singles,
      OversamplingClassBalancer_balance label_eq_dec self X w = (inr out, w') /\
      warned w' = warned w ++ map SamplingWarning singles /\
      NoDup singles /\
      (forall l, In l singles -> count_occ label_eq_dec (map target X) l = 1) /\
      (length X < length out ->
       forall l, count_occ label_eq_dec (map target X) l = 1 -> In l singles)) /\
  (exists out w',
      UndersamplingClassBalancer_balance label_eq_dec self X w = (inr out, w') /\
      warned w' = warned w).
Proof.
  intros Hr Hn. set (col := map target X). set (ratio := ratio_ self). split.
  - destruct (over_under_balance_ok _OversamplingBalancePartitioner X ratio
                (shuffle_ self) w Hr Hn) as (out & w' & E & Hperm & W).
    cbn [balancer_warnings balanced_labels] in W, Hperm. fold col in W, Hperm.
    assert (Hlen : length out
                   = length X + length (drawn_labels (oversample_plan label_eq_dec col ratio))).
    { rewrite <- (length_map target out), (Permutation_length Hperm), length_app.
      unfold col. now rewrite length_map. }
    unfold oversample_warnings in W. unfold oversample_plan in Hlen.
    destruct (needs_balancing_of label_eq_dec col ratio) eqn:Hnb.
    + destruct (index_split col (proj1 Hn))
        as (pre & majority & Eidx & _ & Hnotin & Hnd & Hmaj & Hprein & Hlast & Hmax).
      rewrite Eidx, rev_unit in W.
      rewrite (singleton_warnings_filter _ majority pre [] Hnotin) in W.
      pose proof (needs_balancing_largest col ratio majority Hr Hmaj Hlast Hmax Hnb)
        as HM.
      eexists out, w', _. split; [exact E |]. split; [exact W |].
      split; [now apply NoDup_filter |]. split.
      * intros l Hl. apply filter_In in Hl. destruct Hl as [Hin Ht].
        rewrite dict_find_cts_of in Ht by now apply Hprein.
        destruct (count_occ label_eq_dec col l) as [| [| c]]; try discriminate.
        reflexivity.
      * intros _ l Hc. apply filter_In.
        assert (Hl : In l col).
        { apply (count_occ_In label_eq_dec). lia. }
        assert (Hin : In l pre).
        { apply cts_of_key_In in Hl. rewrite Eidx in Hl.
          apply in_app_or in Hl. destruct Hl as [Hl | [<- | []]]; [assumption | lia]. }
        split; [assumption |].
        rewrite dict_find_cts_of by assumption. now rewrite Hc.
    + exists out, w', []. split; [exact E |]. split; [exact W |].
      split; [constructor |]. split; [intros l [] |].
      cbn in Hlen. intros Hlt. lia.
  - destruct (over_under_balance_ok _UndersamplingBalancePartitioner X ratio
                (shuffle_ self) w Hr Hn) as (out & w' & E & _ & W).
    cbn [balancer_warnings] in W. rewrite app_nil_r in W.
    now exists out, w'.
Qed.

(** *** The rows of a balanced frame *)

Lemma map_payload_reset_from (s : nat) (X : DataFrame label feat) :
  map payload
      (map (fun '(i, r) => {| index := i; features := features r; target := target r |})
           (combine (seq s (length X)) X)) = map payload X.
Proof.
  revert s. induction X as [| r X IH]; intros s; cbn [length seq combine map];
    [reflexivity |].
  now rewrite IH.
Qed.

Lemma map_payload_reset (X : DataFrame label feat) :
  map payload (reset_index X) = map payload X.
Proof. apply map_payload_reset_from. Qed.

Lemma reset_index_indices_from (s : nat) (X : DataFrame label feat) :
  map index
      (map (fun '(i, r) => {| index := i; features := features r; target := target r |})
           (combine (seq s (length X)) X)) = seq s (length X).
Proof.
  revert s. induction X as [| r X IH]; intros s; cbn [length seq combine map];
    [reflexivity |].
  now rewrite IH.
Qed.

Lemma reset_index_indices (X : DataFrame label feat) :
  map index (reset_index X) = seq 0 (length (reset_index X)).
Proof. rewrite reset_index_length. apply reset_index_indices_from. Qed.

Lemma map_nth_seq_from {A} (d : A) (pre L : list A) :
  map (fun i => nth i (pre ++ L) d) (seq (length pre) (length L)) = L.
Proof.
  revert pre. induction L as [| x L IH]; intros pre; cbn [length seq map];
    [reflexivity |].
  rewrite app_nth2, Nat.sub_diag by lia. cbn [nth]. f_equal.
  replace (pre ++ x :: L) with ((pre ++ [x]) ++ L) by (now rewrite <- app_assoc).
  replace (S (length pre)) with (length (pre ++ [x]))
    by (rewrite length_app; cbn; lia).
  apply IH.
Qed.

Lemma map_nth_seq_all {A} (d : A) (L : list A) :
  map (fun i => nth i L d) (seq 0 (length L)) = L.
Proof. apply (map_nth_seq_from d [] L). Qed.

(** [X.iloc[idcs]] with positions inside the frame. *)
Lemma iloc_nth {A} (d : A) (X : list A) (idcs : list nat) (w : world label) :
  Forall (fun i => i < length X) idcs ->
  iloc X idcs w = (inr (map (fun i => nth i X d) idcs), w).
Proof.
  induction 1 as [| i idcs Hi _ IH]; cbn [iloc map]; [reflexivity |].
  rewrite (nth_error_nth' X d Hi). now rewrite (bind_ok _ _ _ _ _ IH).
Qed.

Lemma sorted_of_Sorted (l : list nat) : StronglySorted le l -> sorted l = l.
Proof.
  induction 1 as [| x l _ IH Hx]; [reflexivity |].
  unfold sorted in *. cbn [fold_right]. rewrite IH.
  now apply insert_sorted_least.
Qed.

Lemma sorted_StronglySorted (l : list nat) : StronglySorted le (sorted l).
Proof.
  apply Sorted_StronglySorted; [intros x y z; apply Nat.le_trans | apply sorted_Sorted].
Qed.

Lemma sorted_idem (l : list nat) : sorted (sorted l) = sorted l.
Proof. apply sorted_of_Sorted, sorted_StronglySorted. Qed.

Lemma StronglySorted_NoDup_lt (l : list nat) :
  StronglySorted le l -> NoDup l -> StronglySorted lt l.
Proof.
  induction 1 as [| x l Hs IH Hx]; intros Hnd; [constructor |].
  inversion Hnd as [| ? ? Hnotin Hnd']; subst.
  constructor; [now apply IH |].
  apply Forall_forall. intros y Hy.
  pose proof (proj1 (Forall_forall _ _) Hx y Hy).
  assert (x <> y) by (intros ->; contradiction). lia.
Qed.

Lemma subsequence_nil_l {A} (L : list A) : subsequence [] L.
Proof. induction L; constructor; assumption. Qed.

(** Rows taken at strictly increasing positions form a subsequence. *)
Lemma subsequence_nth {A} (d : A) (L : list A) (s : nat) (idcs : list nat) :
  StronglySorted lt idcs ->
  Forall (fun i => s <= i < s + length L) idcs ->
  subsequence (map (fun i => nth (i - s) L d) idcs) L.
Proof.
  revert s idcs. induction L as [| x L IH]; intros s idcs Hs Hb.
  - destruct idcs as [| i idcs]; [constructor |].
    inversion Hb; subst. cbn in *. lia.
  - destruct idcs as [| i idcs]; [apply subsequence_nil_l |].
    inversion Hs as [| ? ? Hs' Hlt]; subst.
    inversion Hb as [| ? ? Hi Hb']; subst. cbn [length] in *.
    assert (Hrest : Forall (fun j => S s <= j < S s + length L) idcs).
    { apply Forall_forall. intros j Hj.
      pose proof (proj1 (Forall_forall _ _) Hlt j Hj).
      pose proof (proj1 (Forall_forall _ _) Hb' j Hj). cbn beta in *. lia. }
    assert (Hshift : forall l : list nat,
               Forall (fun j => S s <= j) l ->
               map (fun j => nth (j - s) (x :: L) d) l
               = map (fun j => nth (j - S s) L d) l).
    { intros l Hl. apply map_ext_Forall. eapply Forall_impl; [| exact Hl].
      cbn beta. intros j Hj. replace (j - s) with (S (j - S s)) by lia. reflexivity. }
    destruct (Nat.eq_dec i s) as [-> | Hne].
    + cbn [map]. rewrite Nat.sub_diag. cbn [nth].
      rewrite Hshift by (eapply Forall_impl; [| exact Hrest]; cbn; intros; lia).
      apply subsequence_take. now apply IH.
    + rewrite Hshift.
      * apply subsequence_skip. apply IH; [assumption |].
        constructor; [lia | assumption].
      * constructor; [lia |].
        eapply Forall_impl; [| exact Hrest]. cbn. intros; lia.
Qed.

Lemma boolean_index_NoDup (test : label -> bool) (col : list label) (s : nat) :
  NoDup (boolean_index (seq s (length col)) (map test col)).
Proof.
  revert s. induction col as [| t col IH]; intros s; cbn [length seq map].
  - constructor.
  - rewrite boolean_index_cons. destruct (test t); cbn [app]; [| apply IH].
    constructor; [| apply IH].
    intros Hin. apply (boolean_index_In test col t (S s) s) in Hin. lia.
Qed.

Lemma firstn_NoDup {A} (n : nat) (l : list A) : NoDup l -> NoDup (firstn n l).
Proof.
  intros H. rewrite <- (firstn_skipn n l) in H. now apply NoDup_app_remove_r in H.
Qed.

(** The positions that the oversampling partitioner returns: every row
    of the frame once, and further positions of the frame. *)
Lemma Oversampling_indices_shape (X : DataFrame label feat) (ratio : Q)
      (shuffle : bool) (w : world label) :
  2 <= distinct_labels label_eq_dec X ->
  exists idcs w' extra,
    Oversampling_get_sample_indices label_eq_dec (partitioner_of label_eq_dec X ratio)
                                    shuffle w = (inr idcs, w') /\
    Forall (fun i => i < length X) extra /\
    Permutation idcs (seq 0 (length X) ++ extra).
Proof.
  intros Hn. set (col := map target X).
  assert (Hlen : length col = length X) by apply length_map.
  destruct (two_labels_inhabited X Hn) as (d & _).
  unfold Oversampling_get_sample_indices.
  rewrite partitioner_needs_balancing. fold col.
  cbn [partitioner_of p_X p_cts p_ratio p_index p_target_col
       validated_of v_cts v_index v_target].
  fold col.
  destruct (needs_balancing_of label_eq_dec col ratio); cbn [negb].
  - pose proof (index_nonempty col Hn) as Hne.
    rewrite (bind_ok _ _ _ _ _ (last_item_ok _ d w Hne)).
    set (majority := last (map fst (cts_of label_eq_dec col)) d).
    assert (Hmaj : In majority col).
    { apply cts_of_key_In. now apply last_In. }
    rewrite (bind_ok _ _ _ _ _ (dict_get_cts_of col majority w Hmaj)).
    fold (n_required_of label_eq_dec col ratio majority).
    destruct (oversample_loop_ok col ratio majority d
                (n_required_of label_eq_dec col ratio majority)
                (map fst (cts_of label_eq_dec col)) [] w)
      as (extra & w1 & E & _ & HF & _).
    { intros l Hl. now apply cts_of_key_In. }
    { assumption. }
    cbn [app] in E. rewrite <- Hlen.
    rewrite (bind_ok _ _ _ _ _ E).
    destruct shuffle; cbn [negb].
    + destruct (permutation_ok (seq 0 (length col) ++ extra) w1) as (p & w2 & E2 & _ & Hp).
      exists p, w2, extra. auto.
    + exists (sorted (seq 0 (length col) ++ extra)), w1, extra.
      split; [reflexivity |]. split; [assumption | apply sorted_perm].
  - unfold _default_indices.
    destruct shuffle; cbn [negb].
    + destruct (permutation_ok (seq 0 (length X)) w) as (p & w2 & E2 & _ & Hp).
      exists p, w2, []. rewrite app_nil_r. auto.
    + exists (seq 0 (length X)), w, []. rewrite app_nil_r. auto.
Qed.

(** The positions that the undersampling partitioner returns are
    distinct, and ascending when no shuffling is asked for. *)
Lemma Undersampling_indices_shape (X : DataFrame label feat) (ratio : Q)
      (shuffle : bool) (w : world label) :
  2 <= distinct_labels label_eq_dec X ->
  exists idcs w',
    Undersampling_get_sample_indices label_eq_dec (partitioner_of label_eq_dec X ratio)
                                     shuffle w = (inr idcs, w') /\
    Forall (fun i => i < length X) idcs /\
    NoDup idcs /\
    (shuffle = false -> sorted idcs = idcs).
Proof.
  intros Hn. set (col := map target X).
  assert (Hlen : length col = length X) by apply length_map.
  assert (Hseq : Forall (fun i => i < length X) (seq 0 (length X))).
  { apply Forall_forall. intros i Hi. apply in_seq in Hi. lia. }
  destruct (two_labels_inhabited X Hn) as (d & _).
  assert (Hdefault : exists idcs w',
             _default_indices (length X) shuffle w = (inr idcs, w') /\
             Forall (fun i => i < length X) idcs /\ NoDup idcs /\
             (shuffle = false -> sorted idcs = idcs)).
  { unfold _default_indices. destruct shuffle; cbn [negb].
    - destruct (permutation_ok (seq 0 (length X)) w) as (p & w2 & E2 & _ & Hp).
      exists p, w2. split; [assumption |]. split; [| split; [| discriminate]].
      + eapply Permutation_Forall; [symmetry; exact Hp | exact Hseq].
      + eapply Permutation_NoDup; [symmetry; exact Hp | apply seq_NoDup].
    - exists (seq 0 (length X)), w. split; [reflexivity |].
      split; [assumption |]. split; [apply seq_NoDup |]. intros _. apply sorted_seq. }
  unfold Undersampling_get_sample_indices.
  rewrite partitioner_needs_balancing. fold col.
  cbn [partitioner_of p_X p_cts p_ratio p_index p_target_col
       validated_of v_cts v_index v_target].
  fold col.
  destruct (needs_balancing_of label_eq_dec col ratio); cbn [negb]; [| exact Hdefault].
  destruct (rev_two (map fst (cts_of label_eq_dec col)))
    as (majority & next_most & tl & Hrev).
  { now rewrite length_map, cts_of_length, unique_length_nodup. }
  assert (Hmaj : In majority col).
  { apply cts_of_key_In, in_rev. rewrite Hrev. now left. }
  assert (Hnext : In next_most col).
  { apply cts_of_key_In, in_rev. rewrite Hrev. right. now left. }
  assert (Hlast : last_item (label := label) (map fst (cts_of label_eq_dec col)) w
                  = (inr majority, w)).
  { unfold last_item. now rewrite Hrev. }
  assert (Hsecond : second_last_item (label := label) (map fst (cts_of label_eq_dec col)) w
                    = (inr next_most, w)).
  { unfold second_last_item. now rewrite Hrev. }
  rewrite (bind_ok _ _ _ _ _ Hlast), (bind_ok _ _ _ _ _ Hsecond).
  rewrite (bind_ok _ _ _ _ _ (dict_get_cts_of col next_most w Hnext)).
  rewrite (bind_ok _ _ _ _ _ (dict_get_cts_of col majority w Hmaj)).
  rewrite <- Hlen.
  set (n_required :=
         py_int ((1 / ratio) * Qcount (count_occ label_eq_dec col next_most))%Q).
  set (maj_ct := count_occ label_eq_dec col majority).
  set (pop := boolean_index (seq 0 (length col))
                (map (fun t => label_eqb label_eq_dec t majority) col)).
  set (minorities := boolean_index (seq 0 (length col))
                (map (fun t => negb (label_eqb label_eq_dec t majority)) col)).
  destruct (Z.leb_spec (Z.of_nat maj_ct) n_required) as [Hle | Hgt].
  - exists (sorted (seq 0 (length col))), w. rewrite sorted_seq.
    split; [reflexivity |]. split; [rewrite Hlen; assumption |].
    split; [apply seq_NoDup |]. intros _. apply sorted_seq.
  - assert (Hpoplen : length pop = maj_ct) by apply boolean_index_length.
    assert (Hpop : pop <> []).
    { intros E. rewrite E in Hpoplen. cbn in Hpoplen.
      pose proof (count_occ_pos col majority Hmaj). fold maj_ct in H. lia. }
    destruct (choice_no_replace_ok pop (Z.to_nat n_required) w Hpop)
      as (idcs & w1 & E & _ & p & Hp & Hidcs); [lia |].
    rewrite (bind_ok _ _ _ _ _ E).
    assert (Hin : Forall (fun i => In i pop) idcs).
    { subst idcs. apply firstn_Forall.
      apply Forall_forall. intros i Hi. eapply Permutation_in; eassumption. }
    assert (Hall : Forall (fun i => i < length col) (minorities ++ idcs)).
    { apply Forall_app. split; [apply boolean_index_bound |].
      eapply Forall_impl; [| exact Hin]. cbn beta. intros i Hi.
      apply (proj1 (Forall_forall _ _) (boolean_index_bound _ col)) in Hi. exact Hi. }
    assert (Hnd : NoDup (minorities ++ idcs)).
    { apply NoDup_app.
      - apply boolean_index_NoDup.
      - subst idcs. apply firstn_NoDup.
        eapply Permutation_NoDup; [symmetry; exact Hp | apply boolean_index_NoDup].
      - intros i Hi1 Hi2.
        apply (proj1 (Forall_forall _ _) Hin) in Hi2.
        apply (boolean_index_In _ col d 0 i) in Hi1.
        apply (boolean_index_In _ col d 0 i) in Hi2.
        destruct Hi1 as [_ H1], Hi2 as [_ H2].
        rewrite H2 in H1. discriminate. }
    destruct shuffle; cbn [negb].
    + destruct (permutation_ok (minorities ++ idcs) w1) as (q & w2 & E2 & _ & Hq).
      exists q, w2. split; [assumption |]. split; [| split; [| discriminate]].
      * eapply Permutation_Forall; [symmetry; exact Hq | exact Hall].
      * eapply Permutation_NoDup; [symmetry; exact Hq | exact Hnd].
    + exists (sorted (minorities ++ idcs)), w1. split; [reflexivity |].
      split; [| split].
      * eapply Permutation_Forall; [symmetry; apply sorted_perm | exact Hall].
      * eapply Permutation_NoDup; [symmetry; apply sorted_perm | exact Hnd].
      * intros _. apply sorted_idem.
Qed.

Lemma frame_nonempty (X : DataFrame label feat) :
  2 <= distinct_labels label_eq_dec X -> exists r : row label feat, In r X.
Proof.
  unfold distinct_labels. destruct X as [| r X]; cbn; [lia |].
  intros _. exists r. now left.
Qed.

(** X17: oversampling keeps every row of the input and adds copies of
    rows of the input, whatever the generator does; the result is indexed
    [0 .. n-1]. *)
Theorem oversampling_adds_copies (self : balancer) (X : DataFrame label feat)
        (w : world label) :
  valid_ratio (ratio_ self) ->
  2 <= distinct_labels label_eq_dec X <= 20 ->
  exists out w' extra,
    OversamplingClassBalancer_balance label_eq_dec self X w = (inr out, w') /\
    Permutation (map payload out) (map payload X ++ extra) /\
    incl extra (map payload X) /\
    map index out = seq 0 (length out).
Proof.
  intros Hr Hn.
  assert (Hn' : 2 <= distinct_labels label_eq_dec (reset_index X) <= 20)
    by now rewrite distinct_labels_reset.
  destruct (frame_nonempty (reset_index X) (proj1 Hn')) as (d & _).
  unfold OversamplingClassBalancer_balance, _over_under_balance, validate_is_pd.
  rewrite (bind_ok _ _ _ _ _
             (partitioner_init_ok (reset_index X) (ratio_ self) w Hr Hn')).
  cbn [get_indices].
  destruct (Oversampling_indices_shape (reset_index X) (ratio_ self) (shuffle_ self) w
              (proj1 Hn')) as (idcs & w' & extra & E & HF & Hperm).
  rewrite (bind_ok _ _ _ _ _ E).
  assert (Hall : Forall (fun i => i < length (reset_index X)) idcs).
  { eapply Permutation_Forall; [symmetry; exact Hperm |].
    apply Forall_app. split; [| exact HF].
    apply Forall_forall. intros i Hi. apply in_seq in Hi. lia. }
  rewrite (bind_ok _ _ _ _ _ (iloc_nth d (reset_index X) idcs w' Hall)).
  exists (reset_index (map (fun i => nth i (reset_index X) d) idcs)), w',
         (map (fun i => payload (nth i (reset_index X) d)) extra).
  split; [reflexivity |]. split; [| split].
  - rewrite map_payload_reset, map_map.
    rewrite (Permutation_map (fun i => payload (nth i (reset_index X) d)) Hperm).
    rewrite map_app. apply Permutation_app_tail.
    rewrite <- (map_map (fun i => nth i (reset_index X) d) payload).
    rewrite map_nth_seq_all. now rewrite map_payload_reset.
  - intros p Hp. apply in_map_iff in Hp. destruct Hp as (i & <- & Hi).
    rewrite <- map_payload_reset. apply in_map, nth_In.
    exact (proj1 (Forall_forall _ _) HF i Hi).
  - apply reset_index_indices.
Qed.

(** X18: undersampling only drops rows: the rows of the result are
    distinct rows of the input, in their original order unless shuffling
    is asked for; the result is indexed [0 .. n-1]. *)
Theorem undersampling_drops_rows (self : balancer) (X : DataFrame label feat)
        (w : world label) :
  valid_ratio (ratio_ self) ->
  2 <= distinct_labels label_eq_dec X <= 20 ->
  exists out w' kept,
    UndersamplingClassBalancer_balance label_eq_dec self X w = (inr out, w') /\
    subsequence kept (map payload X) /\
    Permutation (map payload out) kept /\
    (shuffle_ self = false -> map payload out = kept) /\
    map index out = seq 0 (length out).
Proof.
  intros Hr Hn.
  assert (Hn' : 2 <= distinct_labels label_eq_dec (reset_index X) <= 20)
    by now rewrite distinct_labels_reset.
  destruct (frame_nonempty (reset_index X) (proj1 Hn')) as (d & _).
  unfold UndersamplingClassBalancer_balance, _over_under_balance, validate_is_pd.
  rewrite (bind_ok _ _ _ _ _
             (partitioner_init_ok (reset_index X) (ratio_ self) w Hr Hn')).
  cbn [get_indices].
  destruct (Undersampling_indices_shape (reset_index X) (ratio_ self) (shuffle_ self) w
              (proj1 Hn')) as (idcs & w' & E & HF & Hnd & Hsorted).
  rewrite (bind_ok _ _ _ _ _ E).
  rewrite (bind_ok _ _ _ _ _ (iloc_nth d (reset_index X) idcs w' HF)).
  set (row_at := fun i => payload (nth i (reset_index X) d)).
  exists (reset_index (map (fun i => nth i (reset_index X) d) idcs)), w',
         (map row_at (sorted idcs)).
  split; [reflexivity |].
  assert (Hout : map payload
                   (reset_index (map (fun i => nth i (reset_index X) d) idcs))
                 = map row_at idcs).
  { now rewrite map_payload_reset, map_map. }
  split; [| split; [| split]].
  - rewrite <- (map_payload_reset X).
    assert (Hs : StronglySorted lt (sorted idcs)).
    { apply StronglySorted_NoDup_lt; [apply sorted_StronglySorted |].
      eapply Permutation_NoDup; [symmetry; apply sorted_perm | exact Hnd]. }
    assert (Hb : Forall (fun i => 0 <= i < 0 + length (map payload (reset_index X)))
                        (sorted idcs)).
    { eapply Permutation_Forall; [symmetry; apply sorted_perm |].
      eapply Forall_impl; [| exact HF]. cbn beta. intros i Hi.
      rewrite length_map. lia. }
    pose proof (subsequence_nth (payload d) _ 0 (sorted idcs) Hs Hb) as Hsub.
    erewrite map_ext in Hsub; [exact Hsub |].
    intros i. cbn beta. unfold row_at. rewrite Nat.sub_0_r. apply map_nth.
  - rewrite Hout. apply Permutation_map. symmetry. apply sorted_perm.
  - intros Hsh. rewrite Hout. now rewrite (Hsorted Hsh).
  - apply reset_index_indices.
Qed.

End Balancing.

(** ** The two documented scenarios *)

Lemma oversample_input_counts_differ :
  NoDup (map snd (cts_of Nat.eq_dec oversample_input)).
Proof.
  vm_compute. repeat constructor; cbn; intuition discriminate.
Qed.

Lemma undersample_input_counts_differ :
  NoDup (map snd (cts_of Nat.eq_dec undersample_input)).
Proof.
  vm_compute. repeat constructor; cbn; intuition discriminate.
Qed.

(** C5: on a frame whose label column holds, in any order, 100 rows of
    class 0, 30 of class 1 and 25 of class 2, oversampling with ratio 0.5
    returns, for every state of the generator and with or without
    shuffling, a frame with 100 rows of class 0, 50 of class 1 and 50 of
    class 2. *)
Theorem oversample_scenario (feat : Type) (X : DataFrame nat feat)
        (shuffle : bool) (k : nat) (w : world nat) :
  Permutation (map target X) oversample_input ->
  exists out w',
    OversamplingClassBalancer_balance Nat.eq_dec
      {| ratio_ := (1 # 2)%Q; shuffle_ := shuffle; k_ := k |} X w = (inr out, w') /\
    class_count out 0 = 100 /\ class_count out 1 = 50 /\ class_count out 2 = 50.
Proof.
  intros HX. unfold OversamplingClassBalancer_balance. cbn [ratio_ shuffle_].
  pose proof oversample_input_counts_differ as Hnd.
  destruct (over_under_balance_ok nat Nat.eq_dec feat _OversamplingBalancePartitioner
              X (1 # 2)%Q shuffle w) as (out & w' & E & Hperm & _).
  - split; [reflexivity | discriminate].
  - unfold distinct_labels.
    rewrite distinct_count_of_table, (cts_of_Permutation _ _ _ _ HX Hnd).
    vm_compute. lia.
  - exists out, w'. split; [exact E |].
    unfold class_count.
    pose proof (balanced_labels_Permutation nat Nat.eq_dec _OversamplingBalancePartitioner _ _ (1 # 2)%Q HX Hnd)
      as Hbal.
    pose proof (proj1 (Permutation_count_occ Nat.eq_dec _ _)
                  (Permutation_trans Hperm Hbal)) as Hc.
    rewrite !Hc. vm_compute. auto.
Qed.

Lemma oversample_scenario_witness :
  exists out w',
    OversamplingClassBalancer_balance Nat.eq_dec
      {| ratio_ := (1 # 2)%Q; shuffle_ := true; k_ := 3 |}
      (frame_of_labels oversample_input)
      world0 = (inr out, w') /\
    class_count out 0 = 100 /\ class_count out 1 = 50 /\ class_count out 2 = 50.
Proof.
  apply (oversample_scenario unit). reflexivity.
Defined.

(** C6: on a frame whose label column holds, in any order, 150 rows of
    class 0, 30 of class 1 and 10 of class 2, undersampling with ratio 0.5
    returns, for every state of the generator and with or without
    shuffling, a frame with 60 rows of class 0, 30 of class 1 and 10 of
    class 2. *)
Theorem undersample_scenario (feat : Type) (X : DataFrame nat feat)
        (shuffle : bool) (k : nat) (w : world nat) :
  Permutation (map target X) undersample_input ->
  exists out w',
    UndersamplingClassBalancer_balance Nat.eq_dec
      {| ratio_ := (1 # 2)%Q; shuffle_ := shuffle; k_ := k |} X w = (inr out, w') /\
    class_count out 0 = 60 /\ class_count out 1 = 30 /\ class_count out 2 = 10.
Proof.
  intros HX. unfold UndersamplingClassBalancer_balance. cbn [ratio_ shuffle_].
  pose proof undersample_input_counts_differ as Hnd.
  destruct (over_under_balance_ok nat Nat.eq_dec feat _UndersamplingBalancePartitioner
              X (1 # 2)%Q shuffle w) as (out & w' & E & Hperm & _).
  - split; [reflexivity | discriminate].
  - unfold distinct_labels.
    rewrite distinct_count_of_table, (cts_of_Permutation _ _ _ _ HX Hnd).
    vm_compute. lia.
  - exists out, w'. split; [exact E |].
    unfold class_count.
    pose proof (balanced_labels_Permutation nat Nat.eq_dec _UndersamplingBalancePartitioner _ _ (1 # 2)%Q HX Hnd)
      as Hbal.
    pose proof (proj1 (Permutation_count_occ Nat.eq_dec _ _)
                  (Permutation_trans Hperm Hbal)) as Hc.
    rewrite !Hc. vm_compute. auto.
Qed.

Lemma undersample_scenario_witness :
  exists out w',
    UndersamplingClassBalancer_balance Nat.eq_dec
      {| ratio_ := (1 # 2)%Q; shuffle_ := true; k_ := 3 |}
      (frame_of_labels undersample_input)
      world0 = (inr out, w') /\
    class_count out 0 = 60 /\ class_count out 1 = 30 /\ class_count out 2 = 10.
Proof.
  apply (undersample_scenario unit). reflexivity.
Defined.

(** ** SMOTE on a small sample *)


(** ** The theorems at concrete inputs *)

Lemma validation_failures_witness :
  _validate_ratio (ratio_ balancer_two) world0 = (inl RatioError, world0) /\
  _validate_num_classes (map (fun l => (l, 1)) (seq 0 21)) world0
  = (inl TooManyClasses, world0) /\
  _validate_num_classes [(0, 3)] world0 = (inl TooFewClasses, world0) /\
  resampling_fails_with Nat.eq_dec RatioError balancer_two
                        (frame_of_labels [0; 0; 1]) world0 /\
  resampling_fails_with Nat.eq_dec TooManyClasses balancer_half
                        (frame_of_labels (seq 0 21)) world0 /\
  resampling_fails_with Nat.eq_dec TooFewClasses balancer_half
                        (frame_of_labels [0; 0; 0]) world0 /\
  SMOTEClassBalancer_balance Nat.eq_dec neighbors0 mean0 balancer_two
    (frame_of_labels [0; 0; 1]) world0 = (inl TypeError, world0).
Proof.
  split; [| split; [| split; [| split; [| split; [| split]]]]].
  - apply (validation_failures nat Nat.eq_dec unit neighbors0 mean0 balancer_two
             (frame_of_labels [0; 0; 1]) [] world0).
    right. reflexivity.
  - apply (validation_failures nat Nat.eq_dec unit neighbors0 mean0 balancer_two
             (frame_of_labels [0; 0; 1]) (map (fun l => (l, 1)) (seq 0 21)) world0).
    vm_compute. lia.
  - apply (validation_failures nat Nat.eq_dec unit neighbors0 mean0 balancer_two
             (frame_of_labels [0; 0; 1]) [(0, 3)] world0).
    vm_compute. lia.
  - apply (validation_failures nat Nat.eq_dec unit neighbors0 mean0 balancer_two
             (frame_of_labels [0; 0; 1]) [] world0).
    right. reflexivity.
  - apply (validation_failures nat Nat.eq_dec unit neighbors0 mean0 balancer_half
             (frame_of_labels (seq 0 21)) [] world0).
    + split; [reflexivity | discriminate].
    + vm_compute. lia.
  - apply (validation_failures nat Nat.eq_dec unit neighbors0 mean0 balancer_half
             (frame_of_labels [0; 0; 0]) [] world0).
    + split; [reflexivity | discriminate].
    + vm_compute. lia.
  - apply (validation_failures nat Nat.eq_dec unit neighbors0 mean0 balancer_two
             (frame_of_labels [0; 0; 1]) [] world0).
Defined.

Lemma get_indices_sorted_or_permuted_witness :
  exists out w1,
    get_indices Nat.eq_dec _OversamplingBalancePartitioner
      (partitioner_of Nat.eq_dec (frame_of_labels [0; 0; 0; 0; 1]) (1 # 2)%Q) false world0
    = (inr out, w1) /\
    Sorted le out /\
    exists out' w2,
      get_indices Nat.eq_dec _OversamplingBalancePartitioner
        (partitioner_of Nat.eq_dec (frame_of_labels [0; 0; 0; 0; 1]) (1 # 2)%Q) true world0
      = (inr out', w2) /\
      Permutation out' out.
Proof.
  apply (get_indices_sorted_or_permuted nat Nat.eq_dec unit
           _OversamplingBalancePartitioner (frame_of_labels [0; 0; 0; 0; 1]) (1 # 2)%Q).
  vm_compute. reflexivity.
Defined.

Lemma singleton_class_asymmetry_witness :
  (SMOTEClassBalancer_balance Nat.eq_dec neighbors0 mean0 balancer_half
     (frame_of_labels (repeat 0 10 ++ [1])) world0
   = (inl TypeError, world0) /\
   forall l0 w',
     SMOTEClassBalancer_balance Nat.eq_dec neighbors0 mean0 balancer_half
       (frame_of_labels (repeat 0 10 ++ [1])) world0
     <> (inl (OneObservation l0), w')) /\
  (exists out w',
      OversamplingClassBalancer_balance Nat.eq_dec balancer_half
        (frame_of_labels (repeat 0 10 ++ [1])) world0 = (inr out, w') /\
      1 <= count_occ Nat.eq_dec (map target out) 1 /\
      (forall r r0, In r out -> In r0 (frame_of_labels (repeat 0 10 ++ [1])) ->
                    target r = 1 -> target r0 = 1 -> features r = features r0) /\
      (length (frame_of_labels (repeat 0 10 ++ [1])) < length out ->
       In (SamplingWarning 1) (warned w'))).
Proof.
  apply (singleton_class_asymmetry nat Nat.eq_dec unit neighbors0 mean0 balancer_half
           (frame_of_labels (repeat 0 10 ++ [1])) 1 world0).
  - split; [reflexivity | discriminate].
  - vm_compute. lia.
  - vm_compute. reflexivity.
Defined.

Lemma balanced_frame_is_returned_witness :
  OversamplingClassBalancer_balance Nat.eq_dec balancer_plain frame_even world0
  = (inr (reset_index frame_even), world0) /\
  UndersamplingClassBalancer_balance Nat.eq_dec balancer_plain frame_even world0
  = (inr (reset_index frame_even), world0).
Proof.
  apply (balanced_frame_is_returned nat Nat.eq_dec unit
           balancer_plain frame_even world0).
  - split; [reflexivity | discriminate].
  - vm_compute. lia.
  - vm_compute. reflexivity.
  - reflexivity.
Defined.

Lemma oversampling_adds_copies_witness :
  exists out w' extra,
    OversamplingClassBalancer_balance Nat.eq_dec balancer_half frame_small world0
    = (inr out, w') /\
    Permutation (map payload out) (map payload frame_small ++ extra) /\
    incl extra (map payload frame_small) /\
    map index out = seq 0 (length out).
Proof.
  apply (oversampling_adds_copies nat Nat.eq_dec unit balancer_half frame_small world0).
  - split; [reflexivity | discriminate].
  - vm_compute. lia.
Defined.

Lemma undersampling_drops_rows_witness :
  exists out w' kept,
    UndersamplingClassBalancer_balance Nat.eq_dec balancer_plain frame_small world0
    = (inr out, w') /\
    subsequence kept (map payload frame_small) /\
    Permutation (map payload out) kept /\
    (shuffle_ balancer_plain = false -> map payload out = kept) /\
    map index out = seq 0 (length out).
Proof.
  apply (undersampling_drops_rows nat Nat.eq_dec unit balancer_plain frame_small world0).
  - split; [reflexivity | discriminate].
  - vm_compute. lia.
Defined.

Lemma oversampled_class_counts_witness :
  exists out w' n majority,
    OversamplingClassBalancer_balance Nat.eq_dec balancer_half frame_small world0
    = (inr out, w') /\
    In majority (map target frame_small) /\
    (forall l, count_occ Nat.eq_dec (map target frame_small) l
               <= count_occ Nat.eq_dec (map target frame_small) majority) /\
    forall l,
      count_occ Nat.eq_dec (map target out) l
      = count_occ Nat.eq_dec (map target frame_small) l \/
      (1 <= count_occ Nat.eq_dec (map target frame_small) l
       < count_occ Nat.eq_dec (map target frame_small) majority /\
       count_occ Nat.eq_dec (map target frame_small) l < n /\
       count_occ Nat.eq_dec (map target out) l = n).
Proof.
  apply (oversampled_class_counts nat Nat.eq_dec unit balancer_half frame_small world0).
  - split; [reflexivity | discriminate].
  - vm_compute. lia.
Defined.

Lemma undersampled_class_counts_witness :
  exists out w' majority,
    UndersamplingClassBalancer_balance Nat.eq_dec balancer_half frame_small world0
    = (inr out, w') /\
    In majority (map target frame_small) /\
    (forall l, count_occ Nat.eq_dec (map target frame_small) l
               <= count_occ Nat.eq_dec (map target frame_small) majority) /\
    (forall l, l <> majority ->
       count_occ Nat.eq_dec (map target out) l
       = count_occ Nat.eq_dec (map target frame_small) l) /\
    1 <= count_occ Nat.eq_dec (map target out) majority
      <= count_occ Nat.eq_dec (map target frame_small) majority.
Proof.
  apply (undersampled_class_counts nat Nat.eq_dec unit balancer_half frame_small world0).
  - split; [reflexivity | discriminate].
  - vm_compute. lia.
Defined.

Lemma balancer_warnings_issued_witness :
  (exists out w' singles,
      OversamplingClassBalancer_balance Nat.eq_dec balancer_half
        (frame_of_labels (repeat 0 10 ++ [1])) world0 = (inr out, w') /\
      warned w' = warned world0 ++ map SamplingWarning singles /\
      NoDup singles /\
      (forall l, In l singles ->
                 count_occ Nat.eq_dec
                   (map target (frame_of_labels (repeat 0 10 ++ [1]))) l = 1) /\
      (length (frame_of_labels (repeat 0 10 ++ [1])) < length out ->
       forall l, count_occ Nat.eq_dec
                   (map target (frame_of_labels (repeat 0 10 ++ [1]))) l = 1 ->
                 In l singles)) /\
  (exists out w',
      UndersamplingClassBalancer_balance Nat.eq_dec balancer_half
        (frame_of_labels (repeat 0 10 ++ [1])) world0 = (inr out, w') /\
      warned w' = warned world0).
Proof.
  apply (balancer_warnings_issued nat Nat.eq_dec unit balancer_half
           (frame_of_labels (repeat 0 10 ++ [1])) world0).
  - split; [reflexivity | discriminate].
  - vm_compute. lia.
Defined.

End BalanceFacts.

(* ===================================================================== *)
(** * Theorems: the frame validation helper                                *)
(* ===================================================================== *)

Module UtilFacts.

Import Util.

Section ValidateIsPdFacts.

Variable frame : Type.
Variable data : Type.
Variable from_records : data -> option frame.

(** A [pd.Series] is refused before [cols] is looked at, a [cols] that
    cannot be iterated is refused for every other argument, and neither
    refusal issues a warning. *)
Lemma validate_is_pd_refusals (X : pyobject frame data) (cols : pycols) (warn : bool) :
  validate_is_pd from_records PySeries cols warn
  = (inl (ValueError "expected DataFrame but got Series"), []) /\
  (X <> PySeries ->
   validate_is_pd from_records X ColsNotIterable warn
   = (inl (ValueError "cols must be an iterable sequence"), [])).
Proof.
  split; [reflexivity |].
  destruct X as [| f | k a]; [congruence | reflexivity | reflexivity].
Qed.

(** X21: an empty [cols] is treated as [None], for every argument; and
    the list of names that comes back is never empty: it is the list that
    was passed in. *)
Theorem validate_is_pd_empty_cols (X : pyobject frame data) (cols : pycols) (warn : bool) :
  validate_is_pd from_records X (ColsIterable []) warn
  = validate_is_pd from_records X ColsNone warn /\
  (forall f names ws,
     validate_is_pd from_records X cols warn = (inr (f, Some names), ws) ->
     names <> [] /\ cols = ColsIterable names).
Proof.
  split.
  - destruct X as [| f | k a]; reflexivity.
  - intros f names ws H.
    destruct X as [| g | k a]; [discriminate | |];
      destruct cols as [| | [| n ns]]; cbn in H; try discriminate.
    + injection H as _ <- _. split; [discriminate | reflexivity].
    + destruct k; destruct (from_records a); discriminate.
    + destruct k; destruct (from_records a); discriminate.
    + destruct (from_records a); [| discriminate].
      injection H as _ <- _. split; [discriminate | reflexivity].
Qed.

(** X22: a [pd.DataFrame] with a [cols] that can be iterated always
    passes: the frame comes back together with the names (or [None] when
    there are none), and no warning is issued whatever [warn] says; a
    warning is only ever issued when [warn] is set, for an argument that
    is no frame and comes without names. *)
Theorem validate_is_pd_frame (f : frame) (X : pyobject frame data) (cols : pycols) (warn : bool) :
  validate_is_pd from_records (PyDataFrame f) ColsNone warn = (inr (f, None), []) /\
  (forall names,
     validate_is_pd from_records (PyDataFrame f) (ColsIterable names) warn
     = (inr (f, match names with [] => None | _ => Some names end), [])) /\
  (forall r w ws,
     validate_is_pd from_records X cols warn = (r, w :: ws) ->
     warn = true /\ (exists k a, X = PyRaw k a) /\
     (cols = ColsNone \/ cols = ColsIterable [])).
Proof.
  split; [reflexivity |]. split.
  - intros [| n ns]; reflexivity.
  - intros r w ws H.
    destruct X as [| g | k a]; [discriminate | |].
    + destruct cols as [| | [| n ns]]; discriminate.
    + destruct cols as [| | [| n ns]]; cbn in H; try discriminate.
      * destruct warn; [| destruct k; destruct (from_records a); discriminate].
        eauto 6.
      * destruct warn; [| destruct k; destruct (from_records a); discriminate].
        eauto 6.
      * destruct (from_records a); discriminate.
Qed.

End ValidateIsPdFacts.

End UtilFacts.
